(** * SuperPi: the digit-computation engine of [superpi.c]

    The repository holds two programs that share one entry point,
    [calculate_pi_digits]: the series program ([src/superpi.c], Machin's
    formula) and the iterative program ([src/src/superpi.c],
    Gauss-Legendre).  Both are written against GMP's [mpf] layer.

    The development is organised as follows.
    - [Dbl]: the few binary64 operations the programs use.
    - [Arith], [Provider]: the interface of the arithmetic provider.
    - Section [Machine]: the state the C code mutates (the [mpf_t]
      variables, the default precision, the record of acquisitions and
      releases) and a small state monad in which the statements of the
      two functions are written one for one.
    - [Series], [Iterative]: the two functions.
    - [Ref]: a reference provider that can be executed.
    - [Exact]: the provider over the real numbers.
    - [SeriesSpec], [IterativeSpec]: the two algorithms as the
      specification words them.
    - [SeriesProgram], [IterativeProgram]: the rest of the two programs,
      that is [main], [save_pi_to_file] and [print_progress_time], over the
      terminal, the heap and the files.
    - [Enclosure]: bounds computed with integers for the values of the
      recurrence and of the series over the reals.
    - Properties: facts on the binary64 operations, on the machine and on
      the two programs, then the claims of the specification, one theorem
      each, then further properties of the code. *)

From Stdlib Require Import ZArith List String Ascii Bool Lia Reals Lra.
From Bignums Require Import BigZ.
Import ListNotations.

Local Open Scope Z_scope.

(** ** Constants of the programs *)

Definition MAX_DIGITS : Z := 10000000.
Definition DEFAULT_DIGITS : Z := 1000000.

(** [uint64_t] and [unsigned long] arithmetic (LP64) wraps modulo 2^64. *)
Definition u64 (x : Z) : Z := x mod 2 ^ 64.

(** [(int) x] for an unsigned 64-bit [x]: the low 32 bits, read as signed. *)
Definition to_int (x : Z) : Z :=
  let y := x mod 2 ^ 32 in if y <? 2 ^ 31 then y else y - 2 ^ 32.

(** ** Binary64 values *)

Module Dbl.

(** A finite [double]: [dmant * 2 ^ dexp].  The programs never come near
    the overflow or the subnormal range, so the exponent is unbounded. *)
Record double : Type := Double { dmant : Z; dexp : Z }.

(** Round [m * 2 ^ e] to a 53-bit mantissa, to nearest, ties to even. *)
Definition round53 (m e : Z) : double :=
  let k := Z.log2 (Z.abs m) + 1 - 53 in
  if k <=? 0 then Double m e
  else
    let q := Z.abs m / 2 ^ k in
    let r := Z.abs m mod 2 ^ k in
    let h := 2 ^ (k - 1) in
    let q' := if (h <? r) || ((r =? h) && Z.odd q) then q + 1 else q in
    Double (Z.sgn m * q') (e + k).

(** Conversion of an unsigned 64-bit integer to [double]. *)
Definition of_uint64 (n : Z) : double := round53 n 0.

Definition mul (x y : double) : double :=
  round53 (dmant x * dmant y) (dexp x + dexp y).

Definition add (x y : double) : double :=
  let e := Z.min (dexp x) (dexp y) in
  round53 (dmant x * 2 ^ (dexp x - e) + dmant y * 2 ^ (dexp y - e)) e.

(** Conversion of a [double] to [unsigned long]: the fraction is dropped. *)
Definition to_ulong (x : double) : Z :=
  if 0 <=? dexp x then dmant x * 2 ^ dexp x
  else Z.quot (dmant x) (2 ^ (- dexp x)).

(** The literals [3.322], [1e-50] and [0.25] as the compiler stores them. *)
Definition lit_3_322 : double := Double 7480478981062394 (-51).
Definition lit_1e_50 : double := Double 8424983333484575 (-219).
Definition lit_0_25 : double := Double 1 (-2).

End Dbl.

(** ** Precision planning

    [mpf_set_default_prec(digits * 3.322 + 10000)]: the product and the sum
    are evaluated in [double], the result is converted to [mp_bitcnt_t]. *)

Definition working_precision (digits : Z) : Z :=
  Dbl.to_ulong
    (Dbl.add (Dbl.mul (Dbl.of_uint64 digits) Dbl.lit_3_322)
             (Dbl.of_uint64 10000)).

(** What the specification writes: [ceil(D * log2(10)) + margin].  For
    [D >= 1] the ceiling of [D * log2(10)] is the least [k] with
    [10 ^ D <= 2 ^ k], which is [Z.log2_up (10 ^ D)]. *)
Definition spec_precision (margin D : Z) : Z := Z.log2_up (10 ^ D) + margin.

(** ** The arithmetic provider

    The programs are written against GMP's [mpf] functions.  GMP is an
    external library; its operations enter the development as the fields of
    a record.  Every function that writes an [mpf_t] works at the precision
    of the destination, which was fixed when the destination was
    initialised: the operations take that precision (in bits, as handed to
    [mpf_set_default_prec]) as their first argument. *)

Record Arith : Type := {
  num : Type;
  fzero : num;                               (* value after [mpf_init] *)
  fset_ui : Z -> Z -> num;                   (* [mpf_set_ui] *)
  fset_d : Z -> Dbl.double -> num;           (* [mpf_set_d] *)
  fset : Z -> num -> num;                    (* [mpf_set] *)
  fadd : Z -> num -> num -> num;             (* [mpf_add] *)
  fsub : Z -> num -> num -> num;             (* [mpf_sub] *)
  fmul : Z -> num -> num -> num;             (* [mpf_mul] *)
  fdiv : Z -> num -> num -> num;             (* [mpf_div] *)
  fmul_ui : Z -> num -> Z -> num;            (* [mpf_mul_ui] *)
  fdiv_ui : Z -> num -> Z -> num;            (* [mpf_div_ui] *)
  fsqrt : Z -> num -> num;                   (* [mpf_sqrt] *)
  fabs : Z -> num -> num;                    (* [mpf_abs] *)
  fcmp_d : num -> Dbl.double -> Z            (* [mpf_cmp_d] *)
}.

(** [fprint n x] is what [gmp_snprintf] with the format ["%.*Ff"] and the
    precision argument [n] would write for [x] into an unbounded buffer. *)
Record Provider : Type := {
  arith :> Arith;
  fprint : Z -> num arith -> string
}.

(** ** Outcomes of running a piece of code *)

Inductive result (S T : Type) : Type :=
| Done (x : T) (s : S)      (* ran to its end *)
| Undefined                 (* touched an [mpf_t] that is not live, or
                               initialised one that is *)
| Timeout.                  (* still looping when the fuel ran out *)

Arguments Done {S T} x s.
Arguments Undefined {S T}.
Arguments Timeout {S T}.

Definition M (S T : Type) : Type := S -> result S T.

Definition ret {S T} (x : T) : M S T := fun s => Done x s.

Definition bind {S T U} (c : M S T) (k : T -> M S U) : M S U :=
  fun s => match c s with
           | Done x s' => k x s'
           | Undefined => Undefined
           | Timeout => Timeout
           end.

(** What the caller observes of a run: the returned value, or why there is
    none. *)
Inductive verdict (T : Type) : Type :=
| Returned (x : T)
| Stuck
| Running.

Arguments Returned {T} x.
Arguments Stuck {T}.
Arguments Running {T}.

Definition observe {S T} (r : result S T) : verdict T :=
  match r with
  | Done x _ => Returned x
  | Undefined => Stuck
  | Timeout => Running
  end.

Declare Scope prog_scope.
Delimit Scope prog_scope with prog.
Notation "x <- c ;; k" := (bind c (fun x => k))
  (at level 61, c at next level, right associativity) : prog_scope.
Notation "c ;; k" := (bind c (fun _ => k))
  (at level 61, right associativity) : prog_scope.

(** ** The environment of one call *)

(** [malloc_ok]: whether the one [malloc] of the call succeeds.
    [sigint_round k]: whether the user's SIGINT arrives while round [k] of
    the iterative program's loop runs. *)
Record env : Type := { malloc_ok : bool; sigint_round : Z -> bool }.

Definition quiet : env := {| malloc_ok := true; sigint_round := fun _ => false |}.
Definition no_memory : env := {| malloc_ok := false; sigint_round := fun _ => false |}.
Definition interrupted_in (k : Z) : env :=
  {| malloc_ok := true; sigint_round := fun i => i =? k |}.

(** The same environment without any SIGINT. *)
Definition hush (E : env) : env :=
  {| malloc_ok := malloc_ok E; sigint_round := fun _ => false |}.

(** What the caller finds in its [char *] after the call. *)
Inductive out_ptr : Type :=
| Unchanged                 (* the call never wrote [*result] *)
| Null                      (* [*result] is the null pointer *)
| Buffer (s : string).      (* [*result] holds this C string *)

(** ** C strings *)

Fixpoint str_take (n : nat) (s : string) : string :=
  match n, s with
  | S n', String c s' => String c (str_take n' s')
  | _, _ => EmptyString
  end.

(** [strchr s c]: the suffix of [s] that starts at the first [c]. *)
Fixpoint strchr (s : string) (c : ascii) : option string :=
  match s with
  | EmptyString => None
  | String d s' => if Ascii.eqb d c then Some s else strchr s' c
  end.

(** [gmp_snprintf (buf, size, ...)] keeps at most [size - 1] characters. *)
Definition gmp_snprintf (size : Z) (rendered : string) : string :=
  str_take (Z.to_nat (size - 1)) rendered.

(** [memmove (buf, dot + 1, strlen (dot))]: the buffer then holds what
    followed the point, terminator included. *)
Definition memmove_after (dot : string) : string :=
  match dot with
  | EmptyString => EmptyString
  | String _ rest => rest
  end.

(** [buf[n] = '\0']: the C string ends at index [n] if it was longer. *)
Definition terminate_at (n : Z) (s : string) : string := str_take (Z.to_nat n) s.

(** The string processing at the end of [calculate_pi_digits]. *)
Definition extract_digits (digits : Z) (rendered : string) : string :=
  let buf := gmp_snprintf (u64 (digits + 10)) rendered in
  match strchr buf "." with
  | Some dot => terminate_at digits (memmove_after dot)
  | None => buf
  end.

Definition is_digit (c : ascii) : bool :=
  let n := nat_of_ascii c in (48 <=? n)%nat && (n <=? 57)%nat.

Fixpoint all_digits (s : string) : bool :=
  match s with
  | EmptyString => true
  | String c s' => is_digit c && all_digits s'
  end.

(** ** The machine: [mpf_t] variables and the record of the call *)

Section Machine.

Variable A : Arith.
Variable V : Type.                    (* the names of the [mpf_t] variables *)
Variable V_eqb : V -> V -> bool.

Record cell : Type := Cell { c_prec : Z; c_val : num A }.

Inductive event : Type :=
| EvSetPrec (bits : Z)                (* [mpf_set_default_prec] *)
| EvInit (v : V)                      (* [mpf_init] *)
| EvClear (v : V)                     (* [mpf_clear] *)
| EvMalloc (size : Z) (ok : bool)     (* [malloc] *)
| EvProgress (power_of_two : Z)       (* a progress line on stdout *)
| EvSigint.                           (* the handler's message on stdout *)

Record machine : Type := Machine {
  default_prec : Z;                   (* GMP's default precision, in bits *)
  vars : list (V * cell);             (* the live [mpf_t] variables *)
  trace : list event;                 (* oldest first *)
  last_shown : Z;                     (* [static uint64_t last_shown] *)
  keep_running : bool                 (* [volatile sig_atomic_t keep_running] *)
}.

(** A fresh process: GMP's default precision is 53 bits. *)
Definition boot : machine :=
  {| default_prec := 53; vars := []; trace := []; last_shown := 0;
     keep_running := true |}.

(** Updates of one field.  They take the record apart, so that a chain
    of updates is evaluated from the inside. *)
Definition with_prec (m : machine) (bits : Z) : machine :=
  let '(Machine _ vs tr ls kr) := m in Machine bits vs tr ls kr.

Definition with_vars (m : machine) (l : list (V * cell)) : machine :=
  let '(Machine dp _ tr ls kr) := m in Machine dp l tr ls kr.

Definition with_last_shown (m : machine) (k : Z) : machine :=
  let '(Machine dp vs tr _ kr) := m in Machine dp vs tr k kr.

Definition with_keep_running (m : machine) (b : bool) : machine :=
  let '(Machine dp vs tr ls _) := m in Machine dp vs tr ls b.

Definition log (e : event) (m : machine) : machine :=
  let '(Machine dp vs tr ls kr) := m in Machine dp vs (tr ++ [e]) ls kr.

Fixpoint lookup (v : V) (l : list (V * cell)) : option cell :=
  match l with
  | [] => None
  | (w, c) :: l' => if V_eqb v w then Some c else lookup v l'
  end.

Fixpoint assign (v : V) (x : num A) (l : list (V * cell)) : list (V * cell) :=
  match l with
  | [] => []
  | (w, c) :: l' =>
      if V_eqb v w then (w, Cell (c_prec c) x) :: l'
      else (w, c) :: assign v x l'
  end.

Fixpoint release (v : V) (l : list (V * cell)) : list (V * cell) :=
  match l with
  | [] => []
  | (w, c) :: l' => if V_eqb v w then l' else (w, c) :: release v l'
  end.

Definition live (m : machine) : list V := map fst (vars m).

(** How often a trace acquires, and releases, the variable [v]. *)
Definition acquired (v : V) (tr : list event) : nat :=
  List.length (filter (fun e => match e with EvInit w => V_eqb v w | _ => false end) tr).

Definition released (v : V) (tr : list event) : nat :=
  List.length (filter (fun e => match e with EvClear w => V_eqb v w | _ => false end) tr).

Local Abbreviation prog := (M machine).

Definition mpf_set_default_prec (bits : Z) : prog unit :=
  fun m =>
    Done tt (log (EvSetPrec bits) (with_prec m bits)).

Definition mpf_init (v : V) : prog unit :=
  fun m =>
    match lookup v (vars m) with
    | Some _ => Undefined
    | None =>
        Done tt (log (EvInit v)
                   (with_vars m (vars m ++ [(v, Cell (default_prec m) (fzero A))])))
    end.

Definition mpf_clear (v : V) : prog unit :=
  fun m =>
    match lookup v (vars m) with
    | Some _ => Done tt (log (EvClear v) (with_vars m (release v (vars m))))
    | None => Undefined
    end.

(** Reading a source operand and writing a destination. *)
Definition load (u : V) : prog (num A) :=
  fun m =>
    match lookup u (vars m) with
    | Some c => Done (c_val c) m
    | None => Undefined
    end.

Definition store (r : V) (f : Z -> num A) : prog unit :=
  fun m =>
    match lookup r (vars m) with
    | Some c => Done tt (with_vars m (assign r (f (c_prec c)) (vars m)))
    | None => Undefined
    end.

Local Open Scope prog_scope.

Definition mpf_set_ui (r : V) (n : Z) : prog unit :=
  store r (fun p => fset_ui A p n).
Definition mpf_set_d (r : V) (d : Dbl.double) : prog unit :=
  store r (fun p => fset_d A p d).
Definition mpf_set (r u : V) : prog unit :=
  x <- load u ;; store r (fun p => fset A p x).
Definition mpf_add (r u v : V) : prog unit :=
  x <- load u ;; y <- load v ;; store r (fun p => fadd A p x y).
Definition mpf_sub (r u v : V) : prog unit :=
  x <- load u ;; y <- load v ;; store r (fun p => fsub A p x y).
Definition mpf_mul (r u v : V) : prog unit :=
  x <- load u ;; y <- load v ;; store r (fun p => fmul A p x y).
Definition mpf_div (r u v : V) : prog unit :=
  x <- load u ;; y <- load v ;; store r (fun p => fdiv A p x y).
Definition mpf_mul_ui (r u : V) (n : Z) : prog unit :=
  x <- load u ;; store r (fun p => fmul_ui A p x n).
Definition mpf_div_ui (r u : V) (n : Z) : prog unit :=
  x <- load u ;; store r (fun p => fdiv_ui A p x n).
Definition mpf_sqrt (r u : V) : prog unit :=
  x <- load u ;; store r (fun p => fsqrt A p x).
Definition mpf_abs (r u : V) : prog unit :=
  x <- load u ;; store r (fun p => fabs A p x).
Definition mpf_cmp_d (u : V) (d : Dbl.double) : prog Z :=
  x <- load u ;; ret (fcmp_d A x d).

Definition malloc (E : env) (size : Z) : prog bool :=
  fun m => Done (malloc_ok E) (log (EvMalloc size (malloc_ok E)) m).

(** [for (unsigned long i = first; ...; i++) body], [n] rounds. *)
Fixpoint for_loop (n : nat) (i : Z) (body : Z -> prog unit) : prog unit :=
  match n with
  | O => ret tt
  | S n' => body i ;; for_loop n' (u64 (i + 1)) body
  end.

End Machine.

Arguments Cell {A} c_prec c_val.
Arguments c_prec {A} c.
Arguments c_val {A} c.
Arguments EvSetPrec {V} bits.
Arguments EvInit {V} v.
Arguments EvClear {V} v.
Arguments EvMalloc {V} size ok.
Arguments EvProgress {V} power_of_two.
Arguments EvSigint {V}.
Arguments default_prec {A V} m.
Arguments vars {A V} m.
Arguments trace {A V} m.
Arguments last_shown {A V} m.
Arguments keep_running {A V} m.
Arguments boot {A V}.
Arguments live {A V} m.

(** ** Code that stays within a frame *)

Section Frames.

Variable A : Arith.
Variable V : Type.

(** The events a piece of code is allowed to add to the trace. *)
Variable Q : event V -> Prop.

(** [frame m m']: the code that led from [m] to [m'] neither acquired nor
    released a variable, left the default precision alone and added only
    events of [Q] to the trace. *)
Definition frame (m m' : machine A V) : Prop :=
  default_prec m' = default_prec m /\
  live m' = live m /\
  exists extra, trace m' = trace m ++ extra /\ Forall Q extra.

(** [safe L c]: from a machine whose live variables are [L], [c] runs to
    its end within the frame. *)
Definition safe (L : list V) {T} (c : M (machine A V) T) : Prop :=
  forall m, live m = L -> exists x m', c m = Done x m' /\ frame m m'.

(** [keeps L c]: whenever [c] runs to its end, it stayed within the
    frame. *)
Definition keeps (L : list V) {T} (c : M (machine A V) T) : Prop :=
  forall m x m', live m = L -> c m = Done x m' -> frame m m'.

End Frames.

(** ** The series program, [src/superpi.c] *)

Module Series.

Inductive var : Type :=
  pi | term1 | term2 | sum | x1 | x2 | x1_pow | x2_pow | temp.

Definition var_eqb (v w : var) : bool :=
  match v, w with
  | pi, pi | term1, term1 | term2, term2 | sum, sum | x1, x1 | x2, x2
  | x1_pow, x1_pow | x2_pow, x2_pow | temp, temp => true
  | _, _ => false
  end.

Definition all_vars : list var :=
  [pi; term1; term2; sum; x1; x2; x1_pow; x2_pow; temp].

(** The kernel adds no event to the trace. *)
Definition silent : event var -> Prop := fun _ => False.

Section Numeric.

Variable A : Arith.

Local Abbreviation prog := (M (machine A var)).
Local Abbreviation mpf_init := (mpf_init A var var_eqb).
Local Abbreviation mpf_clear := (mpf_clear A var var_eqb).
Local Abbreviation mpf_set_ui := (mpf_set_ui A var var_eqb).
Local Abbreviation mpf_set := (mpf_set A var var_eqb).
Local Abbreviation mpf_add := (mpf_add A var var_eqb).
Local Abbreviation mpf_sub := (mpf_sub A var var_eqb).
Local Abbreviation mpf_mul := (mpf_mul A var var_eqb).
Local Abbreviation mpf_mul_ui := (mpf_mul_ui A var var_eqb).
Local Abbreviation mpf_div_ui := (mpf_div_ui A var var_eqb).
Local Open Scope prog_scope.

(** Lines 149-157. *)
Definition init_all : prog unit :=
  mpf_init pi ;; mpf_init term1 ;; mpf_init term2 ;; mpf_init sum ;;
  mpf_init x1 ;; mpf_init x2 ;; mpf_init x1_pow ;; mpf_init x2_pow ;;
  mpf_init temp.

(** Lines 226-234 and 255-263. *)
Definition clear_all : prog unit :=
  mpf_clear pi ;; mpf_clear term1 ;; mpf_clear term2 ;; mpf_clear sum ;;
  mpf_clear x1 ;; mpf_clear x2 ;; mpf_clear x1_pow ;; mpf_clear x2_pow ;;
  mpf_clear temp.

(** The body of the two [for] loops, lines 175-189 and 200-214, for the
    base [x] and its running power [x_pow]. *)
Definition term_step (x x_pow : var) (i : Z) : prog unit :=
  mpf_div_ui temp x_pow (u64 (2 * i + 1)) ;;
  (if i mod 2 =? 0 then mpf_add sum sum temp else mpf_sub sum sum temp) ;;
  mpf_mul temp x_pow x ;;
  mpf_mul x_pow temp x.

Definition arctan_loop (digits : Z) (x x_pow : var) : prog unit :=
  for_loop A var (Z.to_nat (u64 (digits + 1000))) 0 (term_step x x_pow).

(** Lines 159-220. *)
Definition kernel (digits : Z) : prog unit :=
  mpf_set_ui x1 1 ;;
  mpf_div_ui x1 x1 5 ;;
  mpf_set_ui x2 1 ;;
  mpf_div_ui x2 x2 239 ;;
  mpf_set_ui sum 0 ;;
  mpf_set x1_pow x1 ;;
  arctan_loop digits x1 x1_pow ;;
  mpf_mul_ui term1 sum 4 ;;
  mpf_set_ui sum 0 ;;
  mpf_set x2_pow x2 ;;
  arctan_loop digits x2 x2_pow ;;
  mpf_set term2 sum ;;
  mpf_sub pi term1 term2 ;;
  mpf_mul_ui pi pi 4.

(** Lines 143-220: everything before the output buffer is requested. *)
Definition numeric_phase (digits : Z) : prog unit :=
  mpf_set_default_prec A var (working_precision digits) ;;
  init_all ;;
  kernel digits.

(** The value of [pi] when the numeric phase is over. *)
Definition pi_value (digits : Z) (m : machine A var) : option (num A) :=
  match (numeric_phase digits ;; load A var var_eqb pi) m with
  | Done v _ => Some v
  | _ => None
  end.

End Numeric.

Section Call.

Variable P : Provider.
Variable E : env.

Local Open Scope prog_scope.

(** Lines 222-266. *)
Definition extract_phase (digits : Z) : M (machine P var) (Z * out_ptr) :=
  ok <- malloc P var E (u64 (digits + 10)) ;;
  if negb ok then
    clear_all P ;; ret (0, Null)
  else
    v <- load P var var_eqb pi ;;
    let s := extract_digits digits (fprint P (to_int digits + 1) v) in
    clear_all P ;; ret (digits, Buffer s).

(** [uint64_t calculate_pi_digits(uint64_t digits, char **result)];
    [result] tells whether the out-pointer is non-null. *)
Definition calculate_pi_digits (digits : Z) (result : bool)
  : M (machine P var) (Z * out_ptr) :=
  if negb result || (digits <=? 0) || (MAX_DIGITS <? digits)
  then ret (0, Unchanged)
  else numeric_phase P digits ;; extract_phase digits.

(** The text [gmp_snprintf] renders, when the numeric phase gets there. *)
Definition rendered (digits : Z) (m : machine P var) : option string :=
  option_map (fprint P (to_int digits + 1)) (pi_value P digits m).

(** The events of a call that gets past the argument check. *)
Definition call_trace (D : Z) : list (event var) :=
  EvSetPrec (working_precision D) :: map EvInit all_vars
  ++ EvMalloc (D + 10) (malloc_ok E) :: map EvClear all_vars.

End Call.

End Series.

(** ** The iterative program, [src/src/superpi.c] *)

Module Iterative.

Inductive var : Type :=
  a | b | t | p | a_next | b_next | t_next | pi | temp1 | temp2.

Definition var_eqb (v w : var) : bool :=
  match v, w with
  | a, a | b, b | t, t | p, p | a_next, a_next | b_next, b_next
  | t_next, t_next | pi, pi | temp1, temp1 | temp2, temp2 => true
  | _, _ => false
  end.

Definition all_vars : list var :=
  [a; b; t; p; a_next; b_next; t_next; pi; temp1; temp2].

Definition SIGINT : Z := 2.

(** What the loop may print. *)
Definition chatter (e : event var) : Prop :=
  match e with
  | EvProgress _ | EvSigint => True
  | _ => False
  end.

Section Numeric.

Variable A : Arith.
Variable E : env.

Local Abbreviation prog := (M (machine A var)).
Local Abbreviation mpf_init := (mpf_init A var var_eqb).
Local Abbreviation mpf_clear := (mpf_clear A var var_eqb).
Local Abbreviation mpf_set_ui := (mpf_set_ui A var var_eqb).
Local Abbreviation mpf_set_d := (mpf_set_d A var var_eqb).
Local Abbreviation mpf_set := (mpf_set A var var_eqb).
Local Abbreviation mpf_add := (mpf_add A var var_eqb).
Local Abbreviation mpf_sub := (mpf_sub A var var_eqb).
Local Abbreviation mpf_mul := (mpf_mul A var var_eqb).
Local Abbreviation mpf_div := (mpf_div A var var_eqb).
Local Abbreviation mpf_mul_ui := (mpf_mul_ui A var var_eqb).
Local Abbreviation mpf_div_ui := (mpf_div_ui A var var_eqb).
Local Abbreviation mpf_sqrt := (mpf_sqrt A var var_eqb).
Local Abbreviation mpf_abs := (mpf_abs A var var_eqb).
Local Abbreviation mpf_cmp_d := (mpf_cmp_d A var var_eqb).
Local Open Scope prog_scope.

(** Lines 43-48: [signal_handler]. *)
Definition signal_handler (sig : Z) : prog unit :=
  fun m =>
    if sig =? SIGINT then
      Done tt (log A var EvSigint (with_keep_running A var m false))
    else Done tt m.

(** The environment interrupts round [k] when it chooses to; the
    handler then runs before the round's statements. *)
Definition deliver (k : Z) : prog unit :=
  if sigint_round E k then signal_handler SIGINT else ret tt.

(** Lines 265-274. *)
Definition init_all : prog unit :=
  mpf_init a ;; mpf_init b ;; mpf_init t ;; mpf_init p ;;
  mpf_init a_next ;; mpf_init b_next ;; mpf_init t_next ;;
  mpf_init pi ;; mpf_init temp1 ;; mpf_init temp2.

(** Lines 360-369 and 390-399. *)
Definition clear_all : prog unit :=
  mpf_clear a ;; mpf_clear b ;; mpf_clear t ;; mpf_clear p ;;
  mpf_clear a_next ;; mpf_clear b_next ;; mpf_clear t_next ;;
  mpf_clear pi ;; mpf_clear temp1 ;; mpf_clear temp2.

(** Lines 277-282. *)
Definition set_initial : prog unit :=
  mpf_set_ui a 1 ;;
  mpf_set_ui temp1 2 ;;
  mpf_sqrt b temp1 ;;
  mpf_div_ui b b 2 ;;
  mpf_set_ui p 1 ;;
  mpf_set_d t Dbl.lit_0_25.

(** Lines 294-312: one round up to the operand of the comparison. *)
Definition round : prog unit :=
  mpf_add temp1 a b ;;
  mpf_div_ui a_next temp1 2 ;;
  mpf_mul temp1 a b ;;
  mpf_sqrt b_next temp1 ;;
  mpf_sub temp1 a_next a ;;
  mpf_mul temp2 temp1 temp1 ;;
  mpf_mul temp1 p temp2 ;;
  mpf_sub t_next t temp1 ;;
  mpf_mul_ui p p 2 ;;
  mpf_sub temp1 a_next b_next ;;
  mpf_abs temp1 temp1.

(** Lines 329-341: the inner [while] over the powers of two.  The
    variable doubles at most 57 times before it wraps to zero, after
    which the C loop would spin for ever. *)
Fixpoint progress_scan (fuel : nat) (digits estimated power_of_two : Z)
  : prog unit :=
  match fuel with
  | O => fun _ => Timeout
  | S fuel' =>
      if (power_of_two <=? digits) && (power_of_two <=? estimated) then
        fun m =>
          if (power_of_two <=? estimated)
             && (estimated <? u64 (power_of_two * 2))
             && negb (power_of_two =? last_shown m)
          then
            Done tt (log A var (EvProgress power_of_two)
                       (with_last_shown A var m power_of_two))
          else
            progress_scan fuel' digits estimated (u64 (power_of_two * 2)) m
      else ret tt
  end.

(** Lines 320-342. *)
Definition progress (digits iterations : Z) : prog unit :=
  if iterations mod 10 =? 0 then
    progress_scan 64 digits (u64 (iterations * 2)) 128
  else ret tt.

(** Lines 345-347. *)
Definition update : prog unit :=
  mpf_set a a_next ;; mpf_set b b_next ;; mpf_set t t_next.

(** Lines 288-348: [while (1)], entered with [iterations] rounds done. *)
Fixpoint loop (fuel : nat) (digits iterations : Z) : prog unit :=
  match fuel with
  | O => fun _ => Timeout
  | S fuel' =>
      let iterations := u64 (iterations + 1) in
      deliver iterations ;;
      round ;;
      c <- mpf_cmp_d temp1 Dbl.lit_1e_50 ;;
      if c <? 0 then ret tt
      else
        progress digits iterations ;;
        update ;;
        loop fuel' digits iterations
  end.

(** Lines 351-354. *)
Definition finish : prog unit :=
  mpf_add temp1 a b ;;
  mpf_mul temp2 temp1 temp1 ;;
  mpf_mul_ui temp1 t 4 ;;
  mpf_div pi temp2 temp1.

(** Lines 256-354: everything before the output buffer is requested. *)
Definition numeric_phase (fuel : nat) (digits : Z) : prog unit :=
  mpf_set_default_prec A var (working_precision digits) ;;
  init_all ;;
  set_initial ;;
  loop fuel digits 0 ;;
  finish.

(** The value of [pi] when the numeric phase is over. *)
Definition pi_value (fuel : nat) (digits : Z) (m : machine A var)
  : option (num A) :=
  match (numeric_phase fuel digits ;; load A var var_eqb pi) m with
  | Done v _ => Some v
  | _ => None
  end.

End Numeric.

Section Call.

Variable P : Provider.
Variable E : env.

Local Open Scope prog_scope.

(** Lines 356-402. *)
Definition extract_phase (digits : Z) : M (machine P var) (Z * out_ptr) :=
  ok <- malloc P var E (u64 (digits + 10)) ;;
  if negb ok then
    clear_all P ;; ret (0, Null)
  else
    v <- load P var var_eqb pi ;;
    let s := extract_digits digits (fprint P (to_int digits + 1) v) in
    clear_all P ;; ret (digits, Buffer s).

(** [uint64_t calculate_pi_digits(uint64_t digits, char **result)];
    [result] tells whether the out-pointer is non-null, [fuel] bounds
    the rounds of the [while (1)] that are run. *)
Definition calculate_pi_digits (fuel : nat) (digits : Z) (result : bool)
  : M (machine P var) (Z * out_ptr) :=
  if negb result || (digits <=? 0) || (MAX_DIGITS <? digits)
  then ret (0, Unchanged)
  else numeric_phase P E fuel digits ;; extract_phase digits.

(** The text [gmp_snprintf] renders, when the numeric phase gets there. *)
Definition rendered (fuel : nat) (digits : Z) (m : machine P var)
  : option string :=
  option_map (fprint P (to_int digits + 1)) (pi_value P E fuel digits m).

(** The events of a call that gets past the argument check; [chat] is
    what the loop printed. *)
Definition call_trace (D : Z) (chat : list (event var)) : list (event var) :=
  EvSetPrec (working_precision D) :: map EvInit all_vars
  ++ chat ++ EvMalloc (D + 10) (malloc_ok E) :: map EvClear all_vars.

End Call.

(** Lines 137-150 of [main], keep mode: how the caller classifies a call
    that has returned. *)
Inductive report : Type := Saved | Interrupted | Failed.

Definition keep_mode_report (calculated : Z) (pi_result : out_ptr)
           (keep_running : bool) : report :=
  let non_null := match pi_result with Buffer _ => true | _ => false end in
  if (0 <? calculated) && non_null && keep_running then Saved
  else if negb keep_running then Interrupted
  else Failed.

End Iterative.

(** ** A reference provider

    GMP documents its float functions thus: the operation is computed
    exactly and the result is truncated to the precision of the
    destination.  A variable of precision [prec] limbs stores up to
    [prec + 1] limbs of 64 bits, and a request for [bits] bits yields
    [prec = (max (53, bits) + 127) / 64] limbs.  The provider below is that
    contract made executable: a value is [mant * 2 ^ (64 * expo)], every
    operation takes the exact result and keeps its [prec + 1] leading
    limbs, dropping the rest (truncation toward zero).  The text printed
    for ["%.*Ff"] is the decimal expansion with the requested number of
    fractional digits, rounded to nearest, with a point as in the C locale. *)

Module Ref.

Local Open Scope bigZ_scope.

Record mpf : Type := Mpf { mant : bigZ; expo : Z }.

Definition limbs_of_bits (bits : Z) : Z := ((Z.max 53 bits + 2 * 64 - 1) / 64)%Z.

Definition nlimbs (m : bigZ) : Z :=
  if m =? 0 then 0%Z
  else (BigZ.to_Z (BigZ.log2 (BigZ.abs m)) / 64 + 1)%Z.

Definition shl (m : bigZ) (k : Z) : bigZ := BigZ.shiftl m (BigZ.of_Z (64 * k)).
Definition shr (m : bigZ) (k : Z) : bigZ := BigZ.shiftr m (BigZ.of_Z (64 * k)).

(** Keep the [prec + 1] leading limbs of [m]. *)
Definition truncate (bits : Z) (m : bigZ) (e : Z) : mpf :=
  let n := (limbs_of_bits bits + 1)%Z in
  let k := (nlimbs m - n)%Z in
  if (0 <? k)%Z then Mpf (BigZ.sgn m * shr (BigZ.abs m) k) (e + k)
  else Mpf m e.

Definition zero : mpf := Mpf 0 0.

Definition set_ui (bits : Z) (n : Z) : mpf := truncate bits (BigZ.of_Z n) 0.

Definition set_d (bits : Z) (d : Dbl.double) : mpf :=
  let e := (Dbl.dexp d / 64)%Z in
  truncate bits
    (BigZ.shiftl (BigZ.of_Z (Dbl.dmant d)) (BigZ.of_Z (Dbl.dexp d - 64 * e))) e.

Definition set (bits : Z) (x : mpf) : mpf := truncate bits (mant x) (expo x).

Definition abs (bits : Z) (x : mpf) : mpf :=
  truncate bits (BigZ.abs (mant x)) (expo x).

Definition add (bits : Z) (x y : mpf) : mpf :=
  let e := Z.min (expo x) (expo y) in
  truncate bits (shl (mant x) (expo x - e) + shl (mant y) (expo y - e)) e.

Definition sub (bits : Z) (x y : mpf) : mpf :=
  let e := Z.min (expo x) (expo y) in
  truncate bits (shl (mant x) (expo x - e) - shl (mant y) (expo y - e)) e.

Definition mul (bits : Z) (x y : mpf) : mpf :=
  truncate bits (mant x * mant y) (expo x + expo y).

Definition mul_ui (bits : Z) (x : mpf) (n : Z) : mpf :=
  truncate bits (mant x * BigZ.of_Z n) (expo x).

(** Quotients: enough limbs are produced for the truncation to be that
    of the exact quotient. *)
Definition div (bits : Z) (x y : mpf) : mpf :=
  let n := (limbs_of_bits bits + 1)%Z in
  let k := (n + nlimbs (mant y) + 1)%Z in
  let q := shl (BigZ.abs (mant x)) k / BigZ.abs (mant y) in
  truncate bits (BigZ.sgn (mant x) * BigZ.sgn (mant y) * q)
           (expo x - expo y - k).

Definition div_ui (bits : Z) (x : mpf) (n : Z) : mpf :=
  let k := (limbs_of_bits bits + 2)%Z in
  let q := shl (BigZ.abs (mant x)) k / BigZ.of_Z n in
  truncate bits (BigZ.sgn (mant x) * q) (expo x - k).

Definition sqrt (bits : Z) (x : mpf) : mpf :=
  let n := (limbs_of_bits bits + 1)%Z in
  let k0 := (2 * n + 2)%Z in
  let k := if Z.odd (expo x - k0) then (k0 + 1)%Z else k0 in
  truncate bits (BigZ.sqrt (shl (mant x) k)) ((expo x - k) / 2).

(** The sign of [x - d], as [-1], [0] or [1]. *)
Definition cmp_d (x : mpf) (d : Dbl.double) : Z :=
  let lo := Z.min (64 * expo x) (Dbl.dexp d) in
  let u := BigZ.shiftl (mant x) (BigZ.of_Z (64 * expo x - lo)) in
  let v := BigZ.shiftl (BigZ.of_Z (Dbl.dmant d)) (BigZ.of_Z (Dbl.dexp d - lo)) in
  match BigZ.compare u v with
  | Lt => (-1)%Z
  | Eq => 0%Z
  | Gt => 1%Z
  end.

Definition digit_char (d : bigZ) : ascii :=
  ascii_of_nat (48 + Z.to_nat (BigZ.to_Z d)).

(** The [k] low decimal digits of [q], in front of [acc]. *)
Fixpoint low_digits (k : nat) (q : bigZ) (acc : string) : string :=
  match k with
  | O => acc
  | S k' => low_digits k' (q / 10) (String (digit_char (q mod 10)) acc)
  end.

(** All the decimal digits of [q >= 0], in front of [acc]. *)
Fixpoint all_digits_of (fuel : nat) (q : bigZ) (acc : string) : string :=
  let acc' := String (digit_char (q mod 10)) acc in
  match fuel with
  | O => acc'
  | S fuel' => if q / 10 =? 0 then acc' else all_digits_of fuel' (q / 10) acc'
  end.

(** [|x| * 10 ^ n], rounded to the nearest integer. *)
Definition scaled (n : Z) (x : mpf) : bigZ :=
  let s := BigZ.abs (mant x) * 10 ^ BigZ.of_Z n in
  if (0 <=? expo x)%Z then shl s (expo x)
  else
    let sh := BigZ.of_Z (- (64 * expo x)) in
    BigZ.shiftr (BigZ.shiftl s 1 + BigZ.shiftl 1 sh) (sh + 1).

(** ["%.*Ff"] with precision [n]; the programs call it with [n >= 2]. *)
Definition print (n : Z) (x : mpf) : string :=
  let q := scaled (Z.max 0 n) x in
  let p10 := 10 ^ BigZ.of_Z (Z.max 0 n) in
  let ip := q / p10 in
  let fr := low_digits (Z.to_nat n) (q mod p10) EmptyString in
  let body :=
    all_digits_of (Z.to_nat (BigZ.to_Z (BigZ.log2 ip)))
      ip (if (0 <? n)%Z then String "."%char fr else EmptyString) in
  if mant x <? 0 then String "-"%char body else body.

Definition ops : Arith :=
  {| num := mpf; fzero := zero; fset_ui := set_ui; fset_d := set_d;
     fset := set; fadd := add; fsub := sub; fmul := mul; fdiv := div;
     fmul_ui := mul_ui; fdiv_ui := div_ui; fsqrt := sqrt; fabs := abs;
     fcmp_d := cmp_d |}.

Definition provider : Provider := {| arith := ops; fprint := print |}.

End Ref.

(** ** The exact provider

    The same interface over the real numbers, without any rounding: the
    provider in which the formulas of the two algorithms can be read. *)

Module Exact.

Local Open Scope R_scope.

Definition dval (d : Dbl.double) : R :=
  IZR (Dbl.dmant d) * powerRZ 2 (Dbl.dexp d).

Definition cmp_d (x : R) (d : Dbl.double) : Z :=
  if Rlt_dec x (dval d) then (-1)%Z
  else if Rlt_dec (dval d) x then 1%Z else 0%Z.

Definition ops : Arith :=
  {| num := R; fzero := 0;
     fset_ui := fun _ n => IZR n;
     fset_d := fun _ d => dval d;
     fset := fun _ x => x;
     fadd := fun _ x y => x + y;
     fsub := fun _ x y => x - y;
     fmul := fun _ x y => x * y;
     fdiv := fun _ x y => x / y;
     fmul_ui := fun _ x n => x * IZR n;
     fdiv_ui := fun _ x n => x / IZR n;
     fsqrt := fun _ x => sqrt x;
     fabs := fun _ x => Rabs x;
     fcmp_d := cmp_d |}.

End Exact.

(** ** The series algorithm in the words of the specification *)

Module SeriesSpec.

Local Open Scope R_scope.

(** The term of index [i]: [x^(2i+1) / (2i+1)], added when [i] is even
    and subtracted when [i] is odd. *)
Definition taylor_term (x : R) (i : nat) : R :=
  (if Nat.even i then 1 else -1) * (x ^ (2 * i + 1) / INR (2 * i + 1)).

(** The sum of the first [n] terms. *)
Fixpoint arctan_sum (x : R) (n : nat) : R :=
  match n with
  | O => 0
  | S k => arctan_sum x k + taylor_term x k
  end.

(** [term1 = 4 * arctan (1/5)], [term2 = arctan (1/239)],
    [pi = 4 * (term1 - term2)], each sum over [n] terms. *)
Definition machin (n : nat) : R :=
  4 * (4 * arctan_sum (1 / 5) n - arctan_sum (1 / 239) n).

End SeriesSpec.

(** ** The iterative algorithm as a recurrence *)

Module IterativeSpec.

Section Recurrence.

Variable A : Arith.
Variable bits : Z.                  (* the precision of the variables *)

Record state : Type := State { sa : num A; sb : num A; st : num A; sp : num A }.

(** [a0 = 1], [b0 = sqrt 2 / 2], [t0 = 0.25], [p0 = 1]. *)
Definition initial : state :=
  {| sa := fset_ui A bits 1;
     sb := fdiv_ui A bits (fsqrt A bits (fset_ui A bits 2)) 2;
     st := fset_d A bits Dbl.lit_0_25;
     sp := fset_ui A bits 1 |}.

(** One round: [a' = (a + b) / 2], [b' = sqrt (a * b)],
    [t' = t - p * (a' - a)^2], [p' = 2 * p]. *)
Definition next (s : state) : state :=
  let a' := fdiv_ui A bits (fadd A bits (sa s) (sb s)) 2 in
  let d := fsub A bits a' (sa s) in
  {| sa := a';
     sb := fsqrt A bits (fmul A bits (sa s) (sb s));
     st := fsub A bits (st s) (fmul A bits (sp s) (fmul A bits d d));
     sp := fmul_ui A bits (sp s) 2 |}.

(** The stopping test on the new means: [|a' - b'| < 1e-50]. *)
Definition close_enough (s' : state) : bool :=
  fcmp_d A (fabs A bits (fsub A bits (sa s') (sb s'))) Dbl.lit_1e_50 <? 0.

(** When the test fails the new [a], [b], [t] are copied into the old
    ones with [mpf_set]; [p] was doubled in place. *)
Definition carry (s' : state) : state :=
  {| sa := fset A bits (sa s'); sb := fset A bits (sb s');
     st := fset A bits (st s'); sp := sp s' |}.

(** The state the loop holds after [n] rounds whose test failed. *)
Fixpoint after (n : nat) : state :=
  match n with
  | O => initial
  | S k => carry (next (after k))
  end.

(** The test fails in each of the rounds [1 .. n] and holds in round
    [n + 1]. *)
Definition exits_in_round_after (n : nat) : bool :=
  forallb (fun k => negb (close_enough (next (after k)))) (seq 0 n)
  && close_enough (next (after n)).

(** [(a + b)^2 / (4 * t)]. *)
Definition final (s : state) : num A :=
  let u := fadd A bits (sa s) (sb s) in
  fdiv A bits (fmul A bits u u) (fmul_ui A bits (st s) 4).

End Recurrence.

End IterativeSpec.

(** ** The variables of the iterative program, spelled out *)

Module IterativeShape.
Import Iterative.

Section Shape.

Variable A : Arith.
Variable bits : Z.

Local Abbreviation state := (IterativeSpec.state A).
Local Abbreviation next := (IterativeSpec.next A bits).
Local Abbreviation carry := (IterativeSpec.carry A bits).

(** The ten variables, all of precision [bits]: [a], [b], [t], [p] as
    in [s], then the six others. *)
Definition store10 (s : state) (an bn tn pi' t1 t2 : num A)
  : list (var * cell A) :=
  [ (a, Cell bits (IterativeSpec.sa A s));
    (b, Cell bits (IterativeSpec.sb A s));
    (t, Cell bits (IterativeSpec.st A s));
    (p, Cell bits (IterativeSpec.sp A s));
    (a_next, Cell bits an); (b_next, Cell bits bn);
    (t_next, Cell bits tn); (pi, Cell bits pi');
    (temp1, Cell bits t1); (temp2, Cell bits t2) ].

(** [s] after [n] more rounds whose test failed. *)
Fixpoint from (n : nat) (s : state) : state :=
  match n with
  | O => s
  | S k => from k (carry (next s))
  end.

End Shape.

End IterativeShape.

(** ** Code that does not look at the flag *)

Module Blind.

Section Blind.

Variable A : Arith.
Variable V : Type.

Local Abbreviation machine := (machine A V).

(** Two machines that differ at most in the trace and in the flag
    [keep_running]. *)
Definition same_data (m1 m2 : machine) : Prop :=
  default_prec m1 = default_prec m2 /\ vars m1 = vars m2 /\
  last_shown m1 = last_shown m2.

(** Two pieces of code that cannot be told apart by their results on
    such machines. *)
Definition agree {T} (c1 c2 : M machine T) : Prop :=
  forall m1 m2, same_data m1 m2 ->
    match c1 m1, c2 m2 with
    | Done x m1', Done y m2' => x = y /\ same_data m1' m2'
    | Undefined, Undefined => True
    | Timeout, Timeout => True
    | _, _ => False
    end.

End Blind.

End Blind.

(** ** The variables of the series program, spelled out *)

Module SeriesShape.
Import Series.

Section Shape.

Variable A : Arith.
Variable bits : Z.

(** The nine variables, all of precision [bits]. *)
Definition store9 (piv t1v t2v sumv x1v x2v p1v p2v tmpv : num A)
  : list (var * cell A) :=
  [ (pi, Cell bits piv); (term1, Cell bits t1v); (term2, Cell bits t2v);
    (sum, Cell bits sumv); (x1, Cell bits x1v); (x2, Cell bits x2v);
    (x1_pow, Cell bits p1v); (x2_pow, Cell bits p2v);
    (temp, Cell bits tmpv) ].

(** The new sum and the new power after the term of index [i]. *)
Definition sum_step (i : Z) (x sumv pw : num A) : num A :=
  let q := fdiv_ui A bits pw (u64 (2 * i + 1)) in
  if i mod 2 =? 0 then fadd A bits sumv q else fsub A bits sumv q.

Definition pow_step (x pw : num A) : num A :=
  fmul A bits (fmul A bits pw x) x.

End Shape.

End SeriesShape.

(** ** The two means of the iterative recurrence over the reals *)

Section ExactGap.

Local Open Scope R_scope.
Variable bits : Z.

Local Abbreviation after := (IterativeSpec.after Exact.ops bits).
Local Abbreviation sa := (IterativeSpec.sa Exact.ops).
Local Abbreviation sb := (IterativeSpec.sb Exact.ops).

(** The means after [k] rounds, with bounds on their gap. *)
Definition gap_between (k : nat) (lo hi : R) : Prop :=
  7 / 10 <= sb (after k) /\ sb (after k) <= sa (after k) /\
  sa (after k) <= 1 /\ lo <= sa (after k) - sb (after k) <= hi.

End ExactGap.

(** ** The terminal, the heap and the files

    What [main], [save_pi_to_file] and [print_progress_time] do outside
    [calculate_pi_digits]: they print, they free the result buffer, they
    sleep and they write the result file.  The text of a line goes through
    [gettext] and depends on the locale, so a line is kept by what it
    says; the times read from [clock] are not kept.  The lines that
    [calculate_pi_digits] and the signal handler print are in the trace of
    the machine. *)

Inductive message : Type :=
| MsgTooManyArguments           (* stderr, the usage line *)
| MsgUsage                      (* [print_usage] *)
| MsgVersion                    (* [print_version] *)
| MsgInvalidDigits              (* stderr, the argument is not a count *)
| MsgNotANumber                 (* stderr, interactive input did not scan *)
| MsgOutOfRange                 (* stderr, not within 1 .. MAX_DIGITS *)
| MsgPrompt                     (* the interactive banner and prompt *)
| MsgKeepBanner                 (* the banner of the keep mode *)
| MsgComputing (digits : Z)     (* "computing pi to ... digits" *)
| MsgStartTime                  (* the start time, [__TIME__] *)
| MsgCompleted (calculated : Z) (* elapsed time and digits per second *)
| MsgInterrupted                (* "interrupted by the user" *)
| MsgFailed                     (* stderr, the computation failed *)
| MsgCannotCreate (filename : string)   (* stderr *)
| MsgSavedTo (filename : string)
| MsgProgressTime (current_digits : Z).

Inductive action : Type :=
| Printed (line : message)
| Free (buffer : string)        (* [free] of a non-null result buffer *)
| Sleep (seconds : Z).

Record outside : Type := Outside {
  journal : list action;              (* oldest first *)
  files : list (string * string)      (* name and content, newest first *)
}.

Definition nothing_yet : outside := {| journal := []; files := [] |}.

Definition act (a : action) : M outside unit :=
  fun o => let '(Outside j fs) := o in Done tt (Outside (j ++ [a]) fs).

Definition say (line : message) : M outside unit := act (Printed line).

(** [free (p)]; nothing happens on the null pointer. *)
Definition free (p : option string) : M outside unit :=
  match p with
  | Some s => act (Free s)
  | None => ret tt
  end.

(** [fopen (name, "w")], the [fprintf]s on the stream and [fclose]: the
    file then holds [content], whatever it held before.  The writes are
    not checked by the programs and are taken to succeed. *)
Definition write_file (name content : string) : M outside unit :=
  fun o => let '(Outside j fs) := o in Done tt (Outside j ((name, content) :: fs)).

(** What a later reader finds in the file [name]. *)
Fixpoint read_file (name : string) (fs : list (string * string)) : option string :=
  match fs with
  | [] => None
  | (n, c) :: fs' => if String.eqb n name then Some c else read_file name fs'
  end.

(** How many buffers a journal frees, and how many successful [malloc]s a
    trace holds. *)
Definition freed (j : list action) : nat :=
  List.length (filter (fun a => match a with Free _ => true | _ => false end) j).

Definition allocated {V} (tr : list (event V)) : nat :=
  List.length
    (filter (fun e => match e with EvMalloc _ ok => ok | _ => false end) tr).

(** The digit counts a journal announces, one per call of
    [calculate_pi_digits]. *)
Fixpoint asked (j : list action) : list Z :=
  match j with
  | [] => []
  | Printed (MsgComputing d) :: j' => d :: asked j'
  | _ :: j' => asked j'
  end.

(** What the operating system decides for one run of a program. *)
Record os : Type := {
  fopen_ok : string -> bool;    (* whether [fopen (name, "w")] succeeds *)
  footer : Z -> string;         (* the footer of the result file for a digit
                                   count, as the locale and the build date
                                   render its four [fprintf]s *)
  scanf_lu : option Z;          (* what [scanf ("%lu", ...)] stored, if the
                                   input matched *)
  call_env : nat -> env;        (* the environment of the call number [k],
                                   counted from 0 *)
  sigint_asleep : nat -> bool   (* whether SIGINT arrives during the
                                   [sleep] that follows the call number [k] *)
}.

(** The same operating system on which no file can be created, and on
    which no buffer can be allocated. *)
Definition read_only (sys : os) : os :=
  {| fopen_ok := fun _ => false; footer := footer sys;
     scanf_lu := scanf_lu sys; call_env := call_env sys;
     sigint_asleep := sigint_asleep sys |}.

Definition starved (sys : os) : os :=
  {| fopen_ok := fopen_ok sys; footer := footer sys;
     scanf_lu := scanf_lu sys; call_env := fun _ => no_memory;
     sigint_asleep := sigint_asleep sys |}.

(** The same operating system with [n] typed at the prompt. *)
Definition typing (n : Z) (sys : os) : os :=
  {| fopen_ok := fopen_ok sys; footer := footer sys; scanf_lu := Some n;
     call_env := call_env sys; sigint_asleep := sigint_asleep sys |}.

(** The same operating system with SIGINT sent during round [round] of
    the call number [k], or during the [sleep] that follows the call
    number [k]. *)
Definition interrupting (k : nat) (round : Z) (sys : os) : os :=
  {| fopen_ok := fopen_ok sys; footer := footer sys; scanf_lu := scanf_lu sys;
     call_env := fun i => if Nat.eqb i k then interrupted_in round
                          else call_env sys i;
     sigint_asleep := sigint_asleep sys |}.

Definition waking (k : nat) (sys : os) : os :=
  {| fopen_ok := fopen_ok sys; footer := footer sys; scanf_lu := scanf_lu sys;
     call_env := call_env sys;
     sigint_asleep := fun i => Nat.eqb i k || sigint_asleep sys i |}.

(** An operating system that lets every [fopen] succeed, gives every
    call the quiet environment and sends no signal. *)
Definition calm (footer : Z -> string) : os :=
  {| fopen_ok := fun _ => true; footer := footer; scanf_lu := None;
     call_env := fun _ => quiet; sigint_asleep := fun _ => false |}.

(** ** More of the C library *)

Definition nl : string := String (ascii_of_nat 10) EmptyString.

(** [snprintf (buf, size, ...)] keeps at most [size - 1] characters. *)
Definition snprintf (size : Z) (text : string) : string :=
  str_take (Z.to_nat (size - 1)) text.

Definition digit_of (d : Z) : ascii := ascii_of_nat (48 + Z.to_nat d).

(** The decimal digits of [n >= 0], in front of [acc]. *)
Fixpoint decimal_from (fuel : nat) (n : Z) (acc : string) : string :=
  let acc' := String (digit_of (n mod 10)) acc in
  match fuel with
  | O => acc'
  | S fuel' => if n / 10 =? 0 then acc' else decimal_from fuel' (n / 10) acc'
  end.

(** ["%llu"]: an [unsigned long long] has at most twenty digits. *)
Definition decimal (n : Z) : string := decimal_from 19 n EmptyString.

Definition ULLONG_MAX : Z := 2 ^ 64 - 1.

(** [isspace] in the C locale. *)
Definition isspace (c : ascii) : bool :=
  let n := nat_of_ascii c in ((n =? 32) || ((9 <=? n) && (n <=? 13)))%nat.

Fixpoint skip_space (s : string) : string :=
  match s with
  | String c s' => if isspace c then skip_space s' else s
  | EmptyString => s
  end.

(** The value of the decimal digits at the head of [s], continuing
    [acc], and what follows them. *)
Fixpoint digits_prefix (s : string) (acc : Z) : Z * string :=
  match s with
  | String c s' =>
      if is_digit c
      then digits_prefix s' (acc * 10 + (Z.of_nat (nat_of_ascii c) - 48))
      else (acc, s)
  | EmptyString => (acc, s)
  end.

(** [strtoull (nptr, &endptr, 10)]: the value and the string [endptr]
    points to.  White space is skipped, a sign is accepted, a value that
    does not fit is [ULLONG_MAX], a minus sign negates in the unsigned
    type; without any digit the value is 0 and [endptr] is [nptr]. *)
Definition strtoull (nptr : string) : Z * string :=
  let s := skip_space nptr in
  let '(negative, s1) :=
    match s with
    | String "-" r => (true, r)
    | String "+" r => (false, r)
    | _ => (false, s)
    end in
  match s1 with
  | String c _ =>
      if is_digit c then
        let '(v, rest) := digits_prefix s1 0 in
        (if ULLONG_MAX <? v then ULLONG_MAX
         else if negative then u64 (- v) else v, rest)
      else (0, nptr)
  | EmptyString => (0, nptr)
  end.

(** ** The whole process: the machine and what is outside of it *)

Section World.

Variable A : Arith.
Variable V : Type.

Record world : Type := World { mach : machine A V; out : outside }.

Definition start : world := {| mach := boot; out := nothing_yet |}.

Definition on_machine {T} (c : M (machine A V) T) : M world T :=
  fun w =>
    let '(World m o) := w in
    match c m with
    | Done x m' => Done x (World m' o)
    | Undefined => Undefined
    | Timeout => Timeout
    end.

Definition on_outside {T} (c : M outside T) : M world T :=
  fun w =>
    let '(World m o) := w in
    match c o with
    | Done x o' => Done x (World m o')
    | Undefined => Undefined
    | Timeout => Timeout
    end.

(** The value of the flag [keep_running]. *)
Definition flag : M world bool :=
  fun w => let '(World m o) := w in Done (keep_running m) w.

End World.

Arguments mach {A V} w.
Arguments out {A V} w.
Arguments start {A V}.
Arguments on_machine {A V T} c.
Arguments on_outside {A V T} c.
Arguments flag {A V}.

(** The pointer [main] holds in [pi_result], initialised to [NULL],
    after a call. *)
Definition pointer (r : out_ptr) : option string :=
  match r with
  | Buffer s => Some s
  | Unchanged | Null => None
  end.

Definition non_null (p : option string) : bool :=
  match p with Some _ => true | None => false end.

(** ** The rest of the series program, [src/superpi.c] *)

Module SeriesProgram.
Import Series.

Section Program.

Variable P : Provider.
Variable sys : os.

Local Open Scope prog_scope.

(** Lines 280-281. *)
Definition file_name (digits : Z) : string :=
  snprintf 256 ("圆周率_" ++ decimal digits ++ ".txt")%string.

(** Lines 300-303: the footer without a translation catalogue, for a
    program built on the day [date]. *)
Definition msgid_footer (date : string) (digits : Z) : string :=
  ("由SuperPi计算" ++ nl ++ "位数: " ++ decimal digits ++ nl
   ++ "算法: 实际计算" ++ nl ++ "日期: " ++ date)%string.

(** Lines 275-307.  The loop reads [pi_str[i]] for [i < digits]; what
    lies behind the terminator of a shorter string is not part of the
    string, and the model stops there. *)
Definition save_pi_to_file (pi_str : option string) (digits : Z)
  : M outside unit :=
  match pi_str with
  | None => ret tt
  | Some s =>
      if digits <=? 0 then ret tt
      else
        let filename := file_name digits in
        if negb (fopen_ok sys filename) then say (MsgCannotCreate filename)
        else if (String.length s <? Z.to_nat digits)%nat
        then fun _ => Undefined
        else
          write_file filename
            ("3." ++ str_take (Z.to_nat digits) s ++ nl ++ nl
                  ++ footer sys digits)%string ;;
          say (MsgSavedTo filename)
  end.

(** Lines 74-96. *)
Definition compute (digits : Z) : M (world P var) Z :=
  on_outside (say (MsgComputing digits)) ;;
  r <- on_machine (calculate_pi_digits P (call_env sys 0) digits true) ;;
  let '(calculated, pi_result) := r in
  let pi_result := pointer pi_result in
  if (0 <? calculated) && non_null pi_result then
    on_outside (say (MsgCompleted calculated) ;;
                save_pi_to_file pi_result calculated ;;
                free pi_result) ;;
    ret 0
  else
    on_outside (say MsgFailed) ;; ret 0.

(** Lines 37-97; [argv] holds the program name and the arguments. *)
Definition main (argv : list string) : M (world P var) Z :=
  let argc := Z.of_nat (List.length argv) in
  let arg := nth 1 argv EmptyString in
  if 2 <? argc then on_outside (say MsgTooManyArguments) ;; ret 1
  else if argc =? 2 then
    if (arg =? "--help")%string || (arg =? "-h")%string then
      on_outside (say MsgUsage) ;; ret 0
    else if (arg =? "--version")%string || (arg =? "-v")%string then
      on_outside (say MsgVersion) ;; ret 0
    else
      let '(digits, endptr) := strtoull arg in
      if negb (endptr =? EmptyString)%string || (digits =? 0) then
        on_outside (say MsgInvalidDigits) ;; ret 1
      else compute digits
  else compute DEFAULT_DIGITS.

End Program.

End SeriesProgram.

(** ** The rest of the iterative program, [src/src/superpi.c] *)

Module IterativeProgram.
Import Iterative.

(** Lines 229-236.  Nothing in the program calls this function. *)
Definition print_progress_time (current_digits : Z) : M outside unit :=
  if (128 <=? current_digits)
     && (Z.land current_digits (u64 (current_digits - 1)) =? 0)
  then say (MsgProgressTime current_digits)
  else ret tt.

(** Lines 153-156: the digit count of the next round of the keep mode. *)
Definition next_digits (current_digits : Z) : Z :=
  let doubled := u64 (current_digits * 2) in
  if MAX_DIGITS <? doubled then 1000 else doubled.

(** The digit count of the call number [k] of the keep mode, which
    starts at 1000. *)
Definition keep_digits (k : nat) : Z := Nat.iter k next_digits 1000.

Section Program.

Variable P : Provider.
Variable sys : os.
Variable fuel : nat.         (* bounds the rounds of each call's [while (1)] *)

Local Open Scope prog_scope.

(** Lines 416-421. *)
Definition file_name (digits : Z) : string :=
  if digits =? 0 then snprintf 256 "圆周率_永远.text"%string
  else snprintf 256 ("圆周率_" ++ decimal digits ++ "位.text")%string.

(** Lines 440-443: the footer without a translation catalogue, for a
    program built on the day [date]. *)
Definition msgid_footer (date : string) (digits : Z) : string :=
  ("由SuperPi计算" ++ nl ++ "位数: " ++ decimal digits ++ nl
   ++ "算法: Gauss-Legendre" ++ nl ++ "日期: " ++ date ++ nl)%string.

(** Lines 411-447. *)
Definition save_pi_to_file (pi_str : option string) (digits : Z)
  : M outside unit :=
  match pi_str with
  | None => ret tt
  | Some s =>
      if digits <=? 0 then ret tt
      else
        let filename := file_name digits in
        if negb (fopen_ok sys filename) then say (MsgCannotCreate filename)
        else if (String.length s <? Z.to_nat digits)%nat
        then fun _ => Undefined
        else
          write_file filename
            ("3." ++ str_take (Z.to_nat digits) s ++ nl ++ nl
                  ++ footer sys digits)%string ;;
          say (MsgSavedTo filename)
  end.

(** Lines 122-160: the [while (keep_running)] of the keep mode, about to
    make the call number [k]; [rounds] bounds the calls that are run. *)
Fixpoint keep_loop (rounds : nat) (k : nat) (current_digits : Z)
  : M (world P var) unit :=
  match rounds with
  | O => fun _ => Timeout
  | S rounds' =>
      go <- flag ;;
      if negb go then ret tt
      else
        on_outside (say (MsgComputing current_digits) ;; say MsgStartTime) ;;
        r <- on_machine
               (calculate_pi_digits P (call_env sys k) fuel current_digits true) ;;
        let '(calculated, pi_result) := r in
        go <- flag ;;
        match keep_mode_report calculated pi_result go with
        | Saved =>
            on_outside (say (MsgCompleted calculated) ;;
                        save_pi_to_file (pointer pi_result) calculated ;;
                        free (pointer pi_result) ;;
                        act (Sleep 1)) ;;
            on_machine (if sigint_asleep sys k then signal_handler P SIGINT
                        else ret tt) ;;
            keep_loop rounds' (S k) (next_digits current_digits)
        | Interrupted =>
            on_outside (say MsgInterrupted ;; free (pointer pi_result))
        | Failed =>
            on_outside (say MsgFailed ;; free (pointer pi_result))
        end
  end.

(** Lines 162-184. *)
Definition compute (digits : Z) : M (world P var) Z :=
  on_outside (say (MsgComputing digits) ;; say MsgStartTime) ;;
  r <- on_machine (calculate_pi_digits P (call_env sys 0) fuel digits true) ;;
  let '(calculated, pi_result) := r in
  let pi_result := pointer pi_result in
  if (0 <? calculated) && non_null pi_result then
    on_outside (say (MsgCompleted calculated) ;;
                save_pi_to_file pi_result calculated ;;
                free pi_result) ;;
    ret 0
  else
    on_outside (say MsgFailed ;; free pi_result) ;; ret 1.

(** Lines 111-187, once the arguments are read. *)
Definition run (rounds : nat) (keep_mode : bool) (digits : Z)
  : M (world P var) Z :=
  if negb keep_mode && ((digits <=? 0) || (MAX_DIGITS <? digits)) then
    on_outside (say MsgOutOfRange) ;; ret 1
  else if keep_mode then
    on_outside (say MsgKeepBanner) ;;
    keep_loop rounds 0 1000 ;;
    ret 0
  else compute digits.

(** Lines 50-188; [argv] holds the program name and the arguments. *)
Definition main (rounds : nat) (argv : list string) : M (world P var) Z :=
  let argc := Z.of_nat (List.length argv) in
  let arg := nth 1 argv EmptyString in
  if 2 <? argc then on_outside (say MsgTooManyArguments) ;; ret 1
  else if argc =? 1 then
    on_outside (say MsgPrompt) ;;
    match scanf_lu sys with
    | None => on_outside (say MsgNotANumber) ;; ret 1
    | Some digits =>
        if (digits <=? 0) || (MAX_DIGITS <? digits) then
          on_outside (say MsgOutOfRange) ;; ret 1
        else run rounds false digits
    end
  else if argc =? 2 then
    if (arg =? "--help")%string || (arg =? "-h")%string then
      on_outside (say MsgUsage) ;; ret 0
    else if (arg =? "--version")%string || (arg =? "-v")%string then
      on_outside (say MsgVersion) ;; ret 0
    else if (arg =? "--keep")%string || (arg =? "-k")%string then
      run rounds true 1000
    else
      let '(digits, endptr) := strtoull arg in
      if negb (endptr =? EmptyString)%string || (digits =? 0) then
        on_outside (say MsgInvalidDigits) ;; ret 1
      else run rounds false digits
  else run rounds false DEFAULT_DIGITS.

End Program.

End IterativeProgram.

(** ** The interruptions of one call *)

(** The rounds among the first [n] of the iterative loop in which the
    environment [E] sends SIGINT, and the lines the handler prints for
    them.  [first] rounds have been run before. *)
Definition interrupted_rounds (E : env) (first n : nat) : list Z :=
  filter (sigint_round E) (map Z.of_nat (seq (S first) n)).

Definition handler_lines (E : env) (first n : nat)
  : list (event Iterative.var) :=
  map (fun _ => EvSigint) (interrupted_rounds E first n).

Definition undisturbed (E : env) (first n : nat) : bool :=
  match interrupted_rounds E first n with
  | [] => true
  | _ :: _ => false
  end.

(** ** The reference provider in another locale

    [gmp_snprintf] writes the decimal point of the current locale, which
    both [main] functions set from the environment by calling
    [setlocale] for [LC_ALL] with the empty string. *)

Module Locale.

Fixpoint with_point (point : ascii) (s : string) : string :=
  match s with
  | EmptyString => EmptyString
  | String c s' =>
      String (if Ascii.eqb c "." then point else c) (with_point point s')
  end.

Definition provider (point : ascii) : Provider :=
  {| arith := Ref.ops;
     fprint := fun n x => with_point point (Ref.print n x) |}.

End Locale.

(** ** Enclosures by integers

    Bounds for the values of the two algorithms over the reals, computed
    with integers: [lo] and [hi] stand for [lo / scale] and [hi / scale]. *)

Module Enclosure.

Definition scale : Z := 10 ^ 100.

Definition within (lo hi : Z) (x : R) : Prop :=
  (IZR lo <= x * IZR scale <= IZR hi)%R.

(** The quotient rounded up. *)
Definition up_div (x y : Z) : Z := - ((- x) / y).

(** Bounds for [a], [b] and [t] of the iterative recurrence, and [p]. *)
Record box : Type :=
  Box { al : Z; au : Z; bl : Z; bu : Z; tl : Z; tu : Z; pw : Z }.

Definition encloses (x : box) (s : IterativeSpec.state Exact.ops) : Prop :=
  within (al x) (au x) (IterativeSpec.sa Exact.ops s) /\
  within (bl x) (bu x) (IterativeSpec.sb Exact.ops s) /\
  within (tl x) (tu x) (IterativeSpec.st Exact.ops s) /\
  IterativeSpec.sp Exact.ops s = IZR (pw x).

(** [a0 = 1], [b0 = 1 / sqrt 2], [t0 = 1 / 4], [p0 = 1]. *)
Definition first : box :=
  let r := Z.sqrt (scale * scale / 2) in
  Box scale scale r (r + 1) (scale / 4) (scale / 4) 1.

(** One round: [(a + b) / 2], [sqrt (a * b)], [t - p * ((a - b) / 2) ^ 2],
    [2 * p]. *)
Definition step (x : box) : box :=
  let dl := al x - bu x in
  let dh := au x - bl x in
  Box ((al x + bl x) / 2) (up_div (au x + bu x) 2)
      (Z.sqrt (al x * bl x)) (Z.sqrt (au x * bu x) + 1)
      (tl x - up_div (pw x * (dh * dh)) (4 * scale))
      (tu x - pw x * (dl * dl) / (4 * scale))
      (2 * pw x).

(** What [step] needs of its argument: [0 <= b <= a] for certain. *)
Definition ordered (x : box) : bool :=
  (0 <=? bl x) && (bu x <=? al x) && (0 <=? pw x).

Fixpoint after (n : nat) : box :=
  match n with
  | O => first
  | S k => step (after k)
  end.

(** [(a + b) ^ 2 / (4 * t)]. *)
Definition final (x : box) : Z * Z :=
  ((al x + bl x) * (al x + bl x) / (4 * tu x),
   up_div ((au x + bu x) * (au x + bu x)) (4 * tl x)).

(** The sum of the first [n] terms of the arctangent series at [1 / q]. *)
Fixpoint arctan (q : Z) (n : nat) : Z * Z :=
  match n with
  | O => (0, 0)
  | S k =>
      let '(lo, hi) := arctan q k in
      let f := scale / (q ^ (2 * Z.of_nat k + 1) * (2 * Z.of_nat k + 1)) in
      if Nat.even k then (lo + f, hi + (f + 1)) else (lo - (f + 1), hi - f)
  end.

(** Machin's formula on these sums. *)
Definition machin (n : nat) : Z * Z :=
  let '(l5, h5) := arctan 5 n in
  let '(l239, h239) := arctan 239 n in
  (4 * (4 * l5 - h239), 4 * (4 * h5 - l239)).

End Enclosure.

(** * Properties *)

(** ** Facts on the binary64 model *)

Module DblFacts.
Import Dbl.

(** The stored literals are the binary64 numbers nearest to the decimal
    ones: a 53-bit mantissa, at most half a unit in the last place off. *)
Lemma lit_3_322_nearest :
  2 ^ 52 <= dmant lit_3_322 < 2 ^ 53 /\
  2 * Z.abs (dmant lit_3_322 * 1000 - 3322 * 2 ^ 51) <= 1000.
Proof. vm_compute. repeat split; (reflexivity || discriminate). Qed.

Lemma lit_1e_50_nearest :
  2 ^ 52 <= dmant lit_1e_50 < 2 ^ 53 /\
  2 * Z.abs (dmant lit_1e_50 * 10 ^ 50 - 2 ^ 219) <= 10 ^ 50.
Proof. vm_compute. repeat split; (reflexivity || discriminate). Qed.

Lemma round53_exact m e : Z.abs m < 2 ^ 53 -> round53 m e = Double m e.
Proof.
  intros H. unfold round53.
  assert (Z.log2 (Z.abs m) < 53).
  { destruct (Z.eq_dec (Z.abs m) 0) as [->|]; [reflexivity|].
    apply Z.log2_lt_pow2; lia. }
  destruct (Z.leb_spec (Z.log2 (Z.abs m) + 1 - 53) 0); [reflexivity|lia].
Qed.

(** Rounding stays between two bounds that lie on the grid of the result.
    Values are scaled by [2 ^ 51]; the bounds are multiples of [2 ^ 41]. *)
Lemma round53_between m e L U :
  0 < m -> -51 <= e <= -10 -> Z.log2 m + e <= 42 ->
  (2 ^ 41 | L) -> (2 ^ 41 | U) ->
  L <= m * 2 ^ (e + 51) <= U ->
  let d := round53 m e in
  -51 <= dexp d <= -10 /\ 0 <= dmant d /\
  L <= dmant d * 2 ^ (dexp d + 51) <= U.
Proof.
  intros Hm He Hlog HL HU Hb. unfold round53.
  rewrite (Z.abs_eq m) by lia.
  set (k := Z.log2 m + 1 - 53).
  destruct (Z.leb_spec k 0) as [Hk|Hk]; cbn [dexp dmant].
  { repeat split; lia. }
  rewrite (Z.sgn_pos m), Z.mul_1_l by lia.
  set (q := m / 2 ^ k). set (r := m mod 2 ^ k).
  assert (Hk2 : 0 < 2 ^ k) by (apply Z.pow_pos_nonneg; lia).
  assert (Hdiv : m = 2 ^ k * q + r) by (apply Z.div_mod; lia).
  assert (Hr : 0 <= r < 2 ^ k) by (apply Z.mod_pos_bound; lia).
  assert (Hq : 0 <= q) by (apply Z.div_pos; lia).
  set (g := 2 ^ (e + k + 51)).
  assert (Hg : 0 < g) by (apply Z.pow_pos_nonneg; lia).
  assert (Hgk : g = 2 ^ k * 2 ^ (e + 51)).
  { unfold g. rewrite <- Z.pow_add_r by lia. f_equal. lia. }
  assert (He51 : 0 < 2 ^ (e + 51)) by (apply Z.pow_pos_nonneg; lia).
  assert (Hg41 : (g | 2 ^ 41)).
  { exists (2 ^ (41 - (e + k + 51))). unfold g.
    rewrite <- Z.pow_add_r by lia. f_equal. lia. }
  destruct (Z.divide_trans _ _ _ Hg41 HL) as [l Hl].
  destruct (Z.divide_trans _ _ _ Hg41 HU) as [u Hu].
  assert (Hmg : m * 2 ^ (e + 51) = q * g + r * 2 ^ (e + 51)).
  { rewrite Hgk, Hdiv. ring. }
  assert (Hrg : 0 <= r * 2 ^ (e + 51) < g) by (rewrite Hgk; nia).
  assert (Hlq : l <= q) by nia.
  assert (Hqu : q <= u) by nia.
  assert (Hqu' : 0 < r -> q + 1 <= u) by (intros; nia).
  split; [lia|].
  destruct ((2 ^ (k - 1) <? r) || ((r =? 2 ^ (k - 1)) && Z.odd q)) eqn:E.
  - assert (0 < r).
    { assert (0 < 2 ^ (k - 1)) by (apply Z.pow_pos_nonneg; lia).
      apply orb_true_iff in E. destruct E as [E|E].
      - apply Z.ltb_lt in E. lia.
      - apply andb_true_iff in E. destruct E as [E _].
        apply Z.eqb_eq in E. lia. }
    specialize (Hqu' H). split; [lia|].
    fold g. nia.
  - split; [lia|]. fold g. nia.
Qed.

(** For every admissible digit count the two roundings do not disturb
    the integer part: the planner returns [floor (D * 3.322) + 10000]. *)
Lemma working_precision_closed D :
  1 <= D <= MAX_DIGITS -> working_precision D = D * 3322 / 1000 + 10000.
Proof.
  unfold MAX_DIGITS. intros HD. unfold working_precision, of_uint64.
  rewrite (round53_exact D 0) by lia.
  rewrite (round53_exact 10000 0) by lia.
  set (N := D * 3322 / 1000).
  assert (HN : 500 * N <= 1661 * D <= 500 * N + 499).
  { unfold N. replace (D * 3322) with (1661 * D * 2) by ring.
    change 1000 with (500 * 2).
    rewrite Z.div_mul_cancel_r by lia.
    pose proof (Z.mul_div_le (1661 * D) 500).
    pose proof (Z.mul_succ_div_gt (1661 * D) 500). lia. }
  assert (HN0 : 3 <= N <= 33220000) by lia.
  unfold mul, lit_3_322. cbn [dmant dexp]. rewrite Z.add_0_l.
  set (m := D * 7480478981062394).
  assert (Hlog : Z.log2 m < 77).
  { apply Z.log2_lt_pow2; unfold m; lia. }
  pose proof (round53_between m (-51) (N * 2 ^ 51) ((N + 1) * 2 ^ 51 - 2 ^ 41))
    as H1.
  destruct H1 as (He1 & Hm1 & Hb1); try lia.
  { exists (N * 2 ^ 10). ring. }
  { exists ((N + 1) * 2 ^ 10 - 1). ring. }
  destruct (round53 m (-51)) as [m1 e1]. cbn [dmant dexp] in *.
  unfold add. cbn [dmant dexp].
  rewrite Z.min_l by lia. rewrite Z.sub_diag, Z.pow_0_r, Z.mul_1_r, Z.sub_0_l.
  set (m2 := m1 + 10000 * 2 ^ (- e1)).
  assert (Hp1 : 0 < 2 ^ (e1 + 51)) by (apply Z.pow_pos_nonneg; lia).
  assert (Hp2 : 2 ^ (- e1) * 2 ^ (e1 + 51) = 2 ^ 51).
  { rewrite <- Z.pow_add_r by lia. f_equal. lia. }
  assert (Hp3 : 0 < 2 ^ (- e1)) by (apply Z.pow_pos_nonneg; lia).
  assert (Hm2 : m2 * 2 ^ (e1 + 51) = m1 * 2 ^ (e1 + 51) + 10000 * 2 ^ 51).
  { unfold m2. rewrite <- Hp2. ring. }
  assert (Hm2pos : 0 < m2) by (unfold m2; lia).
  assert (Hlog2 : Z.log2 m2 + e1 <= 42).
  { assert (m2 < 2 ^ (26 - e1)).
    { apply Z.mul_lt_mono_pos_r with (p := 2 ^ (e1 + 51)); [exact Hp1|].
      rewrite <- Z.pow_add_r by lia.
      replace (26 - e1 + (e1 + 51)) with 77 by lia. lia. }
    assert (Z.log2 m2 < 26 - e1) by (apply Z.log2_lt_pow2; lia). lia. }
  pose proof (round53_between m2 e1 ((N + 10000) * 2 ^ 51)
                ((N + 10001) * 2 ^ 51 - 2 ^ 41)) as H2.
  destruct H2 as (He2 & Hm2' & Hb2); try lia.
  { exists ((N + 10000) * 2 ^ 10). ring. }
  { exists ((N + 10001) * 2 ^ 10 - 1). ring. }
  destruct (round53 m2 e1) as [m3 e3]. cbn [dmant dexp] in *.
  unfold to_ulong. cbn [dmant dexp].
  destruct (Z.leb_spec 0 e3) as [?|_]; [lia|].
  assert (Hq1 : 0 < 2 ^ (e3 + 51)) by (apply Z.pow_pos_nonneg; lia).
  assert (Hq2 : 2 ^ (- e3) * 2 ^ (e3 + 51) = 2 ^ 51).
  { rewrite <- Z.pow_add_r by lia. f_equal. lia. }
  assert (Hq3 : 0 < 2 ^ (- e3)) by (apply Z.pow_pos_nonneg; lia).
  rewrite Z.quot_div_nonneg by lia.
  symmetry. apply Z.div_unique with (r := m3 - (N + 10000) * 2 ^ (- e3)).
  - left. split.
    + apply Z.le_0_sub.
      apply Z.mul_le_mono_pos_r with (p := 2 ^ (e3 + 51)); [exact Hq1|].
      rewrite <- Z.mul_assoc, Hq2. lia.
    + apply Z.lt_sub_lt_add_l.
      apply Z.mul_lt_mono_pos_r with (p := 2 ^ (e3 + 51)); [exact Hq1|].
      rewrite Z.mul_add_distr_r, <- Z.mul_assoc, Hq2. lia.
  - ring.
Qed.

(** [3.322] lies above [log2 10], so the planned precision exceeds
    [ceil (D * log2 10)] by 9999 bits at least. *)
Lemma pow10_le_pow2 D k : 0 <= D -> 3322 * D < 1000 * k -> 10 ^ D <= 2 ^ k.
Proof.
  intros HD Hk.
  assert (H1 : 10 ^ 1000 <= 2 ^ 3322).
  { vm_compute. discriminate. }
  apply Z.nlt_ge. intros Hlt.
  assert (H2 : (2 ^ k) ^ 1000 < (10 ^ D) ^ 1000).
  { apply Z.pow_lt_mono_l; [lia|]. split; [|exact Hlt].
    apply Z.pow_nonneg. lia. }
  rewrite <- !Z.pow_mul_r in H2 by lia.
  assert (H3 : 10 ^ (D * 1000) <= 2 ^ (3322 * D)).
  { rewrite (Z.mul_comm D 1000), !Z.pow_mul_r by lia.
    apply Z.pow_le_mono_l. split; [|exact H1]. apply Z.pow_nonneg. lia. }
  assert (H4 : 2 ^ (3322 * D) <= 2 ^ (k * 1000)).
  { apply Z.pow_le_mono_r; lia. }
  lia.
Qed.

End DblFacts.

(** ** Facts on the machine *)

Section MachineFacts.

Variable A : Arith.
Variable V : Type.
Variable V_eqb : V -> V -> bool.
Hypothesis V_eqb_eq : forall v w, V_eqb v w = true <-> v = w.
Variable Q : event V -> Prop.


Local Abbreviation machine := (machine A V).
Local Abbreviation prog := (M machine).
Local Abbreviation lookup := (lookup A V V_eqb).
Local Abbreviation assign := (assign A V V_eqb).
Local Abbreviation frame := (frame A V Q).
Local Abbreviation safe := (safe A V Q).
Local Abbreviation keeps := (keeps A V Q).

Lemma lookup_live v (l : list (V * cell A)) :
  In v (map fst l) -> exists c, lookup v l = Some c.
Proof.
  induction l as [|[w c] l IH]; simpl; [tauto|].
  intros [->|H].
  - exists c. destruct (V_eqb v v) eqn:E; [reflexivity|].
    assert (V_eqb v v = true) by (apply V_eqb_eq; reflexivity). congruence.
  - destruct (V_eqb v w); eauto.
Qed.

Lemma assign_live v x (l : list (V * cell A)) :
  map fst (assign v x l) = map fst l.
Proof.
  induction l as [|[w c] l IH]; simpl; [reflexivity|].
  destruct (V_eqb v w); simpl; congruence.
Qed.


Lemma frame_refl m : frame m m.
Proof.
  repeat split. exists []. split; [symmetry; apply app_nil_r|constructor].
Qed.

Lemma frame_trans m1 m2 m3 : frame m1 m2 -> frame m2 m3 -> frame m1 m3.
Proof.
  intros (Hp & Hl & e & He & HQ) (Hp' & Hl' & e' & He' & HQ').
  repeat split; try congruence.
  exists (e ++ e'). split.
  - rewrite He', He, app_assoc. reflexivity.
  - apply Forall_app. split; assumption.
Qed.



Lemma safe_keeps L T (c : prog T) : safe L c -> keeps L c.
Proof.
  intros H m x m' Hm Hc. destruct (H m Hm) as (y & m2 & Hc' & Hf).
  rewrite Hc in Hc'. injection Hc' as -> ->. exact Hf.
Qed.

Lemma safe_ret L T (x : T) : safe L (ret x).
Proof. intros m _. exists x, m. split; [reflexivity|apply frame_refl]. Qed.

Lemma safe_bind L T U (c : prog T) (k : T -> prog U) :
  safe L c -> (forall x, safe L (k x)) -> safe L (bind c k).
Proof.
  intros Hc Hk m Hm. destruct (Hc m Hm) as (x & m1 & E1 & F1).
  assert (Hm1 : live m1 = L) by (destruct F1 as (_ & -> & _); exact Hm).
  destruct (Hk x m1 Hm1) as (y & m2 & E2 & F2).
  exists y, m2. split; [|eapply frame_trans; eassumption].
  unfold bind. rewrite E1. exact E2.
Qed.

Lemma keeps_bind L T U (c : prog T) (k : T -> prog U) :
  keeps L c -> (forall x, keeps L (k x)) -> keeps L (bind c k).
Proof.
  intros Hc Hk m y m2 Hm E. unfold bind in E.
  destruct (c m) as [x m1| |] eqn:E1; try discriminate.
  pose proof (Hc m x m1 Hm E1) as F1.
  assert (Hm1 : live m1 = L) by (destruct F1 as (_ & -> & _); exact Hm).
  eapply frame_trans; [exact F1|]. eapply Hk; eassumption.
Qed.

Lemma keeps_ret L T (x : T) : keeps L (ret x).
Proof. apply safe_keeps, safe_ret. Qed.

Lemma safe_load L u : In u L -> safe L (load A V V_eqb u).
Proof.
  intros Hu m Hm. unfold load.
  destruct (lookup_live u (vars m)) as (c & ->).
  { fold (live m). rewrite Hm. exact Hu. }
  exists (c_val c), m. split; [reflexivity|apply frame_refl].
Qed.

Lemma safe_store L r f : In r L -> safe L (store A V V_eqb r f).
Proof.
  intros Hr m Hm. unfold store.
  destruct (lookup_live r (vars m)) as (c & ->).
  { fold (live m). rewrite Hm. exact Hr. }
  eexists tt, _. split; [reflexivity|].
  destruct m as [dp vs tr ls kr]. repeat split; simpl.
  - unfold live. simpl. apply assign_live.
  - exists []. split; [symmetry; apply app_nil_r|constructor].
Qed.

Lemma safe_for_loop L body n i :
  (forall j, safe L (body j)) -> safe L (for_loop A V n i body).
Proof.
  intros Hb. revert i. induction n as [|n IH]; intros i; simpl.
  - apply safe_ret.
  - apply safe_bind; [apply Hb|]. intros _. apply IH.
Qed.

End MachineFacts.

(** Running one statement after another. *)
Lemma bind_done {S T U} (c : M S T) (k : T -> M S U) s x s' :
  c s = Done x s' -> bind c k s = k x s'.
Proof. intros H. unfold bind. rewrite H. reflexivity. Qed.

Lemma bind_timeout {S T U} (c : M S T) (k : T -> M S U) s :
  c s = Timeout -> bind c k s = Timeout.
Proof. intros H. unfold bind. rewrite H. reflexivity. Qed.

(** The statements that touch [mpf_t] variables only. *)
Ltac head_of c :=
  lazymatch c with
  | ?f _ => head_of f
  | _ => constr:(c)
  end.

Ltac safe_op E :=
  lazymatch goal with
  | |- safe _ _ _ _ (bind _ _) =>
      apply safe_bind; [safe_op E | intros ?; safe_op E]
  | |- safe _ _ _ _ (ret _) => apply safe_ret
  | |- safe _ _ _ _ (load _ _ _ _) =>
      apply (safe_load _ _ _ E); simpl; tauto
  | |- safe _ _ _ _ (store _ _ _ _ _) =>
      apply (safe_store _ _ _ E); simpl; tauto
  | |- safe _ _ _ _ (for_loop _ _ _ _ _) =>
      apply safe_for_loop; intros ?; safe_op E
  | |- safe _ _ _ _ (if ?b then _ else _) => destruct b; safe_op E
  | |- safe _ _ _ _ ?c =>
      let h := head_of c in unfold h; safe_op E
  end.

(** A machine whose live variables are known, spelled out. *)
Ltac explode_machine m H :=
  destruct m as [?dp ?vs ?tr ?ls ?kr]; unfold live in H; simpl in H;
  repeat (let v := fresh "v" in let c := fresh "c" in
          destruct vs as [|[v c] vs]; [discriminate H|];
          simpl in H; injection H as -> H);
  destruct vs; [clear H|discriminate H].

(** ** Facts on the string processing *)

Section StringFacts.

Local Open Scope string_scope.

Lemma str_take_app n ip rest :
  (String.length ip <= n)%nat ->
  str_take n (ip ++ rest) = ip ++ str_take (n - String.length ip) rest.
Proof.
  revert n. induction ip as [|c ip IH]; intros n Hn; simpl in *.
  - rewrite Nat.sub_0_r. reflexivity.
  - destruct n as [|n]; [lia|]. simpl. rewrite IH by lia. reflexivity.
Qed.

Lemma str_take_take n k s :
  (n <= k)%nat -> str_take n (str_take k s) = str_take n s.
Proof.
  revert k s. induction n as [|n IH]; intros k s Hk; [reflexivity|].
  destruct k as [|k]; [lia|]. destruct s as [|c s]; [reflexivity|].
  simpl. rewrite IH by lia. reflexivity.
Qed.

Lemma str_take_length n s :
  (n <= String.length s)%nat -> String.length (str_take n s) = n.
Proof.
  revert s. induction n as [|n IH]; intros s Hn; [reflexivity|].
  destruct s as [|c s]; simpl in *; [lia|]. rewrite IH by lia. reflexivity.
Qed.

Lemma all_digits_take n s :
  all_digits s = true -> all_digits (str_take n s) = true.
Proof.
  revert s. induction n as [|n IH]; intros s Hs; [reflexivity|].
  destruct s as [|c s]; [reflexivity|]. simpl in *.
  apply andb_true_iff in Hs. destruct Hs as [Hc Hs].
  rewrite Hc, IH by exact Hs. reflexivity.
Qed.

Lemma is_digit_not_point c : is_digit c = true -> Ascii.eqb c "." = false.
Proof.
  intros H. destruct (Ascii.eqb_spec c ".") as [->|]; [|reflexivity].
  discriminate H.
Qed.

(** A string of digits holds no point. *)
Lemma strchr_digits s : all_digits s = true -> strchr s "." = None.
Proof.
  induction s as [|c s IH]; intros H; [reflexivity|]. simpl in *.
  apply andb_true_iff in H. destruct H as [Hc Hs].
  rewrite (is_digit_not_point c Hc). apply IH, Hs.
Qed.

Lemma strchr_app ip rest :
  strchr ip "." = None ->
  strchr (ip ++ String "." rest) "." = Some (String "." rest).
Proof.
  induction ip as [|c ip IH]; intros H; simpl in *; [reflexivity|].
  destruct (Ascii.eqb c "."); [discriminate H|]. apply IH, H.
Qed.

(** Without a point in the buffer the guard [if (dot)] skips the
    processing: the caller gets the text as it was rendered. *)
Lemma extract_digits_no_point D rendered :
  strchr (gmp_snprintf (u64 (D + 10)) rendered) "." = None ->
  extract_digits D rendered = gmp_snprintf (u64 (D + 10)) rendered.
Proof. intros H. unfold extract_digits. rewrite H. reflexivity. Qed.

(** With an integer part of at most eight characters in front of the
    point and [D + 1] characters behind it, the processing returns the
    first [D] characters behind the point. *)
Lemma extract_digits_point D ip fr :
  1 <= D <= MAX_DIGITS ->
  strchr ip "." = None ->
  (String.length ip <= 8)%nat ->
  String.length fr = Z.to_nat (D + 1) ->
  extract_digits D (ip ++ String "." fr) = str_take (Z.to_nat D) fr.
Proof.
  unfold MAX_DIGITS. intros HD Hip Hlen Hfr.
  unfold extract_digits, gmp_snprintf, u64, terminate_at.
  rewrite Z.mod_small by lia.
  rewrite str_take_app by lia.
  replace (Z.to_nat (D + 10 - 1) - String.length ip)%nat
    with (S (Z.to_nat (D + 8) - String.length ip))%nat by lia.
  simpl str_take. rewrite strchr_app by exact Hip.
  simpl memmove_after. apply str_take_take. lia.
Qed.

End StringFacts.

(** ** Facts on the series program *)

Module SeriesFacts.
Import Series.

Lemma series_var_eqb_eq v w : var_eqb v w = true <-> v = w.
Proof. destruct v, w; simpl; split; (reflexivity || discriminate). Qed.


Section Generic.

Variable A : Arith.

Lemma series_init_all_spec (m : machine A var) :
  vars m = [] ->
  init_all A m =
  Done tt {| default_prec := default_prec m;
             vars := map (fun v => (v, Cell (default_prec m) (fzero A)))
                         all_vars;
             trace := trace m ++ map EvInit all_vars;
             last_shown := last_shown m;
             keep_running := keep_running m |}.
Proof.
  destruct m as [dp vs tr ls kr]. simpl. intros ->.
  unfold init_all, bind, mpf_init. cbn.
  rewrite <- !app_assoc. reflexivity.
Qed.

Lemma series_clear_all_spec (m : machine A var) :
  live m = all_vars ->
  clear_all A m =
  Done tt {| default_prec := default_prec m;
             vars := [];
             trace := trace m ++ map EvClear all_vars;
             last_shown := last_shown m;
             keep_running := keep_running m |}.
Proof.
  intros H. explode_machine m H.
  unfold clear_all, bind, mpf_clear. cbn.
  rewrite <- !app_assoc. reflexivity.
Qed.

Lemma kernel_safe D : safe A var silent all_vars (kernel A D).
Proof.
  safe_op series_var_eqb_eq.
Qed.

(** The numeric phase always runs to its end. *)
Lemma numeric_phase_spec D (m : machine A var) :
  vars m = [] ->
  exists m1,
    numeric_phase A D m = Done tt m1 /\
    default_prec m1 = working_precision D /\
    live m1 = all_vars /\
    trace m1 =
      trace m ++ EvSetPrec (working_precision D) :: map EvInit all_vars.
Proof.
  intros Hm. unfold numeric_phase.
  generalize (working_precision D) as bits. intros bits.
  destruct m as [dp vs tr ls kr]. simpl in Hm. subst vs.
  set (m0 := Machine A var bits [] (tr ++ [EvSetPrec bits]) ls kr).
  assert (E0 : mpf_set_default_prec A var bits
                 (Machine A var dp [] tr ls kr) = Done tt m0)
    by reflexivity.
  rewrite (bind_done _ _ _ _ _ E0).
  rewrite (bind_done _ _ _ _ _ (series_init_all_spec m0 eq_refl)).
  match goal with |- context [kernel A D ?m] => set (m1 := m) end.
  destruct (kernel_safe D m1 eq_refl) as ([] & m2 & E2 & Hp & Hl & ex & He & Hex).
  exists m2. split; [exact E2|]. split; [exact Hp|]. split; [exact Hl|].
  destruct ex as [|e ex].
  - rewrite He, app_nil_r. unfold m1, m0. simpl.
    rewrite <- app_assoc. reflexivity.
  - inversion Hex as [|? ? F]. destruct F.
Qed.

End Generic.

Section Call.

Variable P : Provider.
Variable E : env.


(** What a call with an admissible digit count and a non-null
    out-pointer does. *)
Lemma series_call_spec D (m : machine P var) :
  1 <= D <= MAX_DIGITS -> vars m = [] ->
  exists v m',
    pi_value P D m = Some v /\
    calculate_pi_digits P E D true m =
      Done (if malloc_ok E
            then (D, Buffer (extract_digits D (fprint P (to_int D + 1) v)))
            else (0, Null)) m' /\
    vars m' = [] /\
    default_prec m' = working_precision D /\
    trace m' = trace m ++ call_trace E D.
Proof.
  unfold MAX_DIGITS. intros HD Hm.
  destruct (numeric_phase_spec P D m Hm) as (m1 & E1 & Hp & Hl & Ht).
  destruct (safe_load P var var_eqb series_var_eqb_eq silent all_vars pi
              (or_introl eq_refl) m1 Hl) as (v & m1' & Ev & _).
  assert (m1' = m1).
  { unfold load in Ev. destruct (lookup P var var_eqb pi (vars m1));
      [injection Ev as _ <-; reflexivity|discriminate]. }
  subst m1'.
  unfold pi_value, calculate_pi_digits.
  replace (negb true || (D <=? 0) || (MAX_DIGITS <? D)) with false
    by (unfold MAX_DIGITS; symmetry; apply orb_false_iff; split;
        [apply Z.leb_gt|apply Z.ltb_ge]; lia).
  cbv iota.
  rewrite !(bind_done _ _ _ _ _ E1), Ev.
  unfold extract_phase, malloc, u64.
  rewrite Z.mod_small by lia.
  unfold bind at 1.
  set (m2 := log P var (EvMalloc (D + 10) (malloc_ok E)) m1).
  assert (Hl2 : live m2 = all_vars).
  { unfold m2. destruct m1. exact Hl. }
  assert (Ev2 : load P var var_eqb pi m2 = Done v m2).
  { unfold m2. destruct m1. unfold load in *. simpl in *.
    destruct (lookup P var var_eqb pi vars0); [|discriminate].
    injection Ev as ->. reflexivity. }
  exists v.
  eexists. split; [reflexivity|]. split.
  - destruct (malloc_ok E); cbn [negb]; cbv beta iota.
    + rewrite (bind_done _ _ _ _ _ Ev2).
      rewrite (bind_done _ _ _ _ _ (series_clear_all_spec P m2 Hl2)). reflexivity.
    + rewrite (bind_done _ _ _ _ _ (series_clear_all_spec P m2 Hl2)). reflexivity.
  - unfold m2. destruct m1 as [dp1 vs1 tr1 ls1 kr1]. simpl in *.
    split; [reflexivity|]. split; [exact Hp|].
    rewrite Ht. unfold call_trace. rewrite <- !app_assoc. reflexivity.
Qed.

End Call.

End SeriesFacts.

(** ** Facts on the iterative program *)

Module IterativeFacts.
Import Iterative IterativeShape.

Lemma iterative_var_eqb_eq v w : var_eqb v w = true <-> v = w.
Proof. destruct v, w; simpl; split; (reflexivity || discriminate). Qed.


Section Generic.

Variable A : Arith.
Variable E : env.

Lemma iterative_init_all_spec (m : machine A var) :
  vars m = [] ->
  init_all A m =
  Done tt {| default_prec := default_prec m;
             vars := map (fun v => (v, Cell (default_prec m) (fzero A)))
                         all_vars;
             trace := trace m ++ map EvInit all_vars;
             last_shown := last_shown m;
             keep_running := keep_running m |}.
Proof.
  destruct m as [dp vs tr ls kr]. simpl. intros ->.
  unfold init_all, bind, mpf_init. cbn.
  rewrite <- !app_assoc. reflexivity.
Qed.

Lemma iterative_clear_all_spec (m : machine A var) :
  live m = all_vars ->
  clear_all A m =
  Done tt {| default_prec := default_prec m;
             vars := [];
             trace := trace m ++ map EvClear all_vars;
             last_shown := last_shown m;
             keep_running := keep_running m |}.
Proof.
  intros H. explode_machine m H.
  unfold clear_all, bind, mpf_clear. cbn.
  rewrite <- !app_assoc. reflexivity.
Qed.

(** The handler and the progress report leave the variables alone. *)
Lemma deliver_shape k dp vs tr ls kr :
  exists chat kr',
    Forall chatter chat /\
    deliver A E k (Machine A var dp vs tr ls kr) =
    Done tt (Machine A var dp vs (tr ++ chat) ls kr').
Proof.
  unfold deliver, signal_handler. destruct (sigint_round E k).
  - exists [EvSigint], false. split; [repeat constructor|reflexivity].
  - exists [], kr. split; [constructor|]. rewrite app_nil_r. reflexivity.
Qed.

Lemma progress_scan_shape D est fuel k dp vs tr ls kr :
  0 <= D <= MAX_DIGITS -> 7 <= k -> (Z.to_nat (24 - k) < fuel)%nat ->
  exists chat ls',
    Forall chatter chat /\
    progress_scan A fuel D est (2 ^ k) (Machine A var dp vs tr ls kr) =
    Done tt (Machine A var dp vs (tr ++ chat) ls' kr).
Proof.
  unfold MAX_DIGITS. intros HD. revert k.
  induction fuel as [|fuel IH]; intros k Hk Hf; [lia|].
  simpl.
  destruct ((2 ^ k <=? D) && (2 ^ k <=? est)) eqn:C.
  - apply andb_true_iff in C. destruct C as [C _].
    apply Z.leb_le in C.
    assert (k < 24).
    { apply Z.nle_gt. intros Hge.
      assert (2 ^ 24 <= 2 ^ k) by (apply Z.pow_le_mono_r; lia). lia. }
    match goal with |- context [if ?c then _ else _] => destruct c end.
    + exists [EvProgress (2 ^ k)], (2 ^ k).
      split; [repeat constructor|reflexivity].
    + assert (Hw : u64 (2 ^ k * 2) = 2 ^ (k + 1)).
      { unfold u64. rewrite Z.pow_add_r, Z.pow_1_r by lia.
        apply Z.mod_small. split; [apply Z.mul_nonneg_nonneg; lia|].
        assert (2 ^ k <= 2 ^ 23) by (apply Z.pow_le_mono_r; lia). lia. }
      rewrite Hw. apply IH; lia.
  - exists [], ls. split; [constructor|]. rewrite app_nil_r. reflexivity.
Qed.

Lemma progress_shape D k dp vs tr ls kr :
  0 <= D <= MAX_DIGITS ->
  exists chat ls',
    Forall chatter chat /\
    progress A D k (Machine A var dp vs tr ls kr) =
    Done tt (Machine A var dp vs (tr ++ chat) ls' kr).
Proof.
  intros HD. unfold progress. destruct (k mod 10 =? 0).
  - apply (progress_scan_shape D _ 64 7); [exact HD|lia|simpl; lia].
  - exists [], ls. split; [constructor|]. rewrite app_nil_r. reflexivity.
Qed.

Lemma deliver_safe L k : safe A var chatter L (deliver A E k).
Proof.
  intros [dp vs tr ls kr] _.
  destruct (deliver_shape k dp vs tr ls kr) as (chat & kr' & Hc & ->).
  eexists tt, _. split; [reflexivity|]. repeat split.
  exists chat. split; [reflexivity|exact Hc].
Qed.

Lemma progress_safe L D k :
  0 <= D <= MAX_DIGITS -> safe A var chatter L (progress A D k).
Proof.
  intros HD [dp vs tr ls kr] _.
  destruct (progress_shape D k dp vs tr ls kr HD) as (chat & ls' & Hc & ->).
  eexists tt, _. split; [reflexivity|]. repeat split.
  exists chat. split; [reflexivity|exact Hc].
Qed.

Lemma set_initial_safe : safe A var chatter all_vars (set_initial A).
Proof. safe_op iterative_var_eqb_eq. Qed.

Lemma round_safe : safe A var chatter all_vars (round A).
Proof. safe_op iterative_var_eqb_eq. Qed.

Lemma update_safe : safe A var chatter all_vars (update A).
Proof. safe_op iterative_var_eqb_eq. Qed.

Lemma finish_safe : safe A var chatter all_vars (finish A).
Proof. safe_op iterative_var_eqb_eq. Qed.

Lemma cmp_safe d : safe A var chatter all_vars (mpf_cmp_d A var var_eqb temp1 d).
Proof. safe_op iterative_var_eqb_eq. Qed.

(** Whenever the loop ends, it has stayed within the frame. *)
Lemma loop_keeps D fuel k :
  0 <= D <= MAX_DIGITS ->
  keeps A var chatter all_vars (loop A E fuel D k).
Proof.
  intros HD. revert k. induction fuel as [|fuel IH]; intros k.
  - intros m x m' _ H. discriminate H.
  - simpl. apply keeps_bind; [apply safe_keeps, deliver_safe|]. intros _.
    apply keeps_bind; [apply safe_keeps, round_safe|]. intros _.
    apply keeps_bind; [apply safe_keeps, cmp_safe|]. intros c.
    destruct (c <? 0); [apply keeps_ret|].
    apply keeps_bind; [apply safe_keeps, progress_safe, HD|]. intros _.
    apply keeps_bind; [apply safe_keeps, update_safe|]. intros _.
    apply IH.
Qed.

(** If the numeric phase ends, all ten variables are live, the
    precision is the planned one, and the trace holds the
    acquisitions followed by what the loop printed. *)
Lemma numeric_phase_keeps fuel D (m m1 : machine A var) :
  0 <= D <= MAX_DIGITS -> vars m = [] ->
  numeric_phase A E fuel D m = Done tt m1 ->
  default_prec m1 = working_precision D /\
  live m1 = all_vars /\
  exists chat,
    Forall chatter chat /\
    trace m1 =
      trace m ++ EvSetPrec (working_precision D) :: map EvInit all_vars
              ++ chat.
Proof.
  intros HD Hm. unfold numeric_phase.
  generalize (working_precision D) as bits. intros bits.
  destruct m as [dp vs tr ls kr]. simpl in Hm. subst vs.
  set (m0 := Machine A var bits [] (tr ++ [EvSetPrec bits]) ls kr).
  assert (E0 : mpf_set_default_prec A var bits
                 (Machine A var dp [] tr ls kr) = Done tt m0)
    by reflexivity.
  rewrite (bind_done _ _ _ _ _ E0).
  rewrite (bind_done _ _ _ _ _ (iterative_init_all_spec m0 eq_refl)).
  match goal with |- context [bind (set_initial A) _ ?m] => set (m2 := m) end.
  intros H.
  assert (K : keeps A var chatter all_vars
                (bind (set_initial A)
                   (fun _ => bind (loop A E fuel D 0) (fun _ => finish A)))).
  { apply keeps_bind; [apply safe_keeps, set_initial_safe|]. intros _.
    apply keeps_bind; [apply loop_keeps, HD|]. intros _.
    apply safe_keeps, finish_safe. }
  destruct (K m2 tt m1 eq_refl H) as (Hp & Hl & chat & Ht & Hc).
  split; [exact Hp|]. split; [exact Hl|].
  exists chat. split; [exact Hc|].
  rewrite Ht. unfold m2, m0. simpl. rewrite <- !app_assoc. reflexivity.
Qed.

(** *** The loop, value by value *)

Variable bits : Z.

Local Abbreviation state := (IterativeSpec.state A).
Local Abbreviation next := (IterativeSpec.next A bits).
Local Abbreviation carry := (IterativeSpec.carry A bits).
Local Abbreviation close_enough := (IterativeSpec.close_enough A bits).
Local Abbreviation store10 := (store10 A bits).
Local Abbreviation from := (from A bits).



Lemma from_succ n s : from (S n) s = carry (next (from n s)).
Proof.
  revert s. induction n as [|n IH]; intros s; [reflexivity|].
  change (from (S (S n)) s) with (from (S n) (carry (next s))).
  rewrite IH. reflexivity.
Qed.

Lemma after_from n :
  IterativeSpec.after A bits n = from n (IterativeSpec.initial A bits).
Proof.
  induction n as [|n IH]; [reflexivity|].
  rewrite from_succ, <- IH. reflexivity.
Qed.

(** The statements of one round compute [next]; [p] is doubled in
    place, the old [a], [b], [t] are still there. *)
Lemma round_spec s an bn tn pi' t1 t2 dp tr ls kr :
  exists t2',
    round A (Machine A var dp (store10 s an bn tn pi' t1 t2) tr ls kr) =
    Done tt
      (Machine A var dp
         (store10
            (IterativeSpec.State A (IterativeSpec.sa A s)
               (IterativeSpec.sb A s) (IterativeSpec.st A s)
               (IterativeSpec.sp A (next s)))
            (IterativeSpec.sa A (next s)) (IterativeSpec.sb A (next s))
            (IterativeSpec.st A (next s)) pi'
            (fabs A bits
               (fsub A bits (IterativeSpec.sa A (next s))
                  (IterativeSpec.sb A (next s))))
            t2')
         tr ls kr).
Proof. eexists. reflexivity. Qed.

Lemma update_spec s an bn tn pi' t1 t2 dp tr ls kr :
  update A (Machine A var dp (store10 s an bn tn pi' t1 t2) tr ls kr) =
  Done tt
    (Machine A var dp
       (store10
          (IterativeSpec.State A (fset A bits an) (fset A bits bn)
             (fset A bits tn) (IterativeSpec.sp A s))
          an bn tn pi' t1 t2)
       tr ls kr).
Proof. reflexivity. Qed.

Lemma cmp_spec d s an bn tn pi' t1 t2 dp tr ls kr :
  mpf_cmp_d A var var_eqb temp1 d
    (Machine A var dp (store10 s an bn tn pi' t1 t2) tr ls kr) =
  Done (fcmp_d A t1 d)
    (Machine A var dp (store10 s an bn tn pi' t1 t2) tr ls kr).
Proof. reflexivity. Qed.

Lemma finish_spec s an bn tn pi' t1 t2 dp tr ls kr :
  exists t1' t2',
    finish A (Machine A var dp (store10 s an bn tn pi' t1 t2) tr ls kr) =
    Done tt
      (Machine A var dp
         (store10 s an bn tn (IterativeSpec.final A bits s) t1' t2')
         tr ls kr).
Proof. do 2 eexists. reflexivity. Qed.

(** One round of the loop, opened up. *)
Lemma loop_step D fuel k s an bn tn pi' t1 t2 dp tr ls kr :
  0 <= D <= MAX_DIGITS ->
  exists an' bn' tn' t1' t2' tr' ls' kr',
    loop A E (S fuel) D k
      (Machine A var dp (store10 s an bn tn pi' t1 t2) tr ls kr) =
    if close_enough (next s) then
      Done tt
        (Machine A var dp
           (store10
              (IterativeSpec.State A (IterativeSpec.sa A s)
                 (IterativeSpec.sb A s) (IterativeSpec.st A s)
                 (IterativeSpec.sp A (next s)))
              an' bn' tn' pi' t1' t2')
           tr' ls kr')
    else
      loop A E fuel D (u64 (k + 1))
        (Machine A var dp (store10 (carry (next s)) an' bn' tn' pi' t1' t2')
           tr' ls' kr').
Proof.
  intros HD. cbn [loop].
  destruct (deliver_shape (u64 (k + 1)) dp
              (store10 s an bn tn pi' t1 t2) tr ls kr)
    as (chat & kr' & _ & Ed).
  rewrite (bind_done _ _ _ _ _ Ed).
  destruct (round_spec s an bn tn pi' t1 t2 dp (tr ++ chat) ls kr')
    as (t2' & Er).
  rewrite (bind_done _ _ _ _ _ Er).
  rewrite (bind_done _ _ _ _ _ (cmp_spec _ _ _ _ _ _ _ _ _ _ _ _)).
  unfold IterativeSpec.close_enough.
  destruct (fcmp_d A _ Dbl.lit_1e_50 <? 0).
  - do 5 eexists. exists (tr ++ chat), ls, kr'. reflexivity.
  - match goal with
    | |- context [bind (progress A D ?i) _ (Machine _ _ ?dp0 ?vs0 ?tr0 ?ls0 ?kr0)] =>
        destruct (progress_shape D i dp0 vs0 tr0 ls0 kr0 HD)
          as (chat2 & ls' & _ & Ep)
    end.
    rewrite (bind_done _ _ _ _ _ Ep).
    rewrite (bind_done _ _ _ _ _ (update_spec _ _ _ _ _ _ _ _ _ _ _)).
    do 5 eexists. exists ((tr ++ chat) ++ chat2), ls', kr'. reflexivity.
Qed.

(** The loop leaves in round [n + 1] when the test fails [n] times and
    then holds; it is still running after [fuel] rounds when the test
    fails in each of them. *)
Lemma loop_exit D n : forall fuel k s an bn tn pi' t1 t2 dp tr ls kr,
  0 <= D <= MAX_DIGITS -> (n < fuel)%nat ->
  (forall i, (i < n)%nat -> close_enough (next (from i s)) = false) ->
  close_enough (next (from n s)) = true ->
  exists p' an' bn' tn' t1' t2' tr' ls' kr',
    loop A E fuel D k
      (Machine A var dp (store10 s an bn tn pi' t1 t2) tr ls kr) =
    Done tt
      (Machine A var dp
         (store10
            (IterativeSpec.State A (IterativeSpec.sa A (from n s))
               (IterativeSpec.sb A (from n s))
               (IterativeSpec.st A (from n s)) p')
            an' bn' tn' pi' t1' t2')
         tr' ls' kr').
Proof.
  induction n as [|n IH];
    intros fuel k s an bn tn pi' t1 t2 dp tr ls kr HD Hf Hno Hyes;
    (destruct fuel as [|fuel]; [lia|]);
    destruct (loop_step D fuel k s an bn tn pi' t1 t2 dp tr ls kr HD)
      as (an' & bn' & tn' & t1' & t2' & tr' & ls' & kr' & ->).
  - simpl in Hyes. rewrite Hyes. do 6 eexists. exists tr', ls, kr'.
    reflexivity.
  - assert (H0 : close_enough (next s) = false) by (apply (Hno 0%nat); lia).
    rewrite H0.
    apply IH; [exact HD|lia| |exact Hyes].
    intros i Hi. apply (Hno (S i)). lia.
Qed.

Lemma loop_running D fuel : forall k s an bn tn pi' t1 t2 dp tr ls kr,
  0 <= D <= MAX_DIGITS ->
  (forall i, (i < fuel)%nat -> close_enough (next (from i s)) = false) ->
  loop A E fuel D k
    (Machine A var dp (store10 s an bn tn pi' t1 t2) tr ls kr) = Timeout.
Proof.
  induction fuel as [|fuel IH];
    intros k s an bn tn pi' t1 t2 dp tr ls kr HD Hno; [reflexivity|].
  destruct (loop_step D fuel k s an bn tn pi' t1 t2 dp tr ls kr HD)
    as (an' & bn' & tn' & t1' & t2' & tr' & ls' & kr' & ->).
  assert (H0 : close_enough (next s) = false) by (apply (Hno 0%nat); lia).
  rewrite H0.
  apply IH; [exact HD|]. intros i Hi. apply (Hno (S i)). lia.
Qed.

Lemma set_initial_spec dp tr ls kr :
  set_initial A
    (Machine A var dp
       (map (fun v => (v, Cell bits (fzero A))) all_vars) tr ls kr) =
  Done tt
    (Machine A var dp
       (store10 (IterativeSpec.initial A bits) (fzero A) (fzero A)
          (fzero A) (fzero A) (fset_ui A bits 2) (fzero A))
       tr ls kr).
Proof. reflexivity. Qed.

Lemma exits_after_split n :
  IterativeSpec.exits_in_round_after A bits n = true ->
  (forall i, (i < n)%nat ->
     close_enough (next (from i (IterativeSpec.initial A bits))) = false) /\
  close_enough (next (from n (IterativeSpec.initial A bits))) = true.
Proof.
  unfold IterativeSpec.exits_in_round_after. intros H.
  apply andb_true_iff in H. destruct H as [Hno Hyes].
  rewrite after_from in Hyes. split; [|exact Hyes].
  intros i Hi. rewrite forallb_forall in Hno.
  specialize (Hno i). rewrite after_from in Hno.
  apply negb_true_iff, Hno, in_seq. lia.
Qed.

End Generic.

(** The numeric phase of a call, from a machine without live variables. *)
Lemma numeric_phase_exit A E D n fuel (m : machine A var) :
  1 <= D <= MAX_DIGITS -> vars m = [] -> (n < fuel)%nat ->
  IterativeSpec.exits_in_round_after A (working_precision D) n = true ->
  exists m1,
    numeric_phase A E fuel D m = Done tt m1 /\
    load A var var_eqb pi m1 =
      Done (IterativeSpec.final A (working_precision D)
              (IterativeSpec.after A (working_precision D) n)) m1.
Proof.
  intros HD Hm Hf Hex. unfold numeric_phase.
  revert Hex. generalize (working_precision D) as bits. intros bits Hex.
  destruct (exits_after_split A bits n Hex) as [Hno Hyes].
  destruct m as [dp vs tr ls kr]. simpl in Hm. subst vs.
  set (m0 := Machine A var bits [] (tr ++ [EvSetPrec bits]) ls kr).
  assert (E0 : mpf_set_default_prec A var bits
                 (Machine A var dp [] tr ls kr) = Done tt m0)
    by reflexivity.
  rewrite (bind_done _ _ _ _ _ E0).
  rewrite (bind_done _ _ _ _ _ (iterative_init_all_spec A m0 eq_refl)).
  unfold m0. cbn [default_prec trace last_shown keep_running].
  rewrite (bind_done _ _ _ _ _ (set_initial_spec A bits _ _ _ _)).
  edestruct (loop_exit A E bits D n fuel 0) as
    (p' & an' & bn' & tn' & t1' & t2' & tr' & ls' & kr' & El);
    [lia|exact Hf|exact Hno|exact Hyes|].
  rewrite (bind_done _ _ _ _ _ El).
  edestruct (finish_spec A bits) as (t1'' & t2'' & Ef).
  rewrite Ef. eexists. split; [reflexivity|].
  rewrite after_from. reflexivity.
Qed.

Lemma numeric_phase_running A E D n fuel (m : machine A var) :
  1 <= D <= MAX_DIGITS -> vars m = [] -> (fuel <= n)%nat ->
  IterativeSpec.exits_in_round_after A (working_precision D) n = true ->
  numeric_phase A E fuel D m = Timeout.
Proof.
  intros HD Hm Hf Hex. unfold numeric_phase.
  revert Hex. generalize (working_precision D) as bits. intros bits Hex.
  destruct (exits_after_split A bits n Hex) as [Hno _].
  destruct m as [dp vs tr ls kr]. simpl in Hm. subst vs.
  set (m0 := Machine A var bits [] (tr ++ [EvSetPrec bits]) ls kr).
  assert (E0 : mpf_set_default_prec A var bits
                 (Machine A var dp [] tr ls kr) = Done tt m0)
    by reflexivity.
  rewrite (bind_done _ _ _ _ _ E0).
  rewrite (bind_done _ _ _ _ _ (iterative_init_all_spec A m0 eq_refl)).
  unfold m0. cbn [default_prec trace last_shown keep_running].
  rewrite (bind_done _ _ _ _ _ (set_initial_spec A bits _ _ _ _)).
  apply bind_timeout. apply loop_running; [lia|].
  intros i Hi. apply Hno. lia.
Qed.

Section Call.

Variable P : Provider.
Variable E : env.


(** What a call with an admissible digit count and a non-null
    out-pointer does once its loop has ended. *)
Lemma iterative_call_spec fuel D (m m1 : machine P var) :
  1 <= D <= MAX_DIGITS -> vars m = [] ->
  numeric_phase P E fuel D m = Done tt m1 ->
  exists v m' chat,
    pi_value P E fuel D m = Some v /\
    calculate_pi_digits P E fuel D true m =
      Done (if malloc_ok E
            then (D, Buffer (extract_digits D (fprint P (to_int D + 1) v)))
            else (0, Null)) m' /\
    vars m' = [] /\
    default_prec m' = working_precision D /\
    Forall chatter chat /\
    trace m' = trace m ++ call_trace E D chat.
Proof.
  unfold MAX_DIGITS. intros HD Hm E1.
  destruct (numeric_phase_keeps P E fuel D m m1) as (Hp & Hl & chat & Hc & Ht);
    [unfold MAX_DIGITS; lia|exact Hm|exact E1|].
  destruct (safe_load P var var_eqb iterative_var_eqb_eq chatter all_vars pi) with (m := m1)
    as (v & m1' & Ev & _); [simpl; tauto|exact Hl|].
  assert (m1' = m1).
  { unfold load in Ev. destruct (lookup P var var_eqb pi (vars m1));
      [injection Ev as _ <-; reflexivity|discriminate]. }
  subst m1'.
  unfold pi_value, calculate_pi_digits.
  replace (negb true || (D <=? 0) || (MAX_DIGITS <? D)) with false
    by (unfold MAX_DIGITS; symmetry; apply orb_false_iff; split;
        [apply Z.leb_gt|apply Z.ltb_ge]; lia).
  cbv iota.
  rewrite !(bind_done _ _ _ _ _ E1), Ev.
  unfold extract_phase, malloc, u64.
  rewrite Z.mod_small by lia.
  unfold bind at 1.
  set (m2 := log P var (EvMalloc (D + 10) (malloc_ok E)) m1).
  assert (Hl2 : live m2 = all_vars).
  { unfold m2. destruct m1. exact Hl. }
  assert (Ev2 : load P var var_eqb pi m2 = Done v m2).
  { unfold m2. destruct m1. unfold load in *. simpl in *.
    destruct (lookup P var var_eqb pi vars0); [|discriminate].
    injection Ev as ->. reflexivity. }
  exists v.
  eexists. exists chat. split; [reflexivity|]. split.
  - destruct (malloc_ok E); cbn [negb]; cbv beta iota.
    + rewrite (bind_done _ _ _ _ _ Ev2).
      rewrite (bind_done _ _ _ _ _ (iterative_clear_all_spec P m2 Hl2)). reflexivity.
    + rewrite (bind_done _ _ _ _ _ (iterative_clear_all_spec P m2 Hl2)). reflexivity.
  - unfold m2. destruct m1 as [dp1 vs1 tr1 ls1 kr1]. simpl in *.
    split; [reflexivity|]. split; [exact Hp|]. split; [exact Hc|].
    rewrite Ht. unfold call_trace. rewrite <- ?app_assoc. simpl.
    rewrite <- ?app_assoc. reflexivity.
Qed.

End Call.

End IterativeFacts.

(** * The claims *)

(** ** Argument checking *)

(** C8. For [D = 0] or [D] above the maximum of 10,000,000, both programs
    return 0 and leave the machine as it was: the default precision is not
    set, no variable is initialised, nothing is added to the trace, and the
    caller's pointer is not written. *)
Theorem invalid_digit_count_rejected :
  forall (P : Provider) (E : env) (fuel : nat) (D : Z) (result : bool)
         (ms : machine P Series.var) (mi : machine P Iterative.var),
    D = 0 \/ MAX_DIGITS < D ->
    Series.calculate_pi_digits P E D result ms = Done (0, Unchanged) ms /\
    Iterative.calculate_pi_digits P E fuel D result mi = Done (0, Unchanged) mi.
Proof.
  intros P E fuel D result ms mi HD.
  unfold Series.calculate_pi_digits, Iterative.calculate_pi_digits.
  assert (G : negb result || (D <=? 0) || (MAX_DIGITS <? D) = true).
  { destruct HD as [->|HD].
    - destruct result; reflexivity.
    - apply Z.ltb_lt in HD. rewrite HD. apply orb_true_r. }
  rewrite G. split; reflexivity.
Qed.

Lemma invalid_digit_count_rejected_witness :
  Series.calculate_pi_digits Ref.provider quiet 0 true boot
    = Done (0, Unchanged) boot /\
  Iterative.calculate_pi_digits Ref.provider quiet 100 0 true boot
    = Done (0, Unchanged) boot.
Proof.
  apply (invalid_digit_count_rejected Ref.provider quiet 100 0 true boot boot).
  left. reflexivity.
Defined.

(** C10. With a null out-pointer both programs return 0 whatever the digit
    count, and leave the machine as it was: no precision is set, no
    variable is initialised, no buffer is requested. *)
Theorem null_out_pointer_rejected :
  forall (P : Provider) (E : env) (fuel : nat) (D : Z)
         (ms : machine P Series.var) (mi : machine P Iterative.var),
    Series.calculate_pi_digits P E D false ms = Done (0, Unchanged) ms /\
    Iterative.calculate_pi_digits P E fuel D false mi = Done (0, Unchanged) mi.
Proof. intros. split; reflexivity. Qed.

(** ** Allocation failure *)

Lemma series_trace_counts E D v :
  acquired Series.var Series.var_eqb v (Series.call_trace E D) = 1%nat /\
  released Series.var Series.var_eqb v (Series.call_trace E D) = 1%nat.
Proof. destruct v; split; reflexivity. Qed.

Lemma chatter_filter (f : event Iterative.var -> bool) chat :
  (forall e, Iterative.chatter e -> f e = false) ->
  Forall Iterative.chatter chat -> filter f chat = [].
Proof.
  intros Hf H. induction H as [|e chat He _ IH]; [reflexivity|].
  simpl. rewrite (Hf e He). exact IH.
Qed.

Lemma iterative_trace_counts E D chat v :
  Forall Iterative.chatter chat ->
  acquired Iterative.var Iterative.var_eqb v
    (Iterative.call_trace E D chat) = 1%nat /\
  released Iterative.var Iterative.var_eqb v
    (Iterative.call_trace E D chat) = 1%nat.
Proof.
  intros Hc. unfold acquired, released, Iterative.call_trace.
  change (EvSetPrec (working_precision D) :: map EvInit Iterative.all_vars
          ++ chat ++ EvMalloc (D + 10) (malloc_ok E)
             :: map EvClear Iterative.all_vars)
    with ((EvSetPrec (working_precision D) :: map EvInit Iterative.all_vars)
          ++ chat ++ EvMalloc (D + 10) (malloc_ok E)
             :: map EvClear Iterative.all_vars).
  rewrite !filter_app, !length_app.
  rewrite !(chatter_filter _ chat) by
    (try exact Hc; intros [] He; (reflexivity || destruct He)).
  destruct v; split; reflexivity.
Qed.

(** C9. When the [malloc] of the output buffer fails, the call returns 0
    with a null pointer, no [mpf_t] variable is live any more, and the
    events of the call acquire and release each variable exactly once.
    The series program always gets to the [malloc]; the iterative program
    gets there when its loop has ended. *)
Theorem allocation_failure_releases_everything :
  forall (P : Provider) (E : env) (D : Z),
    1 <= D <= MAX_DIGITS -> malloc_ok E = false ->
    (forall ms : machine P Series.var,
        vars ms = [] ->
        exists ms' new,
          Series.calculate_pi_digits P E D true ms = Done (0, Null) ms' /\
          vars ms' = [] /\ trace ms' = trace ms ++ new /\
          forall v, acquired _ Series.var_eqb v new = 1%nat /\
                    released _ Series.var_eqb v new = 1%nat) /\
    (forall (fuel : nat) (mi : machine P Iterative.var),
        vars mi = [] ->
        observe (Iterative.numeric_phase P E fuel D mi) = Returned tt ->
        exists mi' new,
          Iterative.calculate_pi_digits P E fuel D true mi = Done (0, Null) mi' /\
          vars mi' = [] /\ trace mi' = trace mi ++ new /\
          forall v, acquired _ Iterative.var_eqb v new = 1%nat /\
                    released _ Iterative.var_eqb v new = 1%nat).
Proof.
  intros P E D HD Hmalloc. split.
  - intros ms Hms.
    destruct (SeriesFacts.series_call_spec P E D ms HD Hms)
      as (v & ms' & _ & Hc & Hv & _ & Ht).
    rewrite Hmalloc in Hc.
    exists ms', (Series.call_trace E D).
    repeat split; try assumption; apply series_trace_counts.
  - intros fuel mi Hmi Hnum.
    destruct (Iterative.numeric_phase P E fuel D mi) as [[] m1| |] eqn:Hrun;
      try discriminate Hnum.
    destruct (IterativeFacts.iterative_call_spec P E fuel D mi m1 HD Hmi Hrun)
      as (v & mi' & chat & _ & Hc & Hv & _ & Hchat & Ht).
    rewrite Hmalloc in Hc.
    exists mi', (Iterative.call_trace E D chat).
    repeat split; try assumption; apply iterative_trace_counts, Hchat.
Qed.

Lemma allocation_failure_releases_everything_witness :
  (exists ms' new,
      Series.calculate_pi_digits Ref.provider no_memory 20 true boot
        = Done (0, Null) ms' /\
      vars ms' = [] /\ trace ms' = new /\
      forall v, acquired _ Series.var_eqb v new = 1%nat /\
                released _ Series.var_eqb v new = 1%nat) /\
  (exists mi' new,
      Iterative.calculate_pi_digits Ref.provider no_memory 100 20 true boot
        = Done (0, Null) mi' /\
      vars mi' = [] /\ trace mi' = new /\
      forall v, acquired _ Iterative.var_eqb v new = 1%nat /\
                released _ Iterative.var_eqb v new = 1%nat).
Proof.
  destruct (allocation_failure_releases_everything Ref.provider no_memory 20)
    as [Hs Hi]; [unfold MAX_DIGITS; lia|reflexivity|].
  split.
  - apply (Hs boot). reflexivity.
  - apply (Hi 100%nat boot); [reflexivity|].
    vm_compute. reflexivity.
Defined.

(** ** Digit extraction *)

(** A call whose rendering is an integer part of at most eight characters,
    a point and [D + 1] further characters returns the first [D] of
    these. *)
Lemma series_returns_cut (P : Provider) (E : env) (D : Z) (ip fr : string)
      (ms : machine P Series.var) :
  1 <= D <= MAX_DIGITS -> malloc_ok E = true ->
  strchr ip "." = None -> (String.length ip <= 8)%nat ->
  String.length fr = Z.to_nat (D + 1) ->
  vars ms = [] ->
  Series.rendered P D ms = Some (ip ++ String "." fr)%string ->
  observe (Series.calculate_pi_digits P E D true ms)
  = Returned (D, Buffer (str_take (Z.to_nat D) fr)).
Proof.
  intros HD Hmalloc Hip Hlen Hfr Hms Hr.
  destruct (SeriesFacts.series_call_spec P E D ms HD Hms)
    as (v & ms' & Hv & Hc & _).
  unfold Series.rendered in Hr. rewrite Hv in Hr. simpl in Hr.
  injection Hr as Hr. rewrite Hc, Hmalloc, Hr. simpl.
  rewrite extract_digits_point by assumption. reflexivity.
Qed.

Lemma iterative_returns_cut (P : Provider) (E : env) (fuel : nat) (D : Z)
      (ip fr : string) (mi : machine P Iterative.var) :
  1 <= D <= MAX_DIGITS -> malloc_ok E = true ->
  strchr ip "." = None -> (String.length ip <= 8)%nat ->
  String.length fr = Z.to_nat (D + 1) ->
  vars mi = [] ->
  Iterative.rendered P E fuel D mi = Some (ip ++ String "." fr)%string ->
  observe (Iterative.calculate_pi_digits P E fuel D true mi)
  = Returned (D, Buffer (str_take (Z.to_nat D) fr)).
Proof.
  intros HD Hmalloc Hip Hlen Hfr Hmi Hr.
  unfold Iterative.rendered, Iterative.pi_value in Hr.
  destruct (Iterative.numeric_phase P E fuel D mi) as [[] m1| |] eqn:Hrun;
    try (unfold bind in Hr; rewrite Hrun in Hr; discriminate Hr).
  destruct (IterativeFacts.iterative_call_spec P E fuel D mi m1 HD Hmi Hrun)
    as (v & mi' & chat & Hv & Hc & _).
  unfold Iterative.pi_value in Hv.
  destruct (bind (Iterative.numeric_phase P E fuel D)
              (fun _ => load P Iterative.var Iterative.var_eqb Iterative.pi) mi)
    as [v' ?| |]; try discriminate Hv.
  injection Hv as ->. simpl in Hr. injection Hr as Hr.
  rewrite Hc, Hmalloc, Hr. simpl.
  rewrite extract_digits_point by assumption. reflexivity.
Qed.

(** What the reference provider renders for the series program. *)
Lemma series_rendering_20 :
  Series.rendered Ref.provider 20 boot = Some "3.141592653589793238463"%string.
Proof. vm_compute. reflexivity. Qed.

Lemma series_rendering_84 :
  Series.rendered Ref.provider 84 boot
  = Some "3.1415926535897932384626433832795028841971693993751058209749445923078164062862089986280"%string.
Proof. vm_compute. reflexivity. Qed.



(** The rendering is to the nearest decimal of [D + 1] digits, as [printf]
    does for ["%f"]; the cut to [D] characters then keeps a carry that
    reached digit [D].  With 11 digits the string ends in [...359], where
    the expansion of pi goes on [...358|979]. *)
Lemma cut_keeps_carry_at_11_digits :
  observe (Iterative.calculate_pi_digits Ref.provider quiet 100 11 true boot)
    = Returned (11, Buffer "14159265359") /\
  Iterative.rendered Ref.provider quiet 100 11 boot
    = Some "3.141592653590"%string.
Proof. split; vm_compute; reflexivity. Qed.

(** ** The known value and the two programs side by side *)

(** C1. For 20 digits both programs return 20 and the string
    ["14159265358979323846"]. *)
Theorem known_value_20_digits :
  observe (Series.calculate_pi_digits Ref.provider quiet 20 true boot)
    = Returned (20, Buffer "14159265358979323846") /\
  observe (Iterative.calculate_pi_digits Ref.provider quiet 100 20 true boot)
    = Returned (20, Buffer "14159265358979323846").
Proof.
  split.
  - apply (series_returns_cut Ref.provider quiet 20
             "3" "141592653589793238463" boot);
      [unfold MAX_DIGITS; lia|reflexivity|reflexivity|simpl; lia
      |reflexivity|reflexivity|exact series_rendering_20].
  - vm_compute. reflexivity.
Qed.

(** C2, evaluated where it fails.  For 84 digits both programs succeed and
    return 84 characters, but the strings differ in the last digit: the
    series program ends in [...998628], the iterative program in
    [...998625]. *)
Theorem programs_differ_at_84_digits :
  observe (Series.calculate_pi_digits Ref.provider quiet 84 true boot)
    = Returned (84, Buffer
        "141592653589793238462643383279502884197169399375105820974944592307816406286208998628") /\
  observe (Iterative.calculate_pi_digits Ref.provider quiet 100 84 true boot)
    = Returned (84, Buffer
        "141592653589793238462643383279502884197169399375105820974944592307816406286208998625").
Proof.
  split.
  - apply (series_returns_cut Ref.provider quiet 84 "3"
             "1415926535897932384626433832795028841971693993751058209749445923078164062862089986280"
             boot);
      [unfold MAX_DIGITS; lia|reflexivity|reflexivity|simpl; lia
      |reflexivity|reflexivity|exact series_rendering_84].
  - vm_compute. reflexivity.
Qed.

(** ** Precision planning *)

(** C6 as stated fails.  No fixed margin of 10,000 bits or more makes the
    planned precision equal to [ceil (D * log2 10) + margin]: for one digit
    the programs ask for 10,003 bits, and [ceil (log2 10) = 4]. *)
Lemma planner_is_not_ceiling_plus_margin :
  working_precision 1 = 10003 /\
  ~ (exists margin, 10000 <= margin /\
       forall D, 1 <= D <= MAX_DIGITS ->
                 working_precision D = spec_precision margin D).
Proof.
  split; [vm_compute; reflexivity|].
  intros (margin & Hmargin & H).
  specialize (H 1 ltac:(unfold MAX_DIGITS; lia)).
  change (working_precision 1) with 10003 in H.
  change (spec_precision margin 1) with (4 + margin) in H. lia.
Qed.

(** C6, amended.  For every admissible digit count the precision handed to
    [mpf_set_default_prec] is [floor (D * 3.322) + 10000] bits, which is at
    least [ceil (D * log2 10) + 9999].  It is set before any variable is
    initialised and is the default precision when the numeric phase ends. *)
Theorem planned_precision :
  forall D : Z,
    1 <= D <= MAX_DIGITS ->
    working_precision D = D * 3322 / 1000 + 10000 /\
    spec_precision 9999 D <= working_precision D /\
    (forall (A : Arith) (ms : machine A Series.var),
        vars ms = [] ->
        exists m1,
          Series.numeric_phase A D ms = Done tt m1 /\
          default_prec m1 = D * 3322 / 1000 + 10000 /\
          trace m1 = trace ms ++ EvSetPrec (D * 3322 / 1000 + 10000)
                                :: map EvInit Series.all_vars) /\
    (forall (A : Arith) (E : env) (fuel : nat) (mi m1 : machine A Iterative.var),
        vars mi = [] ->
        Iterative.numeric_phase A E fuel D mi = Done tt m1 ->
        default_prec m1 = D * 3322 / 1000 + 10000 /\
        exists chat,
          trace m1 = trace mi ++ EvSetPrec (D * 3322 / 1000 + 10000)
                                :: map EvInit Iterative.all_vars ++ chat).
Proof.
  intros D HD.
  pose proof (DblFacts.working_precision_closed D HD) as Hw.
  split; [exact Hw|]. split; [|split].
  - rewrite Hw. unfold spec_precision.
    assert (Z.log2_up (10 ^ D) <= D * 3322 / 1000 + 1); [|lia].
    apply Z.log2_up_le_pow2.
    + apply Z.pow_pos_nonneg; lia.
    + apply DblFacts.pow10_le_pow2; [lia|].
      pose proof (Z.mul_succ_div_gt (D * 3322) 1000). lia.
  - intros A ms Hms.
    destruct (SeriesFacts.numeric_phase_spec A D ms Hms)
      as (m1 & E1 & Hp & _ & Ht).
    exists m1. rewrite <- Hw. auto.
  - intros A E fuel mi m1 Hmi Hrun.
    destruct (IterativeFacts.numeric_phase_keeps A E fuel D mi m1)
      as (Hp & _ & chat & _ & Ht); [unfold MAX_DIGITS in *; lia|assumption..|].
    rewrite <- Hw. split; [exact Hp|]. exists chat. exact Ht.
Qed.

Lemma planned_precision_witness :
  working_precision 20 = 10066 /\ spec_precision 9999 20 <= 10066.
Proof.
  destruct (planned_precision 20) as (Hw & Hs & _);
    [unfold MAX_DIGITS; lia|].
  rewrite Hw in Hs. split; [exact Hw|exact Hs].
Defined.

(** ** The iterative kernel *)

Section ExactReading.

Local Open Scope R_scope.
Variable bits : Z.

Lemma exact_initial :
  IterativeSpec.initial Exact.ops bits
  = IterativeSpec.State Exact.ops 1 (1 / sqrt 2) (1 / 4) 1.
Proof.
  unfold IterativeSpec.initial. cbn. f_equal.
  - assert (H : sqrt 2 * sqrt 2 = 2) by (apply sqrt_def; lra).
    assert (sqrt 2 <> 0) by (intros H0; rewrite H0 in H; lra).
    field_simplify_eq; [|assumption]. lra.
  - unfold Exact.dval. cbn. change (Pos.to_nat 2) with 2%nat. simpl. lra.
Qed.

Lemma exact_next a b t p :
  IterativeSpec.next Exact.ops bits (IterativeSpec.State Exact.ops a b t p)
  = IterativeSpec.State Exact.ops
      ((a + b) / 2) (sqrt (a * b))
      (t - p * ((a + b) / 2 - a) ^ 2) (2 * p).
Proof. unfold IterativeSpec.next. cbn. f_equal; ring. Qed.

Lemma exact_carry s : IterativeSpec.carry Exact.ops bits s = s.
Proof. destruct s. reflexivity. Qed.

Lemma exact_close_enough s :
  IterativeSpec.close_enough Exact.ops bits s = true <->
  Rabs (IterativeSpec.sa _ s - IterativeSpec.sb _ s)
    < Exact.dval Dbl.lit_1e_50.
Proof.
  unfold IterativeSpec.close_enough. cbn. unfold Exact.cmp_d.
  destruct (Rlt_dec _ _) as [H|H].
  - split; [intros _; exact H|reflexivity].
  - split; [|contradiction]. destruct (Rlt_dec _ _); discriminate.
Qed.

Lemma exact_final a b t p :
  IterativeSpec.final Exact.ops bits (IterativeSpec.State Exact.ops a b t p)
  = (a + b) ^ 2 / (4 * t).
Proof.
  unfold IterativeSpec.final. cbn.
  replace ((a + b) * (a + b)) with ((a + b) ^ 2) by ring.
  replace (t * 4) with (4 * t) by ring. reflexivity.
Qed.

End ExactReading.

(** ** The iterative recurrence over the reals leaves in round six *)

Section ExactExit.

Local Open Scope R_scope.
Variable bits : Z.

Local Abbreviation after := (IterativeSpec.after Exact.ops bits).
Local Abbreviation next := (IterativeSpec.next Exact.ops bits).
Local Abbreviation sa := (IterativeSpec.sa Exact.ops).
Local Abbreviation sb := (IterativeSpec.sb Exact.ops).
Local Abbreviation gap_between := (gap_between bits).

(** The gap between the two means is squared, up to a factor, by a round. *)
Lemma agm_round a b lo hi :
  7 / 10 <= b -> b <= a -> a <= 1 -> 0 <= lo -> lo <= a - b <= hi ->
  7 / 10 <= sqrt (a * b) /\ sqrt (a * b) <= (a + b) / 2 /\ (a + b) / 2 <= 1 /\
  lo ^ 2 / 8 <= (a + b) / 2 - sqrt (a * b) <= hi ^ 2 / 5.
Proof.
  intros Hb Hba Ha Hlo [Hl Hh].
  assert (Hx : sqrt (a * b) * sqrt (a * b) = a * b) by (apply sqrt_sqrt; nra).
  assert (Hx0 : 0 <= sqrt (a * b)) by apply sqrt_pos.
  set (x := sqrt (a * b)) in *.
  assert (Hbx : b <= x) by nra.
  assert (Hxa : x <= (a + b) / 2) by nra.
  assert (Hprod : ((a + b) / 2 - x) * ((a + b) / 2 + x) = (a - b) ^ 2 / 4) by nra.
  assert (Hlo2 : lo ^ 2 <= (a - b) ^ 2) by nra.
  assert (Hhi2 : (a - b) ^ 2 <= hi ^ 2) by nra.
  repeat split; try lra; nra.
Qed.

Lemma sqrt2_bounds : 141 / 100 <= sqrt 2 <= 142 / 100.
Proof.
  assert (H : sqrt 2 * sqrt 2 = 2) by (apply sqrt_sqrt; lra).
  assert (H0 : 0 <= sqrt 2) by apply sqrt_pos.
  split; nra.
Qed.

(** The threshold, the [double] nearest to [1e-50]. *)
Lemma threshold_bounds :
  / 10 ^ 51 < Exact.dval Dbl.lit_1e_50 < / 10 ^ 49.
Proof.
  unfold Exact.dval, Dbl.lit_1e_50. cbn [Dbl.dmant Dbl.dexp].
  change (powerRZ 2 (-219)) with (/ 2 ^ Pos.to_nat 219).
  rewrite !pow_IZR.
  set (p := (2 ^ Z.of_nat (Pos.to_nat 219))%Z).
  set (q51 := (10 ^ Z.of_nat 51)%Z). set (q49 := (10 ^ Z.of_nat 49)%Z).
  assert (Hp : 0 < IZR p) by (apply IZR_lt; reflexivity).
  assert (H51 : 0 < IZR q51) by (apply IZR_lt; reflexivity).
  assert (H49 : 0 < IZR q49) by (apply IZR_lt; reflexivity).
  assert (L : IZR p < IZR (8424983333484575 * q51))
    by (apply IZR_lt; reflexivity).
  assert (U : IZR (8424983333484575 * q49) < IZR p)
    by (apply IZR_lt; reflexivity).
  rewrite mult_IZR in L, U.
  split.
  - apply Rmult_lt_reg_r with (r := IZR q51 * IZR p); [nra|].
    field_simplify; lra.
  - apply Rmult_lt_reg_r with (r := IZR q49 * IZR p); [nra|].
    field_simplify; lra.
Qed.

Lemma gap_step k lo hi lo' hi' :
  gap_between k lo hi -> 0 <= lo ->
  lo' <= lo ^ 2 / 8 -> hi ^ 2 / 5 <= hi' ->
  gap_between (S k) lo' hi'.
Proof.
  intros (Hb & Hba & Ha & Hg) Hlo Hl Hh. unfold gap_between.
  change (after (S k))
    with (IterativeSpec.carry Exact.ops bits (next (after k))).
  rewrite exact_carry.
  destruct (after k) as [a b t p]. rewrite exact_next. cbn in *.
  destruct (agm_round a b lo hi Hb Hba Ha Hlo Hg) as (H1 & H2 & H3 & H4).
  repeat split; lra.
Qed.

Lemma gap_0 : gap_between 0 (29 / 100) (3 / 10).
Proof.
  unfold gap_between. cbn. pose proof sqrt2_bounds.
  repeat split; lra.
Qed.

Lemma gap_1 : gap_between 1 (/ 10 ^ 2) (2 / 10 ^ 2).
Proof. apply (gap_step _ _ _ _ _ gap_0); lra. Qed.

Lemma gap_2 : gap_between 2 (/ 10 ^ 5) (/ 10 ^ 4).
Proof. apply (gap_step _ _ _ _ _ gap_1); lra. Qed.

Lemma gap_3 : gap_between 3 (/ 10 ^ 11) (/ 10 ^ 8).
Proof. apply (gap_step _ _ _ _ _ gap_2); lra. Qed.

Lemma gap_4 : gap_between 4 (/ 10 ^ 23) (/ 10 ^ 16).
Proof. apply (gap_step _ _ _ _ _ gap_3); lra. Qed.

Lemma gap_5 : gap_between 5 (/ 10 ^ 47) (/ 10 ^ 32).
Proof. apply (gap_step _ _ _ _ _ gap_4); lra. Qed.

Lemma gap_6 : gap_between 6 0 (/ 10 ^ 64).
Proof. apply (gap_step _ _ _ _ _ gap_5); lra. Qed.

Lemma test_on_gap k lo hi :
  gap_between (S k) lo hi -> 0 <= lo ->
  (/ 10 ^ 49 <= lo ->
   IterativeSpec.close_enough Exact.ops bits (next (after k)) = false) /\
  (hi <= / 10 ^ 51 ->
   IterativeSpec.close_enough Exact.ops bits (next (after k)) = true).
Proof.
  intros (_ & _ & _ & Hg) Hlo.
  change (after (S k))
    with (IterativeSpec.carry Exact.ops bits (next (after k))) in Hg.
  rewrite exact_carry in Hg.
  pose proof threshold_bounds as Ht.
  pose proof (exact_close_enough bits (next (after k))) as Hc.
  rewrite Rabs_pos_eq in Hc by lra.
  split; intros H.
  - destruct (IterativeSpec.close_enough Exact.ops bits (next (after k)));
      [|reflexivity].
    assert (sa (next (after k)) - sb (next (after k))
            < Exact.dval Dbl.lit_1e_50) by (apply Hc; reflexivity).
    lra.
  - apply Hc. lra.
Qed.

(** Over the reals the test fails in rounds one to five and holds in round
    six, whatever the precision asked for. *)
Lemma exact_exit_round :
  IterativeSpec.exits_in_round_after Exact.ops bits 5 = true.
Proof.
  unfold IterativeSpec.exits_in_round_after.
  cbn [seq forallb].
  rewrite (proj1 (test_on_gap 0 _ _ gap_1 ltac:(lra))) by lra.
  rewrite (proj1 (test_on_gap 1 _ _ gap_2 ltac:(lra))) by lra.
  rewrite (proj1 (test_on_gap 2 _ _ gap_3 ltac:(lra))) by lra.
  rewrite (proj1 (test_on_gap 3 _ _ gap_4 ltac:(lra))) by lra.
  rewrite (proj1 (test_on_gap 4 _ _ gap_5 ltac:(lra))) by lra.
  rewrite (proj2 (test_on_gap 5 _ _ gap_6 ltac:(lra))) by lra.
  reflexivity.
Qed.

End ExactExit.



(** ** Interruption *)

Module SigintFacts.
Import Iterative Blind.

Section Blind.

Variable A : Arith.

Local Abbreviation machine := (machine A var).
Local Abbreviation same_data := (same_data A var).
Local Abbreviation agree := (agree A var).



Lemma same_data_refl m : same_data m m.
Proof. repeat split. Qed.

Lemma agree_ret T (x : T) : agree (ret x) (ret x).
Proof. intros m1 m2 H. simpl. auto. Qed.

Lemma agree_bind T U (c1 c2 : M machine T) (k1 k2 : T -> M machine U) :
  agree c1 c2 -> (forall x, agree (k1 x) (k2 x)) ->
  agree (bind c1 k1) (bind c2 k2).
Proof.
  intros Hc Hk m1 m2 H. specialize (Hc m1 m2 H). unfold bind.
  destruct (c1 m1) as [x m1'| |], (c2 m2) as [y m2'| |]; try tauto.
  destruct Hc as [<- H']. apply Hk, H'.
Qed.

Lemma agree_load u : agree (load A var var_eqb u) (load A var var_eqb u).
Proof.
  intros m1 m2 (Hp & Hv & Hl). unfold load. rewrite Hv.
  destruct (lookup A var var_eqb u (vars m2)); [|exact I].
  repeat split; assumption.
Qed.

Lemma agree_store r f :
  agree (store A var var_eqb r f) (store A var var_eqb r f).
Proof.
  intros [dp1 vs1 tr1 ls1 kr1] [dp2 vs2 tr2 ls2 kr2] (Hp & Hv & Hl).
  simpl in *. subst. unfold store. simpl.
  destruct (lookup A var var_eqb r vs2); [|exact I].
  repeat split.
Qed.

Lemma agree_init v :
  agree (mpf_init A var var_eqb v) (mpf_init A var var_eqb v).
Proof.
  intros [dp1 vs1 tr1 ls1 kr1] [dp2 vs2 tr2 ls2 kr2] (Hp & Hv & Hl).
  simpl in *. subst. unfold mpf_init. simpl.
  destruct (lookup A var var_eqb v vs2); [exact I|].
  repeat split.
Qed.

Lemma agree_clear v :
  agree (mpf_clear A var var_eqb v) (mpf_clear A var var_eqb v).
Proof.
  intros [dp1 vs1 tr1 ls1 kr1] [dp2 vs2 tr2 ls2 kr2] (Hp & Hv & Hl).
  simpl in *. subst. unfold mpf_clear. simpl.
  destruct (lookup A var var_eqb v vs2); [|exact I].
  repeat split.
Qed.

Lemma agree_set_prec bits :
  agree (mpf_set_default_prec A var bits) (mpf_set_default_prec A var bits).
Proof.
  intros [dp1 vs1 tr1 ls1 kr1] [dp2 vs2 tr2 ls2 kr2] (Hp & Hv & Hl).
  simpl in *. subst. repeat split.
Qed.

Lemma agree_malloc E size :
  agree (malloc A var E size) (malloc A var (hush E) size).
Proof.
  intros [dp1 vs1 tr1 ls1 kr1] [dp2 vs2 tr2 ls2 kr2] (Hp & Hv & Hl).
  simpl in *. subst. repeat split.
Qed.

(** The handler writes the flag and the trace only. *)
Lemma agree_deliver E k : agree (deliver A E k) (deliver A (hush E) k).
Proof.
  intros [dp1 vs1 tr1 ls1 kr1] [dp2 vs2 tr2 ls2 kr2] (Hp & Hv & Hl).
  simpl in *. subst. unfold deliver. simpl.
  destruct (sigint_round E k); repeat split.
Qed.

Lemma agree_progress_scan fuel D est : forall pw,
  agree (progress_scan A fuel D est pw) (progress_scan A fuel D est pw).
Proof.
  induction fuel as [|fuel IH]; intros pw;
    intros [dp1 vs1 tr1 ls1 kr1] [dp2 vs2 tr2 ls2 kr2] (Hp & Hv & Hl);
    simpl in *; [exact I|]. subst.
  destruct ((pw <=? D) && (pw <=? est)); [|repeat split]. cbn.
  destruct ((pw <=? est) && (est <? u64 (pw * 2)) && negb (pw =? ls2)).
  - repeat split.
  - apply IH. repeat split.
Qed.

End Blind.

End SigintFacts.

Ltac agree_op :=
  lazymatch goal with
  | |- Blind.agree _ _ (bind _ _) (bind _ _) =>
      apply SigintFacts.agree_bind; [agree_op | intros ?; agree_op]
  | |- Blind.agree _ _ (ret _) (ret _) => apply SigintFacts.agree_ret
  | |- Blind.agree _ _ (load _ _ _ _) _ => apply SigintFacts.agree_load
  | |- Blind.agree _ _ (store _ _ _ _ _) _ => apply SigintFacts.agree_store
  | |- Blind.agree _ _ (mpf_init _ _ _ _) _ => apply SigintFacts.agree_init
  | |- Blind.agree _ _ (mpf_clear _ _ _ _) _ => apply SigintFacts.agree_clear
  | |- Blind.agree _ _ (mpf_set_default_prec _ _ _) _ =>
      apply SigintFacts.agree_set_prec
  | |- Blind.agree _ _ (malloc _ _ _ _) _ => apply SigintFacts.agree_malloc
  | |- Blind.agree _ _ (Iterative.deliver _ _ _) _ =>
      apply SigintFacts.agree_deliver
  | |- Blind.agree _ _ (Iterative.progress_scan _ _ _ _ _) _ =>
      apply SigintFacts.agree_progress_scan
  | |- Blind.agree _ _ (if ?b then _ else _) (if ?b then _ else _) =>
      destruct b; agree_op
  | |- Blind.agree _ _ ?c _ =>
      let h := head_of c in unfold h; agree_op
  end.

Lemma loop_ignores_sigint A E D fuel : forall k,
  Blind.agree A Iterative.var (Iterative.loop A E fuel D k)
                      (Iterative.loop A (hush E) fuel D k).
Proof.
  induction fuel as [|fuel IH]; intros k.
  - intros m1 m2 _. exact I.
  - cbn [Iterative.loop].
    apply SigintFacts.agree_bind; [agree_op|]. intros _.
    apply SigintFacts.agree_bind; [agree_op|]. intros _.
    apply SigintFacts.agree_bind; [agree_op|]. intros c.
    destruct (c <? 0); [agree_op|].
    apply SigintFacts.agree_bind; [agree_op|]. intros _.
    apply SigintFacts.agree_bind; [agree_op|]. intros _.
    apply IH.
Qed.

Lemma call_ignores_sigint (P : Provider) E fuel D result :
  Blind.agree P Iterative.var (Iterative.calculate_pi_digits P E fuel D result)
                      (Iterative.calculate_pi_digits P (hush E) fuel D result).
Proof.
  unfold Iterative.calculate_pi_digits.
  destruct (negb result || (D <=? 0) || (MAX_DIGITS <? D)); [agree_op|].
  unfold Iterative.numeric_phase, Iterative.extract_phase.
  apply SigintFacts.agree_bind; [|intros _].
  - apply SigintFacts.agree_bind; [agree_op|]. intros _.
    apply SigintFacts.agree_bind; [agree_op|]. intros _.
    apply SigintFacts.agree_bind; [agree_op|]. intros _.
    apply SigintFacts.agree_bind; [apply loop_ignores_sigint|]. intros _.
    agree_op.
  - apply SigintFacts.agree_bind; [agree_op|]. intros ok.
    simpl. destruct (negb ok); agree_op.
Qed.




(** ** The series kernel *)

Module SeriesValues.
Import Series SeriesShape.

Section Steps.

Variable A : Arith.
Variable bits : Z.

Local Abbreviation store9 := (store9 A bits).
Local Abbreviation sum_step := (sum_step A bits).
Local Abbreviation pow_step := (pow_step A bits).



Lemma term_step_x1 i piv t1v t2v sumv x1v x2v p1v p2v tmpv dp tr ls kr :
  term_step A x1 x1_pow i
    (Machine A var dp (store9 piv t1v t2v sumv x1v x2v p1v p2v tmpv) tr ls kr)
  = Done tt
      (Machine A var dp
         (store9 piv t1v t2v (sum_step i x1v sumv p1v) x1v x2v
            (pow_step x1v p1v) p2v (fmul A bits p1v x1v))
         tr ls kr).
Proof. unfold term_step, sum_step. destruct (i mod 2 =? 0); reflexivity. Qed.

Lemma term_step_x2 i piv t1v t2v sumv x1v x2v p1v p2v tmpv dp tr ls kr :
  term_step A x2 x2_pow i
    (Machine A var dp (store9 piv t1v t2v sumv x1v x2v p1v p2v tmpv) tr ls kr)
  = Done tt
      (Machine A var dp
         (store9 piv t1v t2v (sum_step i x2v sumv p2v) x1v x2v
            p1v (pow_step x2v p2v) (fmul A bits p2v x2v))
         tr ls kr).
Proof. unfold term_step, sum_step. destruct (i mod 2 =? 0); reflexivity. Qed.

End Steps.

Section OverTheReals.

Local Open Scope R_scope.
Variable bits : Z.

Local Abbreviation store9 := (store9 Exact.ops bits).

Lemma parity_of_nat k : (Z.of_nat k mod 2 =? 0)%Z = Nat.even k.
Proof.
  destruct (Nat.even k) eqn:Ek.
  - apply Nat.even_spec in Ek. destruct Ek as [j ->].
    rewrite Nat2Z.inj_mul, Z.mul_comm, Z.mod_mul by lia. reflexivity.
  - assert (Ok : Nat.odd k = true) by (rewrite <- Nat.negb_even, Ek; reflexivity).
    apply Nat.odd_spec in Ok. destruct Ok as [j ->].
    rewrite Nat2Z.inj_add, Nat2Z.inj_mul, Z.add_comm, Z.mul_comm,
      Z.mod_add by lia. reflexivity.
Qed.

(** One term in exact arithmetic. *)
Lemma sum_step_exact k x :
  (Z.of_nat k < 2 ^ 62)%Z ->
  sum_step Exact.ops bits (Z.of_nat k) x
    (SeriesSpec.arctan_sum x k) (x ^ (2 * k + 1))
  = SeriesSpec.arctan_sum x (S k).
Proof.
  intros Hk. unfold sum_step. cbn -[Z.mul Z.add Z.pow Nat.mul Nat.add pow].
  rewrite parity_of_nat. unfold SeriesSpec.taylor_term, u64.
  rewrite Z.mod_small by lia.
  replace (2 * Z.of_nat k + 1)%Z with (Z.of_nat (2 * k + 1)) by lia.
  rewrite <- INR_IZR_INZ.
  destruct (Nat.even k); lra.
Qed.

Lemma pow_step_exact k x :
  pow_step Exact.ops bits x (x ^ (2 * k + 1)) = x ^ (2 * S k + 1).
Proof.
  unfold pow_step. cbn -[Nat.mul Nat.add pow].
  replace (2 * S k + 1)%nat with (S (S (2 * k + 1))) by lia.
  simpl pow. ring.
Qed.

Lemma loop_x1 x n : forall k piv t1v t2v sumv x2v pw p2v tmpv dp tr ls kr,
  (Z.of_nat (k + n) < 2 ^ 62)%Z ->
  sumv = SeriesSpec.arctan_sum x k -> pw = x ^ (2 * k + 1) ->
  exists tmpv',
    for_loop Exact.ops var n (Z.of_nat k) (term_step Exact.ops x1 x1_pow)
      (Machine Exact.ops var dp
         (store9 piv t1v t2v sumv x x2v pw p2v tmpv) tr ls kr)
    = Done tt
        (Machine Exact.ops var dp
           (store9 piv t1v t2v (SeriesSpec.arctan_sum x (k + n)) x x2v
              (x ^ (2 * (k + n) + 1)) p2v tmpv') tr ls kr).
Proof.
  induction n as [|n IH];
    intros k piv t1v t2v sumv x2v pw p2v tmpv dp tr ls kr Hk -> ->.
  - exists tmpv. rewrite Nat.add_0_r. reflexivity.
  - cbn [for_loop]. erewrite bind_done by apply term_step_x1.
    replace (u64 (Z.of_nat k + 1)) with (Z.of_nat (S k))
      by (unfold u64; rewrite Z.mod_small; lia).
    replace (k + S n)%nat with (S k + n)%nat by lia.
    apply IH; [lia|apply sum_step_exact; lia|apply pow_step_exact].
Qed.

Lemma loop_x2 x n : forall k piv t1v t2v sumv x1v p1v pw tmpv dp tr ls kr,
  (Z.of_nat (k + n) < 2 ^ 62)%Z ->
  sumv = SeriesSpec.arctan_sum x k -> pw = x ^ (2 * k + 1) ->
  exists tmpv',
    for_loop Exact.ops var n (Z.of_nat k) (term_step Exact.ops x2 x2_pow)
      (Machine Exact.ops var dp
         (store9 piv t1v t2v sumv x1v x p1v pw tmpv) tr ls kr)
    = Done tt
        (Machine Exact.ops var dp
           (store9 piv t1v t2v (SeriesSpec.arctan_sum x (k + n)) x1v x
              p1v (x ^ (2 * (k + n) + 1)) tmpv') tr ls kr).
Proof.
  induction n as [|n IH];
    intros k piv t1v t2v sumv x1v p1v pw tmpv dp tr ls kr Hk -> ->.
  - exists tmpv. rewrite Nat.add_0_r. reflexivity.
  - cbn [for_loop]. erewrite bind_done by apply term_step_x2.
    replace (u64 (Z.of_nat k + 1)) with (Z.of_nat (S k))
      by (unfold u64; rewrite Z.mod_small; lia).
    replace (k + S n)%nat with (S k + n)%nat by lia.
    apply IH; [lia|apply sum_step_exact; lia|apply pow_step_exact].
Qed.

End OverTheReals.

End SeriesValues.

(** The numeric phase in exact arithmetic. *)
Lemma numeric_phase_exact (D : Z) (m : machine Exact.ops Series.var) :
  1 <= D <= MAX_DIGITS -> vars m = [] ->
  exists m1,
    Series.numeric_phase Exact.ops D m = Done tt m1 /\
    load Exact.ops Series.var Series.var_eqb Series.pi m1
    = Done (SeriesSpec.machin (Z.to_nat (D + 1000))) m1.
Proof.
  unfold MAX_DIGITS. intros HD Hm.
  unfold Series.numeric_phase.
  generalize (working_precision D) as bits. intros bits.
  destruct m as [dp vs tr ls kr]. simpl in Hm. subst vs.
  set (m0 := Machine Exact.ops Series.var bits [] (tr ++ [EvSetPrec bits]) ls kr).
  assert (E0 : mpf_set_default_prec Exact.ops Series.var bits
                 (Machine Exact.ops Series.var dp [] tr ls kr) = Done tt m0)
    by reflexivity.
  rewrite !(bind_done _ _ _ _ _ E0).
  rewrite !(bind_done _ _ _ _ _ (SeriesFacts.series_init_all_spec Exact.ops m0 eq_refl)).
  unfold m0. cbn [default_prec trace last_shown keep_running].
  unfold Series.kernel, Series.arctan_loop, u64.
  rewrite Z.mod_small by lia.
  set (n := Z.to_nat (D + 1000)).
  assert (Hn : (Z.of_nat (0 + n) < 2 ^ 62)%Z) by (unfold n; lia).
  do 6 (erewrite bind_done by reflexivity).
  destruct (SeriesValues.loop_x1 bits (1 / 5) n 0 0 0 0 (IZR 0) (IZR 1 / IZR 239)
              (IZR 1 / IZR 5) 0 0 bits
              ((tr ++ [EvSetPrec bits]) ++ map EvInit Series.all_vars)%list ls kr
              Hn)%R as (tmp1 & E1); [simpl; lra..|].
  rewrite (bind_done _ _ _ _ _ E1).
  do 3 (erewrite bind_done by reflexivity).
  destruct (SeriesValues.loop_x2 bits (1 / 239) n 0 0
              (SeriesSpec.arctan_sum (1 / 5) (0 + n) * IZR 4) 0 (IZR 0)
              (1 / 5) ((1 / 5) ^ (2 * (0 + n) + 1)) (IZR 1 / IZR 239) tmp1 bits
              ((tr ++ [EvSetPrec bits]) ++ map EvInit Series.all_vars)%list ls kr
              Hn)%R as (tmp2 & E2); [simpl; lra..|].
  rewrite (bind_done _ _ _ _ _ E2).
  do 2 (erewrite bind_done by reflexivity).
  eexists. split; [reflexivity|].
  match goal with
  | |- ?l = _ => let l' := eval hnf in l in change l with l'
  end.
  f_equal. cbn. unfold SeriesSpec.machin. ring.
Qed.

(** C4. In exact arithmetic the series kernel leaves in [pi] the value
    [4 * (4 * S (1/5) - S (1/239))], where [S x] is the sum of the first
    [D + 1000] terms [x^(2i+1) / (2i+1)], added for even [i] and subtracted
    for odd [i], the power of [x] advancing by [x^2] from one term to the
    next.  The number of terms is [D + 1000] for every admissible [D]; the
    loops have no other exit. *)
Theorem series_kernel_is_machin_sum :
  forall (D : Z) (m : machine Exact.ops Series.var),
    1 <= D <= MAX_DIGITS -> vars m = [] ->
    Series.pi_value Exact.ops D m
    = Some (SeriesSpec.machin (Z.to_nat (D + 1000))).
Proof.
  intros D m HD Hm.
  destruct (numeric_phase_exact D m HD Hm) as (m1 & E1 & E2).
  unfold Series.pi_value. rewrite (bind_done _ _ _ _ _ E1), E2. reflexivity.
Qed.

Lemma series_kernel_is_machin_sum_witness :
  Series.pi_value Exact.ops 20 boot = Some (SeriesSpec.machin 1020).
Proof.
  apply (series_kernel_is_machin_sum 20 boot);
    [unfold MAX_DIGITS; lia|reflexivity].
Defined.
(** * Further properties *)

(** ** Precision planning, digit by digit *)

(** X1. The planned precision grows with the digit count: between two
    admissible counts, each further digit brings at least three and at most
    four more bits. *)
Theorem working_precision_grows_with_the_digits :
  forall D1 D2 : Z,
    1 <= D1 -> D1 <= D2 -> D2 <= MAX_DIGITS ->
    working_precision D1 + 3 * (D2 - D1) <= working_precision D2 /\
    working_precision D2 <= working_precision D1 + 4 * (D2 - D1).
Proof.
  intros D1 D2 H1 H12 H2.
  rewrite !DblFacts.working_precision_closed by lia.
  pose proof (Z.div_mod (D1 * 3322) 1000 ltac:(lia)) as E1.
  pose proof (Z.div_mod (D2 * 3322) 1000 ltac:(lia)) as E2.
  pose proof (Z.mod_pos_bound (D1 * 3322) 1000 ltac:(lia)) as B1.
  pose proof (Z.mod_pos_bound (D2 * 3322) 1000 ltac:(lia)) as B2.
  lia.
Qed.

Lemma working_precision_grows_with_the_digits_witness :
  working_precision 20 + 3 * (84 - 20) <= working_precision 84 /\
  working_precision 84 <= working_precision 20 + 4 * (84 - 20).
Proof.
  apply working_precision_grows_with_the_digits; unfold MAX_DIGITS; lia.
Defined.

(** ** The progress clock *)

Lemma land_pred_power_of_two d :
  0 < d -> (Z.land d (d - 1) = 0 <-> d = 2 ^ Z.log2 d).
Proof.
  intros Hd.
  pose proof (Z.log2_nonneg d) as Hk.
  pose proof (Z.log2_spec d Hd) as [Hlo Hhi].
  set (k := Z.log2 d) in *.
  split.
  - intros Hz.
    destruct (Z.eq_dec d (2 ^ k)) as [|Hne]; [assumption|exfalso].
    assert (Hb : Z.testbit (Z.land d (d - 1)) k = true).
    { rewrite Z.land_spec. apply andb_true_iff. split.
      - apply Z.bit_log2. exact Hd.
      - replace k with (Z.log2 (d - 1)).
        + apply Z.bit_log2. lia.
        + apply Z.log2_unique; [exact Hk|]. rewrite Z.pow_succ_r in Hhi by lia. 
          rewrite Z.pow_succ_r by lia. lia. }
    rewrite Hz, Z.bits_0 in Hb. discriminate.
  - intros Ed. rewrite Ed.
    change (2 ^ k - 1) with (Z.pred (2 ^ k)). rewrite <- Z.ones_equiv.
    rewrite Z.land_ones by exact Hk. apply Z.mod_same.
    apply Z.pow_nonzero; lia.
Qed.

(** X2. [print_progress_time] prints its line exactly when the count
    is a power of two from 128 on: the test [n & (n - 1)] is zero for the
    powers of two and for no other positive number. *)
Theorem progress_time_is_shown_at_powers_of_two :
  forall (current_digits : Z) (o : outside),
    0 <= current_digits < 2 ^ 64 ->
    (exists k, 7 <= k < 64 /\ current_digits = 2 ^ k /\
       IterativeProgram.print_progress_time current_digits o
       = Done tt {| journal := journal o
                               ++ [Printed (MsgProgressTime current_digits)];
                    files := files o |}) \/
    ((forall k, current_digits = 2 ^ k -> k < 7) /\
     IterativeProgram.print_progress_time current_digits o = Done tt o).
Proof.
  intros d [j fs] Hd. unfold IterativeProgram.print_progress_time.
  destruct (128 <=? d) eqn:H128; cbn [andb].
  - apply Z.leb_le in H128.
    assert (Hu : u64 (d - 1) = d - 1) by (apply Z.mod_small; lia).
    rewrite Hu.
    pose proof (land_pred_power_of_two d ltac:(lia)) as Hp.
    destruct (Z.land d (d - 1) =? 0) eqn:Hz.
    + apply Z.eqb_eq in Hz. left. exists (Z.log2 d).
      apply Hp in Hz.
      assert (7 <= Z.log2 d).
      { change 7 with (Z.log2 128). apply Z.log2_le_mono. exact H128. }
      assert (Z.log2 d < 64).
      { apply Z.log2_lt_pow2; lia. }
      split; [lia|]. split; [exact Hz|reflexivity].
    + apply Z.eqb_neq in Hz. right. split; [|reflexivity].
      intros k Ek. exfalso. apply Hz. apply Hp.
      assert (0 <= k).
      { destruct (Z.neg_nonneg_cases k) as [Hk|Hk]; [|exact Hk].
        rewrite Ek, Z.pow_neg_r in H128 by exact Hk. lia. }
      rewrite Ek at 2. rewrite Z.log2_pow2 by assumption. exact Ek.
  - right. apply Z.leb_gt in H128. split; [|reflexivity].
    intros k Ek. apply Z.nle_gt. intros Hk.
    assert (2 ^ 7 <= 2 ^ k) by (apply Z.pow_le_mono_r; lia).
    change (2 ^ 7) with 128 in *. lia.
Qed.

Lemma progress_time_is_shown_at_powers_of_two_witness :
  IterativeProgram.print_progress_time 1024 nothing_yet
  = Done tt {| journal := [Printed (MsgProgressTime 1024)]; files := [] |} /\
  IterativeProgram.print_progress_time 1000 nothing_yet = Done tt nothing_yet.
Proof.
  split.
  - destruct (progress_time_is_shown_at_powers_of_two 1024 nothing_yet)
      as [(k & _ & _ & E)|[H _]]; [lia|exact E|].
    specialize (H 10 eq_refl). lia.
  - destruct (progress_time_is_shown_at_powers_of_two 1000 nothing_yet)
      as [(k & Hk & E & _)|[_ E]]; [lia| |exact E].
    exfalso.
    assert (k < 10).
    { apply Z.nle_gt. intros Hge.
      assert (2 ^ 10 <= 2 ^ k) by (apply Z.pow_le_mono_r; lia).
      change (2 ^ 10) with 1024 in *. lia. }
    assert (C : k = 7 \/ k = 8 \/ k = 9) by lia.
    destruct C as [->|[->| ->]]; discriminate E.
Defined.

(** ** The digit counts of the keep mode *)

Lemma keep_digits_closed_form (k : nat) :
  IterativeProgram.keep_digits k = 1000 * 2 ^ (Z.of_nat k mod 14) /\
  1 <= IterativeProgram.keep_digits k <= MAX_DIGITS.
Proof.
  unfold IterativeProgram.keep_digits.
  assert (Small : forall r, (r < 14)%nat ->
            Nat.iter r IterativeProgram.next_digits 1000 = 1000 * 2 ^ Z.of_nat r).
  { intros r Hr.
    do 14 (destruct r as [|r]; [reflexivity|]). lia. }
  assert (Period : forall q, Nat.iter (14 * q) IterativeProgram.next_digits 1000 = 1000).
  { induction q as [|q IH]; [reflexivity|].
    replace (14 * S q)%nat with (14 + 14 * q)%nat by lia.
    rewrite Nat.iter_add, IH. reflexivity. }
  assert (E : Nat.iter k IterativeProgram.next_digits 1000
              = 1000 * 2 ^ (Z.of_nat k mod 14)).
  { replace (Z.of_nat k mod 14) with (Z.of_nat (k mod 14))
      by (rewrite Nat2Z.inj_mod; reflexivity).
    pose proof (Nat.div_mod_eq k 14) as Ek.
    pose proof (Nat.mod_upper_bound k 14 ltac:(lia)) as Hr.
    revert Ek Hr. generalize (k / 14)%nat as q, (k mod 14)%nat as r.
    intros q r -> Hr.
    rewrite Nat.add_comm, Nat.iter_add, Period.
    apply Small, Hr. }
  split; [exact E|]. rewrite E.
  pose proof (Z.mod_pos_bound (Z.of_nat k) 14 ltac:(lia)) as B.
  assert (0 < 2 ^ (Z.of_nat k mod 14)) by (apply Z.pow_pos_nonneg; lia).
  assert (2 ^ (Z.of_nat k mod 14) <= 2 ^ 13) by (apply Z.pow_le_mono_r; lia).
  change (2 ^ 13) with 8192 in *. unfold MAX_DIGITS. lia.
Qed.

(** ** The progress lines of the iterative loop *)

Lemma progress_scan_closed_form (A : Arith) D est fuel :
  forall k (m : machine A Iterative.var),
    0 <= D <= MAX_DIGITS -> 0 <= est < 2 ^ 64 -> 7 <= k ->
    (Z.to_nat (24 - k) < fuel)%nat ->
    Iterative.progress_scan A fuel D est (2 ^ k) m
    = Done tt
        (if (2 ^ k <=? est) && (2 ^ Z.log2 est <=? D)
            && negb (2 ^ Z.log2 est =? last_shown m)
         then log A Iterative.var (EvProgress (2 ^ Z.log2 est))
                (with_last_shown A Iterative.var m (2 ^ Z.log2 est))
         else m).
Proof.
  unfold MAX_DIGITS.
  induction fuel as [|fuel IH]; intros k m HD Hest Hk Hf; [lia|].
  assert (Hpk : 0 < 2 ^ k) by (apply Z.pow_pos_nonneg; lia).
  cbn [Iterative.progress_scan].
  destruct (2 ^ k <=? est) eqn:Ce.
  - apply Z.leb_le in Ce.
    assert (Hj : k <= Z.log2 est).
    { apply Z.log2_le_pow2; lia. }
    pose proof (Z.log2_spec est ltac:(lia)) as [Hlo Hhi].
    destruct (2 ^ k <=? D) eqn:Cd; cbn [andb].
    + apply Z.leb_le in Cd.
      assert (Hk24 : k < 24).
      { apply Z.nle_gt. intros Hge.
        assert (2 ^ 24 <= 2 ^ k) by (apply Z.pow_le_mono_r; lia). lia. }
      assert (Hw : u64 (2 ^ k * 2) = 2 ^ (k + 1)).
      { unfold u64. rewrite Z.pow_add_r, Z.pow_1_r by lia.
        apply Z.mod_small. split; [lia|].
        assert (2 ^ k <= 2 ^ 23) by (apply Z.pow_le_mono_r; lia). lia. }
      rewrite Hw.
      destruct (est <? 2 ^ (k + 1)) eqn:Cu; cbn [andb].
      * apply Z.ltb_lt in Cu.
        assert (Ej : Z.log2 est = k).
        { apply Z.log2_unique; [lia|]. split; [exact Ce|].
          replace (Z.succ k) with (k + 1) by lia. exact Cu. }
        rewrite Ej.
        replace (2 ^ k <=? D) with true by (symmetry; apply Z.leb_le; exact Cd).
        cbn [andb].
        destruct (negb (2 ^ k =? last_shown m)); [reflexivity|].
        rewrite IH by lia.
        replace (2 ^ (k + 1) <=? est) with false
          by (symmetry; apply Z.leb_gt; exact Cu).
        reflexivity.
      * apply Z.ltb_ge in Cu.
        rewrite IH by lia.
        replace (2 ^ (k + 1) <=? est) with true
          by (symmetry; apply Z.leb_le; exact Cu).
        reflexivity.
    + apply Z.leb_gt in Cd.
      replace (2 ^ Z.log2 est <=? D) with false; [reflexivity|].
      symmetry. apply Z.leb_gt.
      assert (2 ^ k <= 2 ^ Z.log2 est) by (apply Z.pow_le_mono_r; lia). lia.
  - rewrite andb_false_r. reflexivity.
Qed.

(** X3. The progress block of the loop in closed form.  It prints at
    most one line, only in a round whose number is a multiple of ten; the
    line names the largest power of two that is at most twice the number of
    rounds, provided that this power is at least 128, at most the requested
    count, and not the one shown last, and [last_shown] then holds it.
    Otherwise the block changes nothing. *)
Theorem progress_line_closed_form :
  forall (A : Arith) (D iterations : Z) (m : machine A Iterative.var),
    0 <= D <= MAX_DIGITS -> 0 <= iterations < 2 ^ 63 ->
    let estimated := 2 * iterations in
    let power_of_two := 2 ^ Z.log2 estimated in
    Iterative.progress A D iterations m
    = Done tt
        (if (iterations mod 10 =? 0) && (128 <=? estimated)
            && (power_of_two <=? D)
            && negb (power_of_two =? last_shown m)
         then log A Iterative.var (EvProgress power_of_two)
                (with_last_shown A Iterative.var m power_of_two)
         else m).
Proof.
  intros A D it m HD Hit est p. unfold Iterative.progress.
  destruct (it mod 10 =? 0); [|reflexivity]. cbn [andb].
  assert (Eu : u64 (it * 2) = est).
  { unfold u64, est. rewrite Z.mul_comm. apply Z.mod_small.
    change (2 ^ 64) with (2 * 2 ^ 63). lia. }
  rewrite Eu.
  change 128 with (2 ^ 7) at 1.
  rewrite (progress_scan_closed_form A D est 64 7 m HD);
    [reflexivity|unfold est; change (2 ^ 64) with (2 * 2 ^ 63); lia|lia
    |simpl; lia].
Qed.

Lemma progress_line_closed_form_witness :
  Iterative.progress Ref.ops 1000 70 boot
  = Done tt (log Ref.ops Iterative.var (EvProgress 128)
               (with_last_shown Ref.ops Iterative.var boot 128)) /\
  Iterative.progress Ref.ops 1000 70
    (with_last_shown Ref.ops Iterative.var boot 128)
  = Done tt (with_last_shown Ref.ops Iterative.var boot 128).
Proof.
  split.
  - apply (progress_line_closed_form Ref.ops 1000 70 boot);
      unfold MAX_DIGITS; lia.
  - apply (progress_line_closed_form Ref.ops 1000 70
             (with_last_shown Ref.ops Iterative.var boot 128));
      unfold MAX_DIGITS; lia.
Defined.

(** ** A call of the iterative program whose loop ends within ten rounds *)

Module EarlyExit.
Import Iterative IterativeShape.

Section Generic.

Variable A : Arith.
Variable E : env.
Variable bits : Z.

Local Abbreviation next := (IterativeSpec.next A bits).
Local Abbreviation carry := (IterativeSpec.carry A bits).
Local Abbreviation close_enough := (IterativeSpec.close_enough A bits).
Local Abbreviation store10 := (store10 A bits).
Local Abbreviation from := (from A bits).

Lemma deliver_exact k dp vs tr ls kr :
  deliver A E k (Machine A var dp vs tr ls kr)
  = Done tt
      (Machine A var dp vs
         (tr ++ (if sigint_round E k then [EvSigint] else []))
         ls (kr && negb (sigint_round E k))).
Proof.
  unfold deliver, signal_handler. destruct (sigint_round E k).
  - rewrite andb_false_r. reflexivity.
  - rewrite app_nil_r, andb_true_r. reflexivity.
Qed.

Lemma interrupted_rounds_succ first n :
  interrupted_rounds E first (S n)
  = (if sigint_round E (Z.of_nat (S first)) then [Z.of_nat (S first)] else [])
    ++ interrupted_rounds E (S first) n.
Proof.
  unfold interrupted_rounds. cbn [seq map filter].
  destruct (sigint_round E (Z.of_nat (S first))); reflexivity.
Qed.

Lemma handler_lines_succ first n :
  handler_lines E first (S n)
  = (if sigint_round E (Z.of_nat (S first)) then [EvSigint] else [])
    ++ handler_lines E (S first) n.
Proof.
  unfold handler_lines. rewrite interrupted_rounds_succ.
  destruct (sigint_round E (Z.of_nat (S first))); reflexivity.
Qed.

Lemma undisturbed_succ first n :
  undisturbed E first (S n)
  = negb (sigint_round E (Z.of_nat (S first))) && undisturbed E (S first) n.
Proof.
  unfold undisturbed. rewrite interrupted_rounds_succ.
  destruct (sigint_round E (Z.of_nat (S first))); reflexivity.
Qed.

Lemma progress_skipped D k (m : machine A var) :
  0 < k < 10 -> progress A D k m = Done tt m.
Proof.
  intros Hk. unfold progress.
  replace (k mod 10 =? 0) with false; [reflexivity|].
  symmetry. apply Z.eqb_neq. rewrite Z.mod_small by lia. lia.
Qed.

(** The loop, entered after [first] rounds, leaves in the round
    [first + n + 1], which is at most the tenth. *)
Lemma loop_exit_early D n :
  forall fuel first s an bn tn pi' t1 t2 dp tr ls kr,
    (n < fuel)%nat -> (first + n <= 9)%nat ->
    (forall i, (i < n)%nat -> close_enough (next (from i s)) = false) ->
    close_enough (next (from n s)) = true ->
    exists p' an' bn' tn' t1' t2',
      loop A E fuel D (Z.of_nat first)
        (Machine A var dp (store10 s an bn tn pi' t1 t2) tr ls kr)
      = Done tt
          (Machine A var dp
             (store10
                (IterativeSpec.State A (IterativeSpec.sa A (from n s))
                   (IterativeSpec.sb A (from n s))
                   (IterativeSpec.st A (from n s)) p')
                an' bn' tn' pi' t1' t2')
             (tr ++ handler_lines E first (S n)) ls
             (kr && undisturbed E first (S n))).
Proof.
  induction n as [|n IH];
    intros fuel first s an bn tn pi' t1 t2 dp tr ls kr Hf H9 Hno Hyes;
    (destruct fuel as [|fuel]; [lia|]);
    cbn [loop];
    (assert (Ek : u64 (Z.of_nat first + 1) = Z.of_nat (S first))
      by (unfold u64; rewrite Z.mod_small; lia));
    rewrite Ek;
    rewrite (bind_done _ _ _ _ _ (deliver_exact _ _ _ _ _ _));
    (destruct (IterativeFacts.round_spec A bits s an bn tn pi' t1 t2 dp
                 (tr ++ (if sigint_round E (Z.of_nat (S first))
                         then [EvSigint] else []))
                 ls (kr && negb (sigint_round E (Z.of_nat (S first)))))
       as (t2' & Er));
    rewrite (bind_done _ _ _ _ _ Er);
    rewrite (bind_done _ _ _ _ _
               (IterativeFacts.cmp_spec A bits _ _ _ _ _ _ _ _ _ _ _ _)).
  - change (IterativeSpec.close_enough A bits (next s) = true) in Hyes.
    unfold IterativeSpec.close_enough in Hyes. rewrite Hyes.
    rewrite handler_lines_succ, undisturbed_succ.
    unfold handler_lines, undisturbed, interrupted_rounds. cbn [seq map filter].
    rewrite app_nil_r, andb_true_r.
    do 6 eexists. reflexivity.
  - assert (H0 : close_enough (next s) = false) by (apply (Hno 0%nat); lia).
    unfold IterativeSpec.close_enough in H0. rewrite H0.
    rewrite (bind_done _ _ _ _ _ (progress_skipped D (Z.of_nat (S first)) _ ltac:(lia))).
    rewrite (bind_done _ _ _ _ _
               (IterativeFacts.update_spec A bits _ _ _ _ _ _ _ _ _ _ _)).
    edestruct (IH fuel (S first)) as (p' & an' & bn' & tn' & t1' & t2'' & El);
      [lia|lia| |exact Hyes|].
    { intros i Hi. apply (Hno (S i)). lia. }
    rewrite El.
    rewrite (handler_lines_succ first (S n)), (undisturbed_succ first (S n)).
    rewrite <- app_assoc, <- andb_assoc.
    do 6 eexists. reflexivity.
Qed.

End Generic.

End EarlyExit.

(** The numeric phase of such a call, said exactly. *)
Lemma numeric_phase_early (A : Arith) (E : env) D n fuel dp tr ls kr :
  (n < fuel)%nat -> (n <= 9)%nat ->
  IterativeSpec.exits_in_round_after A (working_precision D) n = true ->
  exists p' an' bn' tn' t1' t2',
    Iterative.numeric_phase A E fuel D (Machine A Iterative.var dp [] tr ls kr)
    = Done tt
        (Machine A Iterative.var (working_precision D)
           (IterativeShape.store10 A (working_precision D)
              (IterativeSpec.State A
                 (IterativeSpec.sa A (IterativeSpec.after A (working_precision D) n))
                 (IterativeSpec.sb A (IterativeSpec.after A (working_precision D) n))
                 (IterativeSpec.st A (IterativeSpec.after A (working_precision D) n))
                 p')
              an' bn' tn'
              (IterativeSpec.final A (working_precision D)
                 (IterativeSpec.after A (working_precision D) n))
              t1' t2')
           (tr ++ EvSetPrec (working_precision D)
               :: map EvInit Iterative.all_vars ++ handler_lines E 0 (S n))
           ls (kr && undisturbed E 0 (S n))).
Proof.
  intros Hf H9.
  unfold Iterative.numeric_phase.
  generalize (working_precision D) as bits. intros bits Hex.
  destruct (IterativeFacts.exits_after_split A bits n Hex) as [Hno Hyes].
  set (m0 := Machine A Iterative.var bits [] (tr ++ [EvSetPrec bits]) ls kr).
  assert (E0 : mpf_set_default_prec A Iterative.var bits
                 (Machine A Iterative.var dp [] tr ls kr) = Done tt m0)
    by reflexivity.
  rewrite (bind_done _ _ _ _ _ E0).
  rewrite (bind_done _ _ _ _ _ (IterativeFacts.iterative_init_all_spec A m0 eq_refl)).
  unfold m0. cbn [default_prec trace last_shown keep_running].
  rewrite (bind_done _ _ _ _ _ (IterativeFacts.set_initial_spec A bits _ _ _ _)).
  edestruct (EarlyExit.loop_exit_early A E bits D n fuel 0) as
    (p' & an' & bn' & tn' & t1' & t2' & El);
    [exact Hf|lia|exact Hno|exact Hyes|].
  change (Z.of_nat 0) with 0 in El.
  rewrite (bind_done _ _ _ _ _ El).
  edestruct (IterativeFacts.finish_spec A bits) as (t1'' & t2'' & Ef).
  rewrite Ef.
  rewrite <- IterativeFacts.after_from.
  exists p', an', bn', tn', t1'', t2''.
  rewrite <- !app_assoc. reflexivity.
Qed.

(** A whole call whose loop leaves within ten rounds, said exactly. *)
Lemma iterative_call_early (P : Provider) (E : env) D n fuel
      (m : machine P Iterative.var) :
  1 <= D <= MAX_DIGITS -> vars m = [] -> (n < fuel)%nat -> (n <= 9)%nat ->
  IterativeSpec.exits_in_round_after P (working_precision D) n = true ->
  Iterative.calculate_pi_digits P E fuel D true m
  = Done (if malloc_ok E
          then (D, Buffer
                     (extract_digits D
                        (fprint P (to_int D + 1)
                           (IterativeSpec.final P (working_precision D)
                              (IterativeSpec.after P (working_precision D) n)))))
          else (0, Null))
      (Machine P Iterative.var (working_precision D) []
         (trace m ++ Iterative.call_trace E D (handler_lines E 0 (S n)))
         (last_shown m)
         (keep_running m && undisturbed E 0 (S n))).
Proof.
  intros HD Hm Hf H9 Hex.
  unfold Iterative.calculate_pi_digits.
  replace (negb true || (D <=? 0) || (MAX_DIGITS <? D)) with false
    by (unfold MAX_DIGITS in *; symmetry; apply orb_false_iff; split;
        [apply Z.leb_gt|apply Z.ltb_ge]; lia).
  cbv iota.
  destruct m as [dp vs tr ls kr]. simpl in Hm. subst vs.
  cbn [trace last_shown keep_running].
  destruct (numeric_phase_early P E D n fuel dp tr ls kr Hf H9 Hex)
    as (p' & an' & bn' & tn' & t1' & t2' & E1).
  rewrite (bind_done _ _ _ _ _ E1).
  unfold Iterative.call_trace.
  revert E1. generalize (working_precision D) as bits. intros bits _.
  unfold Iterative.extract_phase, malloc, u64.
  unfold MAX_DIGITS in HD. rewrite Z.mod_small by lia.
  unfold bind at 1.
  match goal with
  | |- context [log _ _ ?e ?mm] => set (m2 := log P Iterative.var e mm)
  end.
  assert (Hl2 : live m2 = Iterative.all_vars) by reflexivity.
  assert (Ev2 : load P Iterative.var Iterative.var_eqb Iterative.pi m2
                = Done (IterativeSpec.final P bits
                          (IterativeSpec.after P bits n)) m2) by reflexivity.
  destruct (malloc_ok E); cbn [negb]; cbv beta iota.
  - rewrite (bind_done _ _ _ _ _ Ev2).
    rewrite (bind_done _ _ _ _ _ (IterativeFacts.iterative_clear_all_spec P m2 Hl2)).
    unfold ret, m2. cbn [log default_prec trace last_shown keep_running].
    rewrite <- !app_assoc. reflexivity.
  - rewrite (bind_done _ _ _ _ _ (IterativeFacts.iterative_clear_all_spec P m2 Hl2)).
    unfold ret, m2. cbn [log default_prec trace last_shown keep_running].
    rewrite <- !app_assoc. reflexivity.
Qed.

Lemma no_progress_in_early_call E D first n p :
  ~ In (EvProgress p) (Iterative.call_trace E D (handler_lines E first n)).
Proof.
  unfold Iterative.call_trace, handler_lines. intros H.
  destruct H as [H|H]; [discriminate H|].
  apply in_app_or in H. destruct H as [H|H].
  - apply in_map_iff in H. destruct H as (v & H & _). discriminate H.
  - apply in_app_or in H. destruct H as [H|H].
    + apply in_map_iff in H. destruct H as (v & H & _). discriminate H.
    + destruct H as [H|H]; [discriminate H|].
      apply in_map_iff in H. destruct H as (v & H & _). discriminate H.
Qed.

(** X4. A call of the iterative program whose loop leaves within its
    first ten rounds prints no progress line and leaves [last_shown]
    alone.  Its trace is the planned precision, the ten acquisitions, one
    line of the handler for each round in which SIGINT arrived, the
    [malloc] and the ten releases; the flag [keep_running] is cleared
    exactly when SIGINT arrived in one of the rounds that were run. *)
Theorem early_exit_prints_no_progress :
  forall (P : Provider) (E : env) (D : Z) (n fuel : nat)
         (m : machine P Iterative.var),
    1 <= D <= MAX_DIGITS -> vars m = [] -> (n < fuel)%nat -> (n <= 9)%nat ->
    IterativeSpec.exits_in_round_after P (working_precision D) n = true ->
    exists r m',
      Iterative.calculate_pi_digits P E fuel D true m = Done r m' /\
      trace m' = trace m
                 ++ Iterative.call_trace E D (handler_lines E 0 (S n)) /\
      (forall p, In (EvProgress p) (trace m') -> In (EvProgress p) (trace m)) /\
      last_shown m' = last_shown m /\
      keep_running m' = keep_running m && undisturbed E 0 (S n).
Proof.
  intros P E D n fuel m HD Hm Hf H9 Hex.
  do 2 eexists. split; [apply (iterative_call_early P E D n fuel m); assumption|].
  cbn [trace last_shown keep_running].
  split; [reflexivity|]. split; [|split; reflexivity].
  intros p Hp. apply in_app_or in Hp. destruct Hp as [Hp|Hp]; [exact Hp|].
  exfalso. exact (no_progress_in_early_call _ _ _ _ _ Hp).
Qed.

Lemma early_exit_prints_no_progress_witness :
  exists r m',
    Iterative.calculate_pi_digits Ref.provider (interrupted_in 3) 100 20 true boot
    = Done r m' /\
    trace m' = [] ++ Iterative.call_trace (interrupted_in 3) 20
                       (handler_lines (interrupted_in 3) 0 6) /\
    (forall p, In (EvProgress p) (trace m') -> In (EvProgress p) (@nil (event Iterative.var))) /\
    last_shown m' = 0 /\
    keep_running m' = true && undisturbed (interrupted_in 3) 0 6.
Proof.
  apply (early_exit_prints_no_progress Ref.provider (interrupted_in 3) 20 5 100 boot).
  - unfold MAX_DIGITS. lia.
  - reflexivity.
  - lia.
  - lia.
  - vm_compute. reflexivity.
Defined.

(** X5. In exact arithmetic the loop leaves in round six for every digit
    count, so that a call never prints a progress line. *)
Theorem exact_call_prints_no_progress :
  forall (pr : Z -> R -> string) (E : env) (D : Z) (fuel : nat)
         (m : machine Exact.ops Iterative.var),
    1 <= D <= MAX_DIGITS -> vars m = [] -> (5 < fuel)%nat ->
    exists r m',
      Iterative.calculate_pi_digits {| arith := Exact.ops; fprint := pr |}
        E fuel D true m = Done r m' /\
      fst r = (if malloc_ok E then D else 0) /\
      (forall p, In (EvProgress p) (trace m') -> In (EvProgress p) (trace m)) /\
      last_shown m' = last_shown m.
Proof.
  intros pr E D fuel m HD Hm Hf.
  do 2 eexists. split.
  - apply (iterative_call_early {| arith := Exact.ops; fprint := pr |}
             E D 5 fuel m HD Hm Hf); [lia|].
    apply exact_exit_round.
  - cbn [trace last_shown]. split; [destruct (malloc_ok E); reflexivity|].
    split; [|reflexivity].
    intros p Hp. apply in_app_or in Hp. destruct Hp as [Hp|Hp]; [exact Hp|].
    exfalso. exact (no_progress_in_early_call _ _ _ _ _ Hp).
Qed.

Lemma exact_call_prints_no_progress_witness :
  exists r m',
    Iterative.calculate_pi_digits
      {| arith := Exact.ops; fprint := fun _ _ => EmptyString |}
      quiet 6 1000 true boot = Done r m' /\
    fst r = 1000 /\
    (forall p, In (EvProgress p) (trace m') -> In (EvProgress p) (@nil (event Iterative.var))) /\
    last_shown m' = 0.
Proof.
  apply (exact_call_prints_no_progress (fun _ _ => EmptyString) quiet 1000 6 boot).
  - unfold MAX_DIGITS. lia.
  - reflexivity.
  - lia.
Defined.

(** ** The resources of a call that succeeds *)

(** X6. When the [malloc] succeeds, the call returns the digit count
    and a buffer, no [mpf_t] variable is live any more, each variable was
    acquired and released exactly once, and exactly one buffer, of
    [D + 10] bytes, was allocated: the result is all the call leaves
    behind. *)
Theorem successful_call_leaves_only_the_buffer :
  forall (P : Provider) (E : env) (D : Z),
    1 <= D <= MAX_DIGITS -> malloc_ok E = true ->
    (forall ms : machine P Series.var,
        vars ms = [] ->
        exists s ms' new,
          Series.calculate_pi_digits P E D true ms = Done (D, Buffer s) ms' /\
          vars ms' = [] /\ trace ms' = trace ms ++ new /\
          In (EvMalloc (D + 10) true) new /\ allocated new = 1%nat /\
          forall v, acquired _ Series.var_eqb v new = 1%nat /\
                    released _ Series.var_eqb v new = 1%nat) /\
    (forall (fuel : nat) (mi : machine P Iterative.var),
        vars mi = [] ->
        observe (Iterative.numeric_phase P E fuel D mi) = Returned tt ->
        exists s mi' new,
          Iterative.calculate_pi_digits P E fuel D true mi
            = Done (D, Buffer s) mi' /\
          vars mi' = [] /\ trace mi' = trace mi ++ new /\
          In (EvMalloc (D + 10) true) new /\ allocated new = 1%nat /\
          forall v, acquired _ Iterative.var_eqb v new = 1%nat /\
                    released _ Iterative.var_eqb v new = 1%nat).
Proof.
  intros P E D HD Hmalloc. split.
  - intros ms Hms.
    destruct (SeriesFacts.series_call_spec P E D ms HD Hms)
      as (v & ms' & _ & Hc & Hv & _ & Ht).
    rewrite Hmalloc in Hc.
    eexists _, ms', (Series.call_trace E D).
    split; [exact Hc|]. split; [exact Hv|]. split; [exact Ht|].
    split; [|split; [|apply series_trace_counts]].
    + unfold Series.call_trace. rewrite Hmalloc. right.
      apply in_or_app. right. left. reflexivity.
    + unfold Series.call_trace. rewrite Hmalloc. reflexivity.
  - intros fuel mi Hmi Hnum.
    destruct (Iterative.numeric_phase P E fuel D mi) as [[] m1| |] eqn:Hrun;
      try discriminate Hnum.
    destruct (IterativeFacts.iterative_call_spec P E fuel D mi m1 HD Hmi Hrun)
      as (v & mi' & chat & _ & Hc & Hv & _ & Hchat & Ht).
    rewrite Hmalloc in Hc.
    eexists _, mi', (Iterative.call_trace E D chat).
    split; [exact Hc|]. split; [exact Hv|]. split; [exact Ht|].
    split; [|split; [|intros w; apply iterative_trace_counts, Hchat]].
    + unfold Iterative.call_trace. rewrite Hmalloc. right.
      apply in_or_app. right. apply in_or_app. right. left. reflexivity.
    + unfold Iterative.call_trace, allocated. rewrite Hmalloc.
      change (EvSetPrec (working_precision D) :: map EvInit Iterative.all_vars
              ++ chat ++ EvMalloc (D + 10) true
                 :: map EvClear Iterative.all_vars)
        with ((EvSetPrec (working_precision D) :: map EvInit Iterative.all_vars)
              ++ chat ++ EvMalloc (D + 10) true
                 :: map EvClear Iterative.all_vars).
      rewrite !filter_app, !length_app.
      rewrite (chatter_filter _ chat) by
        (try exact Hchat; intros [] He; (reflexivity || destruct He)).
      reflexivity.
Qed.

Lemma successful_call_leaves_only_the_buffer_witness :
  (exists s ms' new,
      Series.calculate_pi_digits Ref.provider quiet 20 true boot
        = Done (20, Buffer s) ms' /\
      vars ms' = [] /\ trace ms' = new /\
      In (EvMalloc 30 true) new /\ allocated new = 1%nat /\
      forall v, acquired _ Series.var_eqb v new = 1%nat /\
                released _ Series.var_eqb v new = 1%nat) /\
  (exists s mi' new,
      Iterative.calculate_pi_digits Ref.provider quiet 100 20 true boot
        = Done (20, Buffer s) mi' /\
      vars mi' = [] /\ trace mi' = new /\
      In (EvMalloc 30 true) new /\ allocated new = 1%nat /\
      forall v, acquired _ Iterative.var_eqb v new = 1%nat /\
                released _ Iterative.var_eqb v new = 1%nat).
Proof.
  destruct (successful_call_leaves_only_the_buffer Ref.provider quiet 20)
    as [Hs Hi]; [unfold MAX_DIGITS; lia|reflexivity|].
  split.
  - apply (Hs boot). reflexivity.
  - apply (Hi 100%nat boot); [reflexivity|].
    vm_compute. reflexivity.
Defined.

(** ** The series kernel converges to pi *)

Section MachinConverges.

Local Open Scope R_scope.

Lemma alternating_sign k : (-1) ^ k = if Nat.even k then 1 else -1.
Proof.
  induction k as [|k IH]; [reflexivity|].
  rewrite Nat.even_succ, <- Nat.negb_even.
  change ((-1) ^ S k) with (-1 * (-1) ^ k). rewrite IH.
  destruct (Nat.even k); simpl; lra.
Qed.

Lemma arctan_sum_alternated x n :
  SeriesSpec.arctan_sum x (S n) = sum_f_R0 (tg_alt (Ratan_seq x)) n.
Proof.
  assert (T : forall k, SeriesSpec.taylor_term x k = tg_alt (Ratan_seq x) k).
  { intros k. unfold SeriesSpec.taylor_term, tg_alt, Ratan_seq.
    rewrite alternating_sign. reflexivity. }
  induction n as [|n IH].
  - cbn [SeriesSpec.arctan_sum sum_f_R0]. rewrite T. ring.
  - change (SeriesSpec.arctan_sum x (S (S n)))
      with (SeriesSpec.arctan_sum x (S n) + SeriesSpec.taylor_term x (S n)).
    rewrite IH, T. reflexivity.
Qed.

(** The partial sums are within their last term of the arctangent. *)
Lemma arctan_sum_error x n :
  0 < x < 1 ->
  Rabs (SeriesSpec.arctan_sum x (S n) - atan x) <= x ^ (2 * n + 1).
Proof.
  intros Hx.
  assert (Hx' : 0 <= x <= 1) by lra.
  assert (Hcv : Un_cv (sum_f_R0 (tg_alt (Ratan_seq x))) (atan x)).
  { rewrite (atan_eq_ps_atan x Hx). unfold ps_atan.
    destruct (in_int x) as [h|h]; [|exfalso; apply h; lra].
    destruct (ps_atan_exists_1 x h) as [v Hv]. exact Hv. }
  rewrite arctan_sum_alternated.
  apply Rle_trans with (Ratan_seq x n).
  - apply (Alt_first_term_bound (Ratan_seq x) (atan x) n n);
      [apply Ratan_seq_decreasing, Hx'|apply Ratan_seq_converging, Hx'
      |exact Hcv|lia].
  - unfold Ratan_seq.
    assert (Hp : 0 <= x ^ (2 * n + 1)) by (apply pow_le; lra).
    assert (Hn : 1 <= INR (2 * n + 1)).
    { change 1 with (INR 1). apply le_INR. lia. }
    apply Rle_trans with (x ^ (2 * n + 1) / 1); [|right; field].
    unfold Rdiv. apply Rmult_le_compat_l; [exact Hp|].
    apply Rinv_le_contravar; lra.
Qed.

Lemma machin_error n :
  Rabs (SeriesSpec.machin (S n) - PI) <= 20 * (1 / 5) ^ (2 * n + 1).
Proof.
  pose proof (arctan_sum_error (1 / 5) n ltac:(lra)) as H5.
  pose proof (arctan_sum_error (1 / 239) n ltac:(lra)) as H239.
  assert (Hle : (1 / 239) ^ (2 * n + 1) <= (1 / 5) ^ (2 * n + 1)).
  { apply pow_incr. lra. }
  assert (Epi : PI = 4 * (4 * atan (1 / 5) - atan (1 / 239))).
  { pose proof Machin_4_5_239 as M.
    replace (1 / 5) with (/ 5) by lra. replace (1 / 239) with (/ 239) by lra.
    lra. }
  unfold SeriesSpec.machin. rewrite Epi.
  set (s5 := SeriesSpec.arctan_sum (1 / 5) (S n)) in *.
  set (s239 := SeriesSpec.arctan_sum (1 / 239) (S n)) in *.
  set (e5 := (1 / 5) ^ (2 * n + 1)) in *.
  set (e239 := (1 / 239) ^ (2 * n + 1)) in *.
  apply Rabs_le.
  unfold Rabs in H5, H239.
  destruct (Rcase_abs (s5 - atan (1 / 5)));
    destruct (Rcase_abs (s239 - atan (1 / 239))); lra.
Qed.

Lemma five_to_the_1999 : 20 * 10 ^ 1000 < 5 ^ 1999.
Proof.
  replace 1999%nat with (1 + 3 * 666)%nat by reflexivity.
  rewrite pow_add, pow_1, pow_mult.
  assert (H : 10 ^ 2 <= 5 ^ 3) by (simpl; lra).
  assert (H' : (10 ^ 2) ^ 666 <= (5 ^ 3) ^ 666).
  { apply pow_incr. split; [apply pow_le; lra|exact H]. }
  rewrite <- pow_mult in H'.
  replace (2 * 666)%nat with (1000 + 332)%nat in H' by reflexivity.
  rewrite pow_add in H'.
  assert (H1 : 10 ^ 1 <= 10 ^ 332) by (apply Rle_pow; [lra|lia]).
  rewrite pow_1 in H1.
  assert (H0 : 0 < 10 ^ 1000) by (apply pow_lt; lra).
  generalize dependent (10 ^ 1000). generalize dependent (10 ^ 332).
  generalize ((5 ^ 3) ^ 666). intros. nra.
Qed.

Lemma machin_margin d :
  20 * (1 / 5) ^ (2 * (d + 999) + 1) < / 10 ^ (d + 1000).
Proof.
  replace (2 * (d + 999) + 1)%nat with (2 * d + 1999)%nat by lia.
  replace (1 / 5) with (/ 5) by lra.
  rewrite pow_inv.
  assert (H10 : 0 < 10 ^ (d + 1000)) by (apply pow_lt; lra).
  assert (H5 : 0 < 5 ^ (2 * d + 1999)) by (apply pow_lt; lra).
  assert (K : 20 * 10 ^ (d + 1000) < 5 ^ (2 * d + 1999)).
  { rewrite !pow_add, pow_mult.
    assert (Hd : 10 ^ d <= (5 ^ 2) ^ d).
    { apply pow_incr. simpl. lra. }
    assert (Hd0 : 0 < 10 ^ d) by (apply pow_lt; lra).
    pose proof five_to_the_1999 as F.
    assert (H0 : 0 < 10 ^ 1000) by (apply pow_lt; lra).
    generalize dependent (10 ^ 1000). generalize dependent (5 ^ 1999).
    generalize dependent (10 ^ d). generalize ((5 ^ 2) ^ d). intros. nra. }
  apply (Rmult_lt_reg_r (10 ^ (d + 1000))); [exact H10|].
  rewrite Rinv_l by lra.
  apply (Rmult_lt_reg_r (5 ^ (2 * d + 1999))); [exact H5|].
  replace (20 * / 5 ^ (2 * d + 1999) * 10 ^ (d + 1000) * 5 ^ (2 * d + 1999))
    with (20 * 10 ^ (d + 1000)) by (field; lra).
  lra.
Qed.

End MachinConverges.

(** X7. In exact arithmetic the value the series kernel leaves in [pi]
    is within [10 ^ -(D + 1000)] of the number pi: the [D + 1000] terms of
    each sum are enough for the digits that were asked for, with a
    thousand digits to spare. *)
Theorem series_kernel_approximates_pi :
  forall (D : Z) (m : machine Exact.ops Series.var),
    1 <= D <= MAX_DIGITS -> vars m = [] ->
    exists v : R,
      Series.pi_value Exact.ops D m = Some v /\
      (Rabs (v - PI) < / 10 ^ (Z.to_nat D + 1000))%R.
Proof.
  intros D m HD Hm.
  destruct (numeric_phase_exact D m HD Hm) as (m1 & E1 & E2).
  exists (SeriesSpec.machin (Z.to_nat (D + 1000))). split.
  - unfold Series.pi_value. rewrite (bind_done _ _ _ _ _ E1), E2. reflexivity.
  - replace (Z.to_nat (D + 1000)) with (S (Z.to_nat D + 999)) by lia.
    eapply Rle_lt_trans; [apply machin_error|apply machin_margin].
Qed.

Lemma series_kernel_approximates_pi_witness :
  exists v : R,
    Series.pi_value Exact.ops 20 boot = Some v /\
    (Rabs (v - PI) < / 10 ^ (Z.to_nat 20 + 1000))%R.
Proof.
  apply (series_kernel_approximates_pi 20 boot);
    [unfold MAX_DIGITS; lia|reflexivity].
Defined.

(** ** Numerals: what [%llu] writes, [strtoull] reads back *)

Section Numerals.

Lemma digit_of_spec d :
  0 <= d < 10 ->
  is_digit (digit_of d) = true /\
  Z.of_nat (nat_of_ascii (digit_of d)) - 48 = d.
Proof.
  intros Hd.
  assert (C : d = 0 \/ d = 1 \/ d = 2 \/ d = 3 \/ d = 4 \/ d = 5 \/ d = 6
              \/ d = 7 \/ d = 8 \/ d = 9) by lia.
  repeat (destruct C as [->|C]; [split; reflexivity|]).
  subst d. split; reflexivity.
Qed.

Lemma digits_prefix_digit d s acc :
  0 <= d < 10 ->
  digits_prefix (String (digit_of d) s) acc = digits_prefix s (acc * 10 + d).
Proof.
  intros Hd. destruct (digit_of_spec d Hd) as [H1 H2].
  cbn [digits_prefix]. rewrite H1, H2. reflexivity.
Qed.

(** The digits written for [n] read back as [n], whatever follows. *)
Lemma digits_prefix_decimal_from fuel :
  forall n acc,
    0 <= n < 10 ^ (Z.of_nat fuel + 1) ->
    exists k,
      0 < k /\ n < 10 ^ k /\
      String.length (decimal_from fuel n acc)
      = (Z.to_nat k + String.length acc)%nat /\
      (String.length (decimal_from fuel n acc)
       <= S fuel + String.length acc)%nat /\
      forall a, digits_prefix (decimal_from fuel n acc) a
                = digits_prefix acc (a * 10 ^ k + n).
Proof.
  induction fuel as [|fuel IH]; intros n acc Hn.
  - exists 1. change (10 ^ (Z.of_nat 0 + 1)) with 10 in Hn.
    cbn [decimal_from]. rewrite Z.mod_small by lia.
    split; [lia|]. split; [lia|]. split; [reflexivity|].
    split; [simpl; lia|].
    intros a. rewrite digits_prefix_digit by lia. reflexivity.
  - cbn [decimal_from].
    pose proof (Z.mod_pos_bound n 10 ltac:(lia)) as Hm.
    pose proof (Z.div_mod n 10 ltac:(lia)) as Hdm.
    destruct (n / 10 =? 0) eqn:Hq.
    + apply Z.eqb_eq in Hq. exists 1.
      split; [lia|]. split; [lia|]. split; [reflexivity|].
      split; [simpl; lia|].
      intros a. rewrite digits_prefix_digit by lia.
      f_equal. lia.
    + apply Z.eqb_neq in Hq.
      destruct (IH (n / 10) (String (digit_of (n mod 10)) acc)) as
        (k & Hk & Hlt & Hlen & Hmax & Hval).
      { split; [apply Z.div_pos; lia|].
        apply Z.div_lt_upper_bound; [lia|].
        replace (Z.of_nat (S fuel) + 1) with (Z.succ (Z.of_nat fuel + 1)) in Hn
          by lia.
        rewrite Z.pow_succ_r in Hn by lia. lia. }
      exists (k + 1). rewrite Z.pow_add_r, Z.pow_1_r by lia.
      split; [lia|]. split; [lia|]. split; [|split].
      * rewrite Hlen. cbn [String.length]. lia.
      * cbn [String.length] in Hmax. lia.
      * intros a. rewrite Hval, digits_prefix_digit by lia. f_equal. lia.
Qed.

Lemma decimal_from_head fuel :
  forall n acc, exists c rest,
    decimal_from fuel n acc = String c rest /\ is_digit c = true.
Proof.
  induction fuel as [|fuel IH]; intros n acc; cbn [decimal_from].
  - do 2 eexists. split; [reflexivity|].
    apply digit_of_spec, Z.mod_pos_bound. lia.
  - destruct (n / 10 =? 0); [|apply IH].
    do 2 eexists. split; [reflexivity|].
    apply digit_of_spec, Z.mod_pos_bound. lia.
Qed.

Lemma decimal_from_app fuel :
  forall n acc, decimal_from fuel n acc = (decimal_from fuel n EmptyString ++ acc)%string.
Proof.
  assert (App : forall a b c : string, ((a ++ b) ++ c = a ++ b ++ c)%string).
  { induction a as [|x a IHa]; intros b c; simpl; [reflexivity|].
    rewrite IHa. reflexivity. }
  induction fuel as [|fuel IH]; intros n acc; cbn [decimal_from].
  - reflexivity.
  - destruct (n / 10 =? 0); [reflexivity|].
    rewrite IH. rewrite (IH (n / 10) (String _ EmptyString)). rewrite App. reflexivity.
Qed.

Lemma u64_range_decimal n : 0 <= n < 2 ^ 64 -> 0 <= n < 10 ^ (Z.of_nat 19 + 1).
Proof. intros H. change (10 ^ (Z.of_nat 19 + 1)) with (10 ^ 20). lia. Qed.

Lemma decimal_length n :
  0 <= n < 2 ^ 64 -> (1 <= String.length (decimal n) <= 20)%nat.
Proof.
  intros Hn. unfold decimal.
  destruct (digits_prefix_decimal_from 19 n EmptyString (u64_range_decimal n Hn))
    as (k & Hk & _ & Hlen & Hmax & _).
  cbn [String.length] in Hlen, Hmax. lia.
Qed.

(** What follows the numeral in a file name is not a digit. *)
Lemma digits_prefix_decimal_then n c rest :
  0 <= n < 2 ^ 64 -> is_digit c = false ->
  digits_prefix (decimal n ++ String c rest)%string 0 = (n, String c rest).
Proof.
  intros Hn Hc. unfold decimal. rewrite <- decimal_from_app.
  destruct (digits_prefix_decimal_from 19 n (String c rest)
              (u64_range_decimal n Hn)) as (k & _ & _ & _ & _ & Hval).
  rewrite Hval. cbn [digits_prefix]. rewrite Hc. reflexivity.
Qed.

Lemma digits_prefix_decimal n :
  0 <= n < 2 ^ 64 -> digits_prefix (decimal n) 0 = (n, EmptyString).
Proof.
  intros Hn. unfold decimal.
  destruct (digits_prefix_decimal_from 19 n EmptyString (u64_range_decimal n Hn))
    as (k & _ & _ & _ & _ & Hval).
  rewrite Hval. reflexivity.
Qed.

Lemma digit_is_plain c :
  is_digit c = true ->
  isspace c = false /\ Ascii.eqb c "-" = false /\ Ascii.eqb c "+" = false.
Proof.
  intros H. repeat split.
  - unfold is_digit in H. unfold isspace.
    apply andb_true_iff in H. destruct H as [H1 H2].
    apply Nat.leb_le in H1.
    apply orb_false_iff. split; [apply Nat.eqb_neq; lia|].
    apply andb_false_iff. right. apply Nat.leb_gt. lia.
  - destruct (Ascii.eqb_spec c "-") as [->|]; [discriminate H|reflexivity].
  - destruct (Ascii.eqb_spec c "+") as [->|]; [discriminate H|reflexivity].
Qed.

(** [strtoull] on a string that starts with a digit. *)
Lemma strtoull_digit_first c rest :
  is_digit c = true ->
  strtoull (String c rest)
  = (let '(v, rest') := digits_prefix (String c rest) 0 in
     (if ULLONG_MAX <? v then ULLONG_MAX else v, rest')).
Proof.
  intros Hc. destruct (digit_is_plain c Hc) as (Hs & Hm & Hp).
  unfold strtoull. cbn [skip_space]. rewrite Hs.
  assert (Esign :
    match String c rest with
    | String "-" r => (true, r)
    | String "+" r => (false, r)
    | _ => (false, String c rest)
    end = (false, String c rest)).
  { destruct c as [[] [] [] [] [] [] [] []];
      try discriminate Hm; try discriminate Hp; reflexivity. }
  rewrite Esign. rewrite Hc.
  destruct (digits_prefix (String c rest) 0) as [v rest']. reflexivity.
Qed.

Lemma strtoull_decimal n :
  0 <= n < 2 ^ 64 -> strtoull (decimal n) = (n, EmptyString).
Proof.
  intros Hn.
  destruct (decimal_from_head 19 n EmptyString) as (c & rest & Ed & Hc).
  pose proof (digits_prefix_decimal n Hn) as Hv.
  unfold decimal in *. rewrite Ed in *.
  rewrite (strtoull_digit_first c rest Hc), Hv.
  replace (ULLONG_MAX <? n) with false; [reflexivity|].
  symmetry. apply Z.ltb_ge. unfold ULLONG_MAX. lia.
Qed.

Lemma append_length (a b : string) :
  String.length (a ++ b)%string = (String.length a + String.length b)%nat.
Proof. induction a as [|c a IH]; simpl; [reflexivity|]. rewrite IH. reflexivity. Qed.

Lemma str_take_all n s : (String.length s <= n)%nat -> str_take n s = s.
Proof.
  revert n. induction s as [|c s IH]; intros n Hn.
  - destruct n; reflexivity.
  - destruct n as [|n]; simpl in *; [lia|]. rewrite IH by lia. reflexivity.
Qed.

Lemma append_cancel_l (p x y : string) : (p ++ x = p ++ y)%string -> x = y.
Proof.
  induction p as [|c p IH]; simpl; intros H; [exact H|].
  injection H as H. apply IH, H.
Qed.

End Numerals.

(** ** The result file *)

Lemma series_file_name_plain D :
  0 <= D < 2 ^ 64 ->
  SeriesProgram.file_name D = ("圆周率_" ++ decimal D ++ ".txt")%string.
Proof.
  intros HD. unfold SeriesProgram.file_name, snprintf.
  apply str_take_all. rewrite !append_length.
  pose proof (decimal_length D HD) as L.
  change (Z.to_nat (256 - 1)) with 255%nat.
  change (String.length "圆周率_") with 10%nat.
  change (String.length ".txt") with 4%nat. lia.
Qed.

Lemma iterative_file_name_plain D :
  1 <= D < 2 ^ 64 ->
  IterativeProgram.file_name D = ("圆周率_" ++ decimal D ++ "位.text")%string.
Proof.
  intros HD. unfold IterativeProgram.file_name, snprintf.
  replace (D =? 0) with false by (symmetry; apply Z.eqb_neq; lia).
  apply str_take_all. rewrite !append_length.
  pose proof (decimal_length D ltac:(lia)) as L.
  change (Z.to_nat (256 - 1)) with 255%nat.
  change (String.length "圆周率_") with 10%nat.
  change (String.length "位.text") with 8%nat. lia.
Qed.

(** X8. The name of the result file tells the digit count: two counts
    never share a file, in either program, and the iterative program's
    name for a count is never the name it keeps for the count 0, which
    [save_pi_to_file] cannot reach. *)
Theorem result_files_are_told_apart :
  forall D1 D2 : Z,
    1 <= D1 < 2 ^ 64 -> 1 <= D2 < 2 ^ 64 ->
    (SeriesProgram.file_name D1 = SeriesProgram.file_name D2 -> D1 = D2) /\
    (IterativeProgram.file_name D1 = IterativeProgram.file_name D2 -> D1 = D2) /\
    IterativeProgram.file_name D1 <> IterativeProgram.file_name 0.
Proof.
  intros D1 D2 H1 H2. split; [|split].
  - rewrite !series_file_name_plain by lia. intros H.
    apply append_cancel_l in H.
    apply (f_equal (fun s => fst (digits_prefix s 0))) in H.
    rewrite !(digits_prefix_decimal_then _ "."%char "txt") in H
      by (lia || reflexivity).
    exact H.
  - rewrite !iterative_file_name_plain by lia. intros H.
    apply append_cancel_l in H.
    apply (f_equal (fun s => fst (digits_prefix s 0))) in H.
    change "位.text"%string
      with (String (ascii_of_nat 228) (String (ascii_of_nat 189)
             (String (ascii_of_nat 141) ".text"))) in H.
    rewrite !digits_prefix_decimal_then in H by (lia || reflexivity).
    exact H.
  - rewrite iterative_file_name_plain by lia.
    change (IterativeProgram.file_name 0) with ("圆周率_" ++ "永远.text")%string.
    intros H. apply append_cancel_l in H.
    destruct (decimal_from_head 19 D1 EmptyString) as (c & rest & Ed & Hc).
    unfold decimal in H. rewrite Ed in H.
    injection H as Hc' _. subst c. discriminate Hc.
Qed.

Lemma result_files_are_told_apart_witness :
  (SeriesProgram.file_name 1000 = SeriesProgram.file_name 2000 -> 1000 = 2000) /\
  (IterativeProgram.file_name 1000 = IterativeProgram.file_name 2000
   -> 1000 = 2000) /\
  IterativeProgram.file_name 1000 <> IterativeProgram.file_name 0.
Proof.
  apply (result_files_are_told_apart 1000 2000); lia.
Defined.

(** ** The two [main] functions *)

Lemma on_machine_done {A V T} (c : M (machine A V) T) m o x m' :
  c m = Done x m' -> on_machine c (World A V m o) = Done x (World A V m' o).
Proof. intros H. unfold on_machine. rewrite H. reflexivity. Qed.

Lemma on_outside_done {A V T} (c : M outside T) (m : machine A V) o x o' :
  c o = Done x o' -> on_outside c (World A V m o) = Done x (World A V m o').
Proof. intros H. unfold on_outside. rewrite H. reflexivity. Qed.

Lemma numeral_is_no_option n t :
  (decimal n =? String "-" t)%string = false.
Proof.
  destruct (decimal_from_head 19 n EmptyString) as (c & rest & Ed & Hc).
  unfold decimal. rewrite Ed. cbn [String.eqb].
  destruct (digit_is_plain c Hc) as (_ & -> & _). reflexivity.
Qed.

Lemma decimal_not_empty n : (decimal n =? EmptyString)%string = false.
Proof.
  destruct (decimal_from_head 19 n EmptyString) as (c & rest & Ed & Hc).
  unfold decimal. rewrite Ed. reflexivity.
Qed.

(** With the numeral of a count as its argument, [main] goes on to the
    computation with that count. *)
Lemma series_main_numeral (P : Provider) sys prog n w :
  1 <= n < 2 ^ 64 ->
  SeriesProgram.main P sys [prog; decimal n] w
  = SeriesProgram.compute P sys n w.
Proof.
  intros Hn. unfold SeriesProgram.main.
  cbn [List.length nth].
  change (2 <? Z.of_nat 2) with false. change (Z.of_nat 2 =? 2) with true.
  cbv iota.
  rewrite !numeral_is_no_option. cbn [orb].
  rewrite strtoull_decimal by lia.
  replace (n =? 0) with false by (symmetry; apply Z.eqb_neq; lia).
  reflexivity.
Qed.

Lemma iterative_main_numeral (P : Provider) sys fuel rounds prog n w :
  1 <= n < 2 ^ 64 ->
  IterativeProgram.main P sys fuel rounds [prog; decimal n] w
  = IterativeProgram.run P sys fuel rounds false n w.
Proof.
  intros Hn. unfold IterativeProgram.main.
  cbn [List.length nth].
  change (2 <? Z.of_nat 2) with false. change (Z.of_nat 2 =? 1) with false.
  change (Z.of_nat 2 =? 2) with true.
  cbv iota.
  rewrite !numeral_is_no_option. cbn [orb].
  rewrite strtoull_decimal by lia.
  replace (n =? 0) with false by (symmetry; apply Z.eqb_neq; lia).
  reflexivity.
Qed.

(** X9. A digit count above the maximum: the series program announces
    the computation, reports its failure and exits with status 0; the
    iterative program refuses the count and exits with status 1.  Neither
    touches the arithmetic or writes a file. *)
Theorem count_above_the_maximum :
  forall (P : Provider) (ss si : os) (fuel rounds : nat) (prog : string)
         (n : Z) (ws : world P Series.var) (wi : world P Iterative.var),
    MAX_DIGITS < n < 2 ^ 64 ->
    SeriesProgram.main P ss [prog; decimal n] ws
    = Done 0
        {| mach := mach ws;
           out := {| journal := journal (out ws)
                                ++ [Printed (MsgComputing n); Printed MsgFailed];
                     files := files (out ws) |} |} /\
    IterativeProgram.main P si fuel rounds [prog; decimal n] wi
    = Done 1
        {| mach := mach wi;
           out := {| journal := journal (out wi) ++ [Printed MsgOutOfRange];
                     files := files (out wi) |} |}.
Proof.
  intros P ss si fuel rounds prog n [ms [js fs]] [mi [ji fi]] Hn.
  assert (Hhi : (MAX_DIGITS <? n) = true) by (apply Z.ltb_lt; lia).
  unfold MAX_DIGITS in Hn.
  split.
  - rewrite series_main_numeral by lia.
    unfold SeriesProgram.compute, Series.calculate_pi_digits.
    rewrite Hhi, orb_true_r.
    cbn. rewrite <- app_assoc. reflexivity.
  - rewrite iterative_main_numeral by lia.
    unfold IterativeProgram.run. rewrite Hhi, orb_true_r. reflexivity.
Qed.

Lemma count_above_the_maximum_witness :
  SeriesProgram.main Ref.provider
    (calm (SeriesProgram.msgid_footer "Jan  1 2025"))
    ["superpi"; "100000000"]%string start
  = Done 0
      {| mach := boot;
         out := {| journal := [Printed (MsgComputing 100000000); Printed MsgFailed];
                   files := [] |} |} /\
  IterativeProgram.main Ref.provider
    (calm (IterativeProgram.msgid_footer "Jan  1 2025"))
    100 1 ["superpi"; "100000000"]%string start
  = Done 1
      {| mach := boot;
         out := {| journal := [Printed MsgOutOfRange]; files := [] |} |}.
Proof.
  apply (count_above_the_maximum Ref.provider _ _ 100 1 "superpi" 100000000
           start start).
  unfold MAX_DIGITS. lia.
Defined.

Lemma series_call_cut (P : Provider) (E : env) (D : Z) (ip fr : string)
      (ms : machine P Series.var) :
  1 <= D <= MAX_DIGITS -> malloc_ok E = true ->
  strchr ip "." = None -> (String.length ip <= 8)%nat ->
  String.length fr = Z.to_nat (D + 1) ->
  vars ms = [] ->
  Series.rendered P D ms = Some (ip ++ String "." fr)%string ->
  exists ms',
    Series.calculate_pi_digits P E D true ms
    = Done (D, Buffer (str_take (Z.to_nat D) fr)) ms' /\
    vars ms' = [] /\ trace ms' = trace ms ++ Series.call_trace E D.
Proof.
  intros HD Hmalloc Hip Hlen Hfr Hms Hr.
  destruct (SeriesFacts.series_call_spec P E D ms HD Hms)
    as (v & ms' & Hv & Hc & Hvars & _ & Ht).
  unfold Series.rendered in Hr. rewrite Hv in Hr. simpl in Hr.
  injection Hr as Hr. rewrite Hmalloc, Hr in Hc.
  rewrite extract_digits_point in Hc by assumption.
  exists ms'. auto.
Qed.

Lemma iterative_call_cut (P : Provider) (E : env) (fuel : nat) (D : Z)
      (ip fr : string) (mi : machine P Iterative.var) :
  1 <= D <= MAX_DIGITS -> malloc_ok E = true ->
  strchr ip "." = None -> (String.length ip <= 8)%nat ->
  String.length fr = Z.to_nat (D + 1) ->
  vars mi = [] ->
  Iterative.rendered P E fuel D mi = Some (ip ++ String "." fr)%string ->
  exists mi' chat,
    Iterative.calculate_pi_digits P E fuel D true mi
    = Done (D, Buffer (str_take (Z.to_nat D) fr)) mi' /\
    vars mi' = [] /\ Forall Iterative.chatter chat /\
    trace mi' = trace mi ++ Iterative.call_trace E D chat.
Proof.
  intros HD Hmalloc Hip Hlen Hfr Hmi Hr.
  unfold Iterative.rendered, Iterative.pi_value in Hr.
  destruct (Iterative.numeric_phase P E fuel D mi) as [[] m1| |] eqn:Hrun;
    try (unfold bind in Hr; rewrite Hrun in Hr; discriminate Hr).
  destruct (IterativeFacts.iterative_call_spec P E fuel D mi m1 HD Hmi Hrun)
    as (v & mi' & chat & Hv & Hc & Hvars & _ & Hchat & Ht).
  unfold Iterative.pi_value in Hv.
  destruct (bind (Iterative.numeric_phase P E fuel D)
              (fun _ => load P Iterative.var Iterative.var_eqb Iterative.pi) mi)
    as [v' ?| |]; try discriminate Hv.
  injection Hv as ->. simpl in Hr. injection Hr as Hr.
  rewrite Hmalloc, Hr in Hc.
  rewrite extract_digits_point in Hc by assumption.
  exists mi', chat. auto.
Qed.

(** What [main] does with a buffer of at least [D] characters. *)
Lemma series_report_saved sys D s j fs :
  1 <= D < 2 ^ 64 -> (Z.to_nat D <= String.length s)%nat ->
  fopen_ok sys (SeriesProgram.file_name D) = true ->
  bind (say (MsgCompleted D))
    (fun _ => bind (SeriesProgram.save_pi_to_file sys (Some s) D)
                (fun _ => free (Some s)))
    (Outside j fs)
  = Done tt
      (Outside
         (j ++ [Printed (MsgCompleted D);
                Printed (MsgSavedTo (SeriesProgram.file_name D)); Free s])
         ((SeriesProgram.file_name D,
           ("3." ++ str_take (Z.to_nat D) s ++ nl ++ nl ++ footer sys D)%string)
          :: fs)).
Proof.
  intros HD Hs Hopen.
  unfold SeriesProgram.save_pi_to_file.
  replace (D <=? 0) with false by (symmetry; apply Z.leb_gt; lia).
  rewrite Hopen.
  replace (String.length s <? Z.to_nat D)%nat with false
    by (symmetry; apply Nat.ltb_ge; exact Hs).
  cbn [negb].
  generalize (SeriesProgram.file_name D) as name. intros name.
  unfold bind, say, write_file, free. unfold act.
  rewrite <- !app_assoc. reflexivity.
Qed.

Lemma iterative_report_saved sys D s j fs :
  1 <= D < 2 ^ 64 -> (Z.to_nat D <= String.length s)%nat ->
  fopen_ok sys (IterativeProgram.file_name D) = true ->
  bind (say (MsgCompleted D))
    (fun _ => bind (IterativeProgram.save_pi_to_file sys (Some s) D)
                (fun _ => free (Some s)))
    (Outside j fs)
  = Done tt
      (Outside
         (j ++ [Printed (MsgCompleted D);
                Printed (MsgSavedTo (IterativeProgram.file_name D)); Free s])
         ((IterativeProgram.file_name D,
           ("3." ++ str_take (Z.to_nat D) s ++ nl ++ nl ++ footer sys D)%string)
          :: fs)).
Proof.
  intros HD Hs Hopen.
  unfold IterativeProgram.save_pi_to_file.
  replace (D <=? 0) with false by (symmetry; apply Z.leb_gt; lia).
  rewrite Hopen.
  replace (String.length s <? Z.to_nat D)%nat with false
    by (symmetry; apply Nat.ltb_ge; exact Hs).
  cbn [negb].
  generalize (IterativeProgram.file_name D) as name. intros name.
  unfold bind, say, write_file, free. unfold act.
  rewrite <- !app_assoc. reflexivity.
Qed.

(** The computation and its report, once the call has returned [D] and a
    buffer of at least [D] characters. *)
Lemma series_compute_saved (P : Provider) sys D s m m' j fs :
  1 <= D < 2 ^ 64 -> (Z.to_nat D <= String.length s)%nat ->
  fopen_ok sys (SeriesProgram.file_name D) = true ->
  Series.calculate_pi_digits P (call_env sys 0) D true m
  = Done (D, Buffer s) m' ->
  SeriesProgram.compute P sys D (World P Series.var m (Outside j fs))
  = Done 0
      (World P Series.var m'
         (Outside
            (j ++ [Printed (MsgComputing D); Printed (MsgCompleted D);
                   Printed (MsgSavedTo (SeriesProgram.file_name D)); Free s])
            ((SeriesProgram.file_name D,
              ("3." ++ str_take (Z.to_nat D) s ++ nl ++ nl
                    ++ footer sys D)%string) :: fs))).
Proof.
  intros HD Hs Hopen Hc.
  unfold SeriesProgram.compute.
  rewrite (bind_done _ _ _ _ _
             (on_outside_done (say (MsgComputing D)) m (Outside j fs) tt _
                eq_refl)).
  rewrite (bind_done _ _ _ _ _ (on_machine_done _ _ _ _ _ Hc)).
  cbv beta iota. cbn [pointer non_null].
  replace (0 <? D) with true by (symmetry; apply Z.ltb_lt; lia).
  cbn [andb].
  rewrite (bind_done _ _ _ _ _
             (on_outside_done _ _ _ _ _
                (series_report_saved sys D s _ _ HD Hs Hopen))).
  unfold ret. rewrite <- !app_assoc. reflexivity.
Qed.

Lemma iterative_compute_saved (P : Provider) sys fuel D s m m' j fs :
  1 <= D < 2 ^ 64 -> (Z.to_nat D <= String.length s)%nat ->
  fopen_ok sys (IterativeProgram.file_name D) = true ->
  Iterative.calculate_pi_digits P (call_env sys 0) fuel D true m
  = Done (D, Buffer s) m' ->
  IterativeProgram.compute P sys fuel D (World P Iterative.var m (Outside j fs))
  = Done 0
      (World P Iterative.var m'
         (Outside
            (j ++ [Printed (MsgComputing D); Printed MsgStartTime;
                   Printed (MsgCompleted D);
                   Printed (MsgSavedTo (IterativeProgram.file_name D)); Free s])
            ((IterativeProgram.file_name D,
              ("3." ++ str_take (Z.to_nat D) s ++ nl ++ nl
                    ++ footer sys D)%string) :: fs))).
Proof.
  intros HD Hs Hopen Hc.
  unfold IterativeProgram.compute.
  rewrite (bind_done _ _ _ _ _
             (on_outside_done
                (bind (say (MsgComputing D)) (fun _ => say MsgStartTime))
                m (Outside j fs) tt _ eq_refl)).
  rewrite (bind_done _ _ _ _ _ (on_machine_done _ _ _ _ _ Hc)).
  cbv beta iota. cbn [pointer non_null].
  replace (0 <? D) with true by (symmetry; apply Z.ltb_lt; lia).
  cbn [andb].
  rewrite (bind_done _ _ _ _ _
             (on_outside_done _ _ _ _ _
                (iterative_report_saved sys D s _ _ HD Hs Hopen))).
  unfold ret. rewrite <- !app_assoc. reflexivity.
Qed.

(** The run of the series program on the numeral of [D], when the
    rendering has a point and [D + 1] digits behind it. *)
Lemma series_main_saved (P : Provider) sys prog D ip fr m j fs :
  1 <= D <= MAX_DIGITS ->
  malloc_ok (call_env sys 0) = true ->
  fopen_ok sys (SeriesProgram.file_name D) = true ->
  strchr ip "." = None -> (String.length ip <= 8)%nat ->
  String.length fr = Z.to_nat (D + 1) ->
  vars m = [] ->
  Series.rendered P D m = Some (ip ++ String "." fr)%string ->
  exists m',
    SeriesProgram.main P sys [prog; decimal D]
      (World P Series.var m (Outside j fs))
    = Done 0
        (World P Series.var m'
           (Outside
              (j ++ [Printed (MsgComputing D); Printed (MsgCompleted D);
                     Printed (MsgSavedTo (SeriesProgram.file_name D));
                     Free (str_take (Z.to_nat D) fr)])
              ((SeriesProgram.file_name D,
                ("3." ++ str_take (Z.to_nat D) fr ++ nl ++ nl
                      ++ footer sys D)%string) :: fs))) /\
    vars m' = [] /\
    trace m' = trace m ++ Series.call_trace (call_env sys 0) D.
Proof.
  intros HD Hmalloc Hopen Hip Hlen Hfr Hm Hr.
  destruct (series_call_cut P (call_env sys 0) D ip fr m HD Hmalloc Hip Hlen
              Hfr Hm Hr) as (m' & Hc & Hv & Ht).
  assert (Hd : String.length (str_take (Z.to_nat D) fr) = Z.to_nat D).
  { apply str_take_length. rewrite Hfr. lia. }
  unfold MAX_DIGITS in HD.
  exists m'. split; [|split; [exact Hv|exact Ht]].
  rewrite series_main_numeral by lia.
  rewrite (series_compute_saved P sys D _ m m' j fs ltac:(lia)
             ltac:(rewrite Hd; lia) Hopen Hc).
  rewrite str_take_take by lia. reflexivity.
Qed.

(** X10. The series program, end to end: given the numeral of an
    admissible count [D], a rendering of the value with a point and
    [D + 1] digits behind it, and a successful [malloc] and [fopen], [main]
    writes the file named after [D] with ["3."], the [D] digits, an empty
    line and the footer, announces and reports the computation, frees the
    buffer and exits with status 0. *)
Theorem series_main_saves_the_digits :
  forall (P : Provider) (sys : os) (prog : string) (D : Z) (ip fr : string)
         (w : world P Series.var),
    1 <= D <= MAX_DIGITS ->
    malloc_ok (call_env sys 0) = true ->
    fopen_ok sys (SeriesProgram.file_name D) = true ->
    strchr ip "." = None -> (String.length ip <= 8)%nat ->
    String.length fr = Z.to_nat (D + 1) ->
    vars (mach w) = [] ->
    Series.rendered P D (mach w) = Some (ip ++ String "." fr)%string ->
    let digits := str_take (Z.to_nat D) fr in
    exists m',
      SeriesProgram.main P sys [prog; decimal D] w
      = Done 0
          {| mach := m';
             out := {| journal :=
                         journal (out w)
                         ++ [Printed (MsgComputing D); Printed (MsgCompleted D);
                             Printed (MsgSavedTo (SeriesProgram.file_name D));
                             Free digits];
                       files :=
                         (SeriesProgram.file_name D,
                          ("3." ++ digits ++ nl ++ nl ++ footer sys D)%string)
                         :: files (out w) |} |} /\
      vars m' = [] /\
      String.length digits = Z.to_nat D.
Proof.
  intros P sys prog D ip fr [m [j fs]] HD Hmalloc Hopen Hip Hlen Hfr Hm Hr digits.
  cbn [mach out journal files] in *.
  destruct (series_main_saved P sys prog D ip fr m j fs HD Hmalloc Hopen Hip
              Hlen Hfr Hm Hr) as (m' & Hrun & Hv & _).
  exists m'. split; [exact Hrun|]. split; [exact Hv|].
  apply str_take_length. rewrite Hfr. lia.
Qed.

Lemma series_main_saves_the_digits_witness :
  exists m',
    SeriesProgram.main Ref.provider
      (calm (SeriesProgram.msgid_footer "Jan  1 2025"))
      ["superpi"; "20"]%string start
    = Done 0
        {| mach := m';
           out := {| journal :=
                       [Printed (MsgComputing 20); Printed (MsgCompleted 20);
                        Printed (MsgSavedTo "圆周率_20.txt");
                        Free "14159265358979323846"];
                     files :=
                       [("圆周率_20.txt"%string,
                         ("3." ++ "14159265358979323846" ++ nl ++ nl
                               ++ "由SuperPi计算" ++ nl ++ "位数: 20" ++ nl
                               ++ "算法: 实际计算" ++ nl
                               ++ "日期: Jan  1 2025")%string)] |} |} /\
    vars m' = [] /\
    String.length "14159265358979323846" = Z.to_nat 20.
Proof.
  apply (series_main_saves_the_digits Ref.provider
           (calm (SeriesProgram.msgid_footer "Jan  1 2025")) "superpi" 20
           "3" "141592653589793238463" start).
  - unfold MAX_DIGITS. lia.
  - reflexivity.
  - reflexivity.
  - reflexivity.
  - simpl. lia.
  - reflexivity.
  - reflexivity.
  - exact series_rendering_20.
Defined.

(** X11. The iterative program, end to end, outside the keep mode: with
    the numeral of an admissible count [D] as its argument, or with [D]
    typed at the prompt, and under the same conditions as for the series
    program, [main] writes the file named after [D] with ["3."], the [D]
    digits, an empty line and the footer, frees the buffer and exits with
    status 0. *)
Theorem iterative_main_saves_the_digits :
  forall (P : Provider) (sys : os) (fuel rounds : nat) (prog : string) (D : Z)
         (ip fr : string) (w : world P Iterative.var),
    1 <= D <= MAX_DIGITS ->
    malloc_ok (call_env sys 0) = true ->
    fopen_ok sys (IterativeProgram.file_name D) = true ->
    strchr ip "." = None -> (String.length ip <= 8)%nat ->
    String.length fr = Z.to_nat (D + 1) ->
    vars (mach w) = [] ->
    Iterative.rendered P (call_env sys 0) fuel D (mach w)
    = Some (ip ++ String "." fr)%string ->
    let digits := str_take (Z.to_nat D) fr in
    let report :=
      [Printed (MsgComputing D); Printed MsgStartTime; Printed (MsgCompleted D);
       Printed (MsgSavedTo (IterativeProgram.file_name D)); Free digits] in
    let saved :=
      (IterativeProgram.file_name D,
       ("3." ++ digits ++ nl ++ nl ++ footer sys D)%string)
      :: files (out w) in
    exists m',
      IterativeProgram.main P sys fuel rounds [prog; decimal D] w
      = Done 0 {| mach := m';
                  out := {| journal := journal (out w) ++ report;
                            files := saved |} |} /\
      (scanf_lu sys = Some D ->
       IterativeProgram.main P sys fuel rounds [prog] w
       = Done 0 {| mach := m';
                   out := {| journal := journal (out w)
                                        ++ Printed MsgPrompt :: report;
                             files := saved |} |}) /\
      vars m' = [] /\
      String.length digits = Z.to_nat D.
Proof.
  intros P sys fuel rounds prog D ip fr [m [j fs]] HD Hmalloc Hopen Hip Hlen
         Hfr Hm Hr digits report saved.
  cbn [mach out journal files] in *.
  destruct (iterative_call_cut P (call_env sys 0) fuel D ip fr m HD Hmalloc
              Hip Hlen Hfr Hm Hr) as (m' & chat & Hc & Hv & _).
  assert (Hd : String.length digits = Z.to_nat D).
  { unfold digits. apply str_take_length. rewrite Hfr. lia. }
  assert (Hrange : (negb false && ((D <=? 0) || (MAX_DIGITS <? D))) = false).
  { cbn [negb andb]. apply orb_false_iff. unfold MAX_DIGITS in *.
    split; [apply Z.leb_gt|apply Z.ltb_ge]; lia. }
  unfold MAX_DIGITS in HD.
  assert (Hrun : forall j0,
            IterativeProgram.run P sys fuel rounds false D
              (World P Iterative.var m (Outside j0 fs))
            = Done 0
                (World P Iterative.var m' (Outside (j0 ++ report) saved))).
  { intros j0. unfold IterativeProgram.run. rewrite Hrange. cbv iota.
    rewrite (iterative_compute_saved P sys fuel D digits m m' j0 fs
               ltac:(lia) ltac:(rewrite Hd; lia) Hopen Hc).
    replace (str_take (Z.to_nat D) digits) with digits
      by (unfold digits; rewrite str_take_take by lia; reflexivity).
    reflexivity. }
  exists m'. split; [|split; [|split; [exact Hv|exact Hd]]].
  - rewrite iterative_main_numeral by lia. apply Hrun.
  - intros Hscan. unfold IterativeProgram.main.
    cbn [List.length nth].
    change (2 <? Z.of_nat 1) with false. change (Z.of_nat 1 =? 1) with true.
    cbv iota. rewrite Hscan.
    cbn [negb andb] in Hrange. rewrite Hrange.
    rewrite (bind_done _ _ _ _ _
               (on_outside_done (say MsgPrompt) m (Outside j fs) tt _ eq_refl)).
    rewrite Hrun. rewrite <- app_assoc. reflexivity.
Qed.

Lemma iterative_main_saves_the_digits_witness :
  exists m',
    IterativeProgram.main Ref.provider
      (typing 20 (calm (IterativeProgram.msgid_footer "Jan  1 2025"))) 100 1
      ["superpi"; "20"]%string start
    = Done 0
        {| mach := m';
           out := {| journal :=
                       [Printed (MsgComputing 20); Printed MsgStartTime;
                        Printed (MsgCompleted 20);
                        Printed (MsgSavedTo "圆周率_20位.text");
                        Free "14159265358979323846"];
                     files :=
                       [("圆周率_20位.text"%string,
                         ("3." ++ "14159265358979323846" ++ nl ++ nl
                               ++ "由SuperPi计算" ++ nl ++ "位数: 20" ++ nl
                               ++ "算法: Gauss-Legendre" ++ nl
                               ++ "日期: Jan  1 2025" ++ nl)%string)] |} |} /\
    IterativeProgram.main Ref.provider
      (typing 20 (calm (IterativeProgram.msgid_footer "Jan  1 2025"))) 100 1
      ["superpi"%string] start
    = Done 0
        {| mach := m';
           out := {| journal :=
                       [Printed MsgPrompt;
                        Printed (MsgComputing 20); Printed MsgStartTime;
                        Printed (MsgCompleted 20);
                        Printed (MsgSavedTo "圆周率_20位.text");
                        Free "14159265358979323846"];
                     files :=
                       [("圆周率_20位.text"%string,
                         ("3." ++ "14159265358979323846" ++ nl ++ nl
                               ++ "由SuperPi计算" ++ nl ++ "位数: 20" ++ nl
                               ++ "算法: Gauss-Legendre" ++ nl
                               ++ "日期: Jan  1 2025" ++ nl)%string)] |} |}.
Proof.
  destruct (iterative_main_saves_the_digits Ref.provider
              (typing 20 (calm (IterativeProgram.msgid_footer "Jan  1 2025")))
              100 1 "superpi" 20 "3" "141592653589793238463" start)
    as (m' & Harg & Htyped & _).
  - unfold MAX_DIGITS. lia.
  - reflexivity.
  - reflexivity.
  - reflexivity.
  - simpl. lia.
  - reflexivity.
  - reflexivity.
  - vm_compute. reflexivity.
  - exists m'. split; [exact Harg|exact (Htyped eq_refl)].
Defined.

(** ** What the journal and the trace count *)

Lemma asked_app j1 j2 : asked (j1 ++ j2) = asked j1 ++ asked j2.
Proof.
  induction j1 as [|a j1 IH]; [reflexivity|].
  destruct a as [[]| |]; simpl; rewrite IH; reflexivity.
Qed.

Lemma freed_app j1 j2 : freed (j1 ++ j2) = (freed j1 + freed j2)%nat.
Proof. unfold freed. rewrite filter_app, length_app. reflexivity. Qed.

Lemma allocated_app {V} (t1 t2 : list (event V)) :
  allocated (t1 ++ t2) = (allocated t1 + allocated t2)%nat.
Proof. unfold allocated. rewrite filter_app, length_app. reflexivity. Qed.

Lemma allocated_series_call E D :
  allocated (Series.call_trace E D) = if malloc_ok E then 1%nat else 0%nat.
Proof. unfold Series.call_trace. destruct (malloc_ok E); reflexivity. Qed.

Lemma allocated_iterative_call E D chat :
  Forall Iterative.chatter chat ->
  allocated (Iterative.call_trace E D chat)
  = if malloc_ok E then 1%nat else 0%nat.
Proof.
  intros Hchat. unfold Iterative.call_trace, allocated.
  change (EvSetPrec (working_precision D) :: map EvInit Iterative.all_vars
          ++ chat ++ EvMalloc (D + 10) (malloc_ok E)
             :: map EvClear Iterative.all_vars)
    with ((EvSetPrec (working_precision D) :: map EvInit Iterative.all_vars)
          ++ chat ++ EvMalloc (D + 10) (malloc_ok E)
             :: map EvClear Iterative.all_vars).
  rewrite !filter_app, !length_app.
  rewrite (chatter_filter _ chat) by
    (try exact Hchat; intros [] He; (reflexivity || destruct He)).
  destruct (malloc_ok E); reflexivity.
Qed.

(** [save_pi_to_file] announces no computation and frees nothing. *)
Lemma series_save_effect sys p D o o' :
  SeriesProgram.save_pi_to_file sys p D o = Done tt o' ->
  asked (journal o') = asked (journal o) /\
  freed (journal o') = freed (journal o).
Proof.
  unfold SeriesProgram.save_pi_to_file. destruct o as [j fs].
  destruct p as [s|]; [|intros H; injection H as <-; auto].
  destruct (D <=? 0); [intros H; injection H as <-; auto|].
  destruct (negb (fopen_ok sys (SeriesProgram.file_name D))).
  - intros H. injection H as <-. cbn [journal].
    rewrite asked_app, freed_app, app_nil_r. cbn. auto.
  - destruct (String.length s <? Z.to_nat D)%nat; [discriminate|].
    intros H. injection H as <-. cbn [journal].
    rewrite asked_app, freed_app, app_nil_r. cbn. auto.
Qed.

Lemma iterative_save_effect sys p D o o' :
  IterativeProgram.save_pi_to_file sys p D o = Done tt o' ->
  asked (journal o') = asked (journal o) /\
  freed (journal o') = freed (journal o).
Proof.
  unfold IterativeProgram.save_pi_to_file. destruct o as [j fs].
  destruct p as [s|]; [|intros H; injection H as <-; auto].
  destruct (D <=? 0); [intros H; injection H as <-; auto|].
  destruct (negb (fopen_ok sys (IterativeProgram.file_name D))).
  - intros H. injection H as <-. cbn [journal].
    rewrite asked_app, freed_app, app_nil_r. cbn. auto.
  - destruct (String.length s <? Z.to_nat D)%nat; [discriminate|].
    intros H. injection H as <-. cbn [journal].
    rewrite asked_app, freed_app, app_nil_r. cbn. auto.
Qed.

(** What a call that has returned can have returned. *)
Lemma series_call_done (P : Provider) E D (m : machine P Series.var) :
  vars m = [] ->
  exists r m',
    Series.calculate_pi_digits P E D true m = Done r m' /\
    vars m' = [] /\
    ((1 <= D <= MAX_DIGITS /\
      (exists s, r = if malloc_ok E then (D, Buffer s) else (0, Null)) /\
      allocated (trace m')
      = (allocated (trace m) + if malloc_ok E then 1 else 0)%nat)
     \/ (r = (0, Unchanged) /\ m' = m)).
Proof.
  intros Hm.
  destruct (Z_le_gt_dec 1 D) as [H1|H1];
    [destruct (Z_le_gt_dec D MAX_DIGITS) as [H2|H2]|].
  - destruct (SeriesFacts.series_call_spec P E D m (conj H1 H2) Hm)
      as (v & m' & _ & Hc & Hv & _ & Ht).
    eexists _, m'. split; [exact Hc|]. split; [exact Hv|]. left.
    split; [lia|]. split; [eexists; reflexivity|].
    rewrite Ht, allocated_app, allocated_series_call. reflexivity.
  - exists (0, Unchanged), m. split; [|split; [exact Hm|right; auto]].
    unfold Series.calculate_pi_digits.
    replace (MAX_DIGITS <? D) with true by (symmetry; apply Z.ltb_lt; lia).
    rewrite orb_true_r. reflexivity.
  - exists (0, Unchanged), m. split; [|split; [exact Hm|right; auto]].
    unfold Series.calculate_pi_digits.
    replace (D <=? 0) with true by (symmetry; apply Z.leb_le; lia).
    reflexivity.
Qed.

Lemma iterative_call_done (P : Provider) E fuel D (m : machine P Iterative.var)
      r m' :
  1 <= D <= MAX_DIGITS -> vars m = [] ->
  Iterative.calculate_pi_digits P E fuel D true m = Done r m' ->
  vars m' = [] /\
  (exists s, r = if malloc_ok E then (D, Buffer s) else (0, Null)) /\
  allocated (trace m')
  = (allocated (trace m) + if malloc_ok E then 1 else 0)%nat.
Proof.
  intros HD Hm Hc.
  destruct (Iterative.numeric_phase P E fuel D m) as [[] m1| |] eqn:Hrun.
  - destruct (IterativeFacts.iterative_call_spec P E fuel D m m1 HD Hm Hrun)
      as (v & m'' & chat & _ & Hc' & Hv & _ & Hchat & Ht).
    rewrite Hc' in Hc. injection Hc as <- <-.
    split; [exact Hv|]. split; [eexists; reflexivity|].
    rewrite Ht, allocated_app, allocated_iterative_call by exact Hchat.
    reflexivity.
  - exfalso. revert Hc. unfold Iterative.calculate_pi_digits.
    replace (negb true || (D <=? 0) || (MAX_DIGITS <? D)) with false
      by (unfold MAX_DIGITS in *; symmetry; apply orb_false_iff; split;
          [apply Z.leb_gt|apply Z.ltb_ge]; lia).
    cbv iota. unfold bind at 1. rewrite Hrun. discriminate.
  - exfalso. revert Hc. unfold Iterative.calculate_pi_digits.
    replace (negb true || (D <=? 0) || (MAX_DIGITS <? D)) with false
      by (unfold MAX_DIGITS in *; symmetry; apply orb_false_iff; split;
          [apply Z.leb_gt|apply Z.ltb_ge]; lia).
    cbv iota. unfold bind at 1. rewrite Hrun. discriminate.
Qed.

Lemma saved_outside_effect sys c s o1 o2 :
  bind (say (MsgCompleted c))
    (fun _ => bind (IterativeProgram.save_pi_to_file sys (Some s) c)
       (fun _ => bind (free (Some s)) (fun _ => act (Sleep 1)))) o1
  = Done tt o2 ->
  asked (journal o2) = asked (journal o1) /\
  freed (journal o2) = S (freed (journal o1)).
Proof.
  destruct o1 as [j fs]. unfold bind at 1. cbn [say act].
  unfold bind at 1.
  destruct (IterativeProgram.save_pi_to_file sys (Some s) c
              (Outside (j ++ [Printed (MsgCompleted c)]) fs))
    as [[] [j' fs']| |] eqn:Hs; try discriminate.
  apply iterative_save_effect in Hs. destruct Hs as [Ha Hf].
  cbn [journal] in Ha, Hf.
  rewrite asked_app in Ha. rewrite freed_app in Hf.
  cbn in Ha, Hf. rewrite app_nil_r in Ha. rewrite Nat.add_0_r in Hf.
  unfold free. unfold bind, act. intros H. injection H as <-. cbn [journal].
  rewrite <- app_assoc, asked_app, freed_app, Ha, Hf.
  change (asked ([Free s] ++ [Sleep 1])) with (@nil Z).
  change (freed ([Free s] ++ [Sleep 1])) with 1%nat.
  rewrite app_nil_r. split; [reflexivity|lia].
Qed.

(** The keep mode, call by call. *)
Lemma keep_loop_invariant (P : Provider) sys fuel :
  forall rounds k m j fs w',
    vars m = [] ->
    IterativeProgram.keep_loop P sys fuel rounds k
      (IterativeProgram.keep_digits k)
      (World P Iterative.var m (Outside j fs)) = Done tt w' ->
    exists r,
      (r <= rounds)%nat /\
      asked (journal (out w'))
      = asked j ++ map IterativeProgram.keep_digits (seq k r) /\
      (freed (journal (out w')) + allocated (trace m)
       = freed j + allocated (trace (mach w')))%nat /\
      vars (mach w') = [].
Proof.
  induction rounds as [|rounds IH]; intros k m j fs w' Hm H; [discriminate H|].
  cbn [IterativeProgram.keep_loop] in H.
  unfold bind at 1 in H. cbn [flag] in H.
  destruct (keep_running m) eqn:Hkr; cbn [negb] in H; cbv iota in H.
  2:{ injection H as <-. exists 0%nat. cbn [seq map mach out journal].
      rewrite app_nil_r.
      split; [lia|]. split; [reflexivity|]. split; [lia|exact Hm]. }
  set (c := IterativeProgram.keep_digits k) in *.
  assert (Hc : 1 <= c <= MAX_DIGITS) by apply keep_digits_closed_form.
  rewrite (bind_done _ _ _ _ _
             (on_outside_done
                (bind (say (MsgComputing c)) (fun _ => say MsgStartTime))
                m (Outside j fs) tt _ eq_refl)) in H.
  unfold bind at 1 in H. unfold on_machine at 1 in H.
  destruct (Iterative.calculate_pi_digits P (call_env sys k) fuel c true m)
    as [[calc ptr] m1| |] eqn:Hcall; try discriminate H.
  destruct (iterative_call_done P _ fuel c m _ m1 Hc Hm Hcall)
    as (Hv1 & (s & Hr) & Hal).
  cbv beta iota in H. unfold bind at 1 in H. cbn [flag] in H.
  assert (Hj : asked ((j ++ [Printed (MsgComputing c)]) ++ [Printed MsgStartTime])
               = asked j ++ [c] /\
               freed ((j ++ [Printed (MsgComputing c)]) ++ [Printed MsgStartTime])
               = freed j).
  { rewrite !asked_app, !freed_app.
    change (asked [Printed (MsgComputing c)]) with [c].
    change (asked [Printed MsgStartTime]) with (@nil Z).
    change (freed [Printed (MsgComputing c)]) with 0%nat.
    change (freed [Printed MsgStartTime]) with 0%nat.
    rewrite app_nil_r. split; [reflexivity|lia]. }
  destruct Hj as [Hja Hjf].
  set (j1 := (j ++ [Printed (MsgComputing c)]) ++ [Printed MsgStartTime]) in *.
  unfold Iterative.keep_mode_report in H.
  destruct (malloc_ok (call_env sys k)); injection Hr as -> ->.
  - replace (0 <? c) with true in H by (symmetry; apply Z.ltb_lt; lia).
    cbn [andb negb] in H.
    destruct (keep_running m1) eqn:Hgo; cbn [negb] in H; cbv iota in H.
    + (* saved, and on to the next call *)
      unfold bind at 1 in H. unfold on_outside at 1 in H.
      cbn [pointer] in H.
      match type of H with
      | match (match ?c0 with _ => _ end) with _ => _ end = _ =>
          destruct c0 as [[] o2| |] eqn:Ho; try discriminate H
      end.
      apply saved_outside_effect in Ho. destruct Ho as [Hoa Hof].
      cbn [journal] in Hoa, Hof.
      unfold bind at 1 in H. unfold on_machine at 1 in H.
      assert (Hh : exists m2,
                (if sigint_asleep sys k
                 then Iterative.signal_handler P Iterative.SIGINT
                 else ret tt) m1 = Done tt m2 /\
                vars m2 = [] /\ allocated (trace m2) = allocated (trace m1)).
      { destruct (sigint_asleep sys k).
        - exists (log P Iterative.var EvSigint
                    (with_keep_running P Iterative.var m1 false)).
          split; [reflexivity|]. destruct m1 as [dp vs tr ls kr].
          cbn [log with_keep_running vars trace]. split; [exact Hv1|].
          rewrite allocated_app.
          change (allocated [@EvSigint Iterative.var]) with 0%nat. lia.
        - exists m1. auto. }
      destruct Hh as (m2 & Eh & Hv2 & Hal2). rewrite Eh in H.
      destruct o2 as [j2 fs2]. cbn [journal] in *.
      change (IterativeProgram.next_digits c)
        with (IterativeProgram.keep_digits (S k)) in H.
      destruct (IH (S k) m2 j2 fs2 w' Hv2 H) as (r & Hr & Ha & Hf & Hv).
      exists (S r). split; [lia|]. split; [|split; [|exact Hv]].
      * rewrite Ha, Hoa, Hja. cbn [seq map]. rewrite <- app_assoc. reflexivity.
      * rewrite Hof, Hjf in Hf. rewrite Hal2, Hal in Hf. lia.
    + (* interrupted: the buffer is freed, nothing is saved *)
      cbn in H. injection H as <-. cbn [mach out journal].
      exists 1%nat. split; [lia|]. split; [|split; [|exact Hv1]].
      * rewrite <- app_assoc, asked_app, Hja. cbn [seq map app asked].
        rewrite app_nil_r. reflexivity.
      * rewrite <- app_assoc, freed_app, Hjf, Hal.
        change (freed ([Printed MsgInterrupted] ++ [Free s])) with 1%nat. lia.
  - change (0 <? 0) with false in H. cbn [andb] in H.
    exists 1%nat. split; [lia|].
    destruct (keep_running m1); cbn in H; injection H as <-;
      cbn [mach out journal];
      (split; [|split; [|exact Hv1]];
       [rewrite asked_app, Hja; cbn [seq map app asked];
        rewrite app_nil_r; reflexivity
       |rewrite freed_app, Hjf, Hal; unfold freed; cbn [filter List.length]; lia]).
Qed.

Lemma series_compute_balance (P : Provider) sys digits m j fs code w' :
  vars m = [] ->
  SeriesProgram.compute P sys digits (World P Series.var m (Outside j fs))
  = Done code w' ->
  code = 0 /\ vars (mach w') = [] /\
  (freed (journal (out w')) + allocated (trace m)
   = freed j + allocated (trace (mach w')))%nat.
Proof.
  intros Hm. unfold SeriesProgram.compute.
  rewrite (bind_done _ _ _ _ _
             (on_outside_done (say (MsgComputing digits)) m (Outside j fs) tt _
                eq_refl)).
  destruct (series_call_done P (call_env sys 0) digits m Hm)
    as (r & m' & Hc & Hv & Hcases).
  rewrite (bind_done _ _ _ _ _ (on_machine_done _ _ _ _ _ Hc)).
  assert (Failed :
    bind (on_outside (say MsgFailed)) (fun _ => ret 0)
      (World P Series.var m' (Outside (j ++ [Printed (MsgComputing digits)]) fs))
    = Done code w' ->
    code = 0 /\ vars (mach w') = [] /\
    (freed (journal (out w')) + allocated (trace m')
     = freed j + allocated (trace (mach w')))%nat).
  { intros H. injection H as <- <-. cbn [mach out journal].
    rewrite !freed_app. change (freed [Printed (MsgComputing digits)]) with 0%nat.
    change (freed [Printed MsgFailed]) with 0%nat.
    split; [reflexivity|]. split; [exact Hv|lia]. }
  destruct Hcases as [(HD & (s & ->) & Hal)|[-> ->]].
  - destruct (malloc_ok (call_env sys 0)).
    + cbv beta iota. cbn [pointer non_null].
      replace (0 <? digits) with true by (symmetry; apply Z.ltb_lt; lia).
      cbn [andb]. unfold bind at 1. unfold on_outside at 1.
      unfold bind at 1. cbn [say act]. unfold bind at 1.
      destruct (SeriesProgram.save_pi_to_file sys (Some s) digits _)
        as [[] [j' fs']| |] eqn:Hs; try discriminate.
      apply series_save_effect in Hs. destruct Hs as [_ Hf].
      cbn [journal] in Hf. rewrite !freed_app in Hf.
      change (freed [Printed (MsgComputing digits)]) with 0%nat in Hf.
      change (freed [Printed (MsgCompleted digits)]) with 0%nat in Hf.
      unfold free. unfold act, ret. intros H. injection H as <- <-.
      cbn [mach out journal]. rewrite freed_app.
      change (freed [Free s]) with 1%nat.
      split; [reflexivity|]. split; [exact Hv|lia].
    + cbv beta iota. change (0 <? 0) with false. cbn [andb].
      intros H. apply Failed in H. rewrite Nat.add_0_r in Hal.
      rewrite Hal in H. exact H.
  - cbv beta iota. change (0 <? 0) with false. cbn [andb]. exact Failed.
Qed.

Lemma iterative_compute_balance (P : Provider) sys fuel digits m j fs code w' :
  1 <= digits <= MAX_DIGITS -> vars m = [] ->
  IterativeProgram.compute P sys fuel digits
    (World P Iterative.var m (Outside j fs)) = Done code w' ->
  vars (mach w') = [] /\
  asked (journal (out w')) = asked j ++ [digits] /\
  (freed (journal (out w')) + allocated (trace m)
   = freed j + allocated (trace (mach w')))%nat.
Proof.
  intros HD Hm. unfold IterativeProgram.compute.
  rewrite (bind_done _ _ _ _ _
             (on_outside_done
                (bind (say (MsgComputing digits)) (fun _ => say MsgStartTime))
                m (Outside j fs) tt _ eq_refl)).
  unfold bind at 1. unfold on_machine at 1.
  destruct (Iterative.calculate_pi_digits P (call_env sys 0) fuel digits true m)
    as [[calc ptr] m1| |] eqn:Hcall; try discriminate.
  destruct (iterative_call_done P _ fuel digits m _ m1 HD Hm Hcall)
    as (Hv1 & (s & Hr) & Hal).
  cbv beta iota.
  assert (Hj : asked ((j ++ [Printed (MsgComputing digits)])
                      ++ [Printed MsgStartTime]) = asked j ++ [digits] /\
               freed ((j ++ [Printed (MsgComputing digits)])
                      ++ [Printed MsgStartTime]) = freed j).
  { rewrite !asked_app, !freed_app.
    change (asked [Printed (MsgComputing digits)]) with [digits].
    change (asked [Printed MsgStartTime]) with (@nil Z).
    change (freed [Printed (MsgComputing digits)]) with 0%nat.
    change (freed [Printed MsgStartTime]) with 0%nat.
    rewrite app_nil_r. split; [reflexivity|lia]. }
  destruct Hj as [Hja Hjf].
  set (j1 := (j ++ [Printed (MsgComputing digits)]) ++ [Printed MsgStartTime]) in *.
  destruct (malloc_ok (call_env sys 0)); injection Hr as -> ->.
  - cbn [pointer non_null].
    replace (0 <? digits) with true by (symmetry; apply Z.ltb_lt; lia).
    cbn [andb]. unfold bind at 1. unfold on_outside at 1.
    unfold bind at 1. cbn [say act]. unfold bind at 1.
    destruct (IterativeProgram.save_pi_to_file sys (Some s) digits _)
      as [[] [j' fs']| |] eqn:Hs; try discriminate.
    apply iterative_save_effect in Hs. destruct Hs as [Ha Hf].
    cbn [journal] in Ha, Hf. rewrite asked_app in Ha. rewrite freed_app in Hf.
    change (asked [Printed (MsgCompleted digits)]) with (@nil Z) in Ha.
    change (freed [Printed (MsgCompleted digits)]) with 0%nat in Hf.
    rewrite app_nil_r in Ha.
    unfold free. unfold act, ret. intros H. injection H as <- <-.
    cbn [mach out journal]. rewrite asked_app, freed_app.
    change (asked [Free s]) with (@nil Z). change (freed [Free s]) with 1%nat.
    rewrite app_nil_r, Ha, Hja.
    split; [exact Hv1|]. split; [reflexivity|lia].
  - cbn [pointer non_null]. change (0 <? 0) with false. cbn [andb].
    intros H. injection H as <- <-. cbn [mach out journal].
    rewrite asked_app, freed_app, Hja, Hjf.
    change (asked [Printed MsgFailed]) with (@nil Z).
    change (freed [Printed MsgFailed]) with 0%nat.
    rewrite app_nil_r. split; [exact Hv1|]. split; [reflexivity|lia].
Qed.

Lemma iterative_run_invariant (P : Provider) sys fuel rounds keep digits
      m j fs code w' :
  vars m = [] ->
  IterativeProgram.run P sys fuel rounds keep digits
    (World P Iterative.var m (Outside j fs)) = Done code w' ->
  vars (mach w') = [] /\
  (exists l, asked (journal (out w')) = asked j ++ l /\
             Forall (fun d => 1 <= d <= MAX_DIGITS) l) /\
  (freed (journal (out w')) + allocated (trace m)
   = freed j + allocated (trace (mach w')))%nat.
Proof.
  intros Hm. unfold IterativeProgram.run.
  destruct keep; cbn [negb andb].
  - rewrite (bind_done _ _ _ _ _
               (on_outside_done (say MsgKeepBanner) m (Outside j fs) tt _
                  eq_refl)).
    unfold bind at 1.
    destruct (IterativeProgram.keep_loop P sys fuel rounds 0 1000 _)
      as [[] w1| |] eqn:Hk; try discriminate.
    intros H. injection H as _ <-.
    change 1000 with (IterativeProgram.keep_digits 0) in Hk.
    apply keep_loop_invariant in Hk; [|exact Hm].
    destruct Hk as (r & _ & Ha & Hf & Hv).
    rewrite asked_app, freed_app in *.
    change (asked [Printed MsgKeepBanner]) with (@nil Z) in Ha.
    change (freed [Printed MsgKeepBanner]) with 0%nat in Hf.
    rewrite app_nil_r in Ha.
    split; [exact Hv|]. split; [|lia].
    eexists. split; [exact Ha|].
    apply Forall_forall. intros d Hd. apply in_map_iff in Hd.
    destruct Hd as (k & <- & _). apply keep_digits_closed_form.
  - destruct ((digits <=? 0) || (MAX_DIGITS <? digits)) eqn:Hr.
    + intros H. injection H as _ <-. cbn [mach out journal].
      rewrite asked_app, freed_app.
      change (asked [Printed MsgOutOfRange]) with (@nil Z).
      change (freed [Printed MsgOutOfRange]) with 0%nat.
      split; [exact Hm|]. split; [|lia].
      exists []. split; [reflexivity|constructor].
    + apply orb_false_iff in Hr. destruct Hr as [H1 H2].
      apply Z.leb_gt in H1. apply Z.ltb_ge in H2.
      intros H. apply iterative_compute_balance in H; [|lia|exact Hm].
      destruct H as (Hv & Ha & Hf).
      split; [exact Hv|]. split; [|exact Hf].
      exists [digits]. split; [exact Ha|].
      constructor; [lia|constructor].
Qed.

(** A branch of [main] that prints one line and returns. *)
Lemma says_effect {A V} (msg : message) (c : Z) (m : machine A V) j fs code w' :
  (forall d, msg <> MsgComputing d) ->
  bind (on_outside (say msg)) (fun _ => ret c) (World A V m (Outside j fs))
  = Done code w' ->
  code = c /\ mach w' = m /\
  asked (journal (out w')) = asked j /\ freed (journal (out w')) = freed j.
Proof.
  intros Hmsg H. injection H as <- <-. cbn [mach out journal].
  rewrite asked_app, freed_app.
  split; [reflexivity|]. split; [reflexivity|].
  change (freed [Printed msg]) with 0%nat. split; [|lia].
  destruct msg; try (cbn [asked]; apply app_nil_r).
  exfalso. exact (Hmsg _ eq_refl).
Qed.

Lemma series_main_balance (P : Provider) sys argv m j fs code w' :
  vars m = [] ->
  SeriesProgram.main P sys argv (World P Series.var m (Outside j fs))
  = Done code w' ->
  vars (mach w') = [] /\
  (freed (journal (out w')) + allocated (trace m)
   = freed j + allocated (trace (mach w')))%nat.
Proof.
  intros Hm. unfold SeriesProgram.main.
  assert (Said : forall msg c,
            (forall d, msg <> MsgComputing d) ->
            bind (on_outside (say msg)) (fun _ => ret c)
              (World P Series.var m (Outside j fs)) = Done code w' ->
            vars (mach w') = [] /\
            (freed (journal (out w')) + allocated (trace m)
             = freed j + allocated (trace (mach w')))%nat).
  { intros msg c Hmsg H. apply says_effect in H; [|exact Hmsg].
    destruct H as (_ & -> & _ & ->). auto. }
  assert (Computed : forall digits,
            SeriesProgram.compute P sys digits
              (World P Series.var m (Outside j fs)) = Done code w' ->
            vars (mach w') = [] /\
            (freed (journal (out w')) + allocated (trace m)
             = freed j + allocated (trace (mach w')))%nat).
  { intros digits H. apply series_compute_balance in H; [|exact Hm]. tauto. }
  destruct (2 <? Z.of_nat (List.length argv)); [apply Said; discriminate|].
  destruct (Z.of_nat (List.length argv) =? 2); [|apply Computed].
  destruct (_ || _); [apply Said; discriminate|].
  destruct (_ || _); [apply Said; discriminate|].
  destruct (strtoull (nth 1 argv EmptyString)) as [digits endptr].
  destruct (_ || _); [apply Said; discriminate|apply Computed].
Qed.

Lemma iterative_main_invariant (P : Provider) sys fuel rounds argv m j fs
      code w' :
  vars m = [] ->
  IterativeProgram.main P sys fuel rounds argv
    (World P Iterative.var m (Outside j fs)) = Done code w' ->
  vars (mach w') = [] /\
  (exists l, asked (journal (out w')) = asked j ++ l /\
             Forall (fun d => 1 <= d <= MAX_DIGITS) l) /\
  (freed (journal (out w')) + allocated (trace m)
   = freed j + allocated (trace (mach w')))%nat.
Proof.
  intros Hm. unfold IterativeProgram.main.
  assert (Said : forall msg c j0,
            (forall d, msg <> MsgComputing d) ->
            asked j0 = asked j -> freed j0 = freed j ->
            bind (on_outside (say msg)) (fun _ => ret c)
              (World P Iterative.var m (Outside j0 fs)) = Done code w' ->
            vars (mach w') = [] /\
            (exists l, asked (journal (out w')) = asked j ++ l /\
                       Forall (fun d => 1 <= d <= MAX_DIGITS) l) /\
            (freed (journal (out w')) + allocated (trace m)
             = freed j + allocated (trace (mach w')))%nat).
  { intros msg c j0 Hmsg Ha Hf H. apply says_effect in H; [|exact Hmsg].
    destruct H as (_ & -> & -> & ->). split; [exact Hm|]. split; [|lia].
    exists []. rewrite app_nil_r. split; [exact Ha|constructor]. }
  assert (Ran : forall keep digits j0,
            asked j0 = asked j -> freed j0 = freed j ->
            IterativeProgram.run P sys fuel rounds keep digits
              (World P Iterative.var m (Outside j0 fs)) = Done code w' ->
            vars (mach w') = [] /\
            (exists l, asked (journal (out w')) = asked j ++ l /\
                       Forall (fun d => 1 <= d <= MAX_DIGITS) l) /\
            (freed (journal (out w')) + allocated (trace m)
             = freed j + allocated (trace (mach w')))%nat).
  { intros keep digits j0 Ha Hf H.
    apply iterative_run_invariant in H; [|exact Hm].
    rewrite Ha, Hf in H. exact H. }
  destruct (2 <? Z.of_nat (List.length argv));
    [apply Said; (discriminate || reflexivity)|].
  destruct (Z.of_nat (List.length argv) =? 1).
  - rewrite (bind_done _ _ _ _ _
               (on_outside_done (say MsgPrompt) m (Outside j fs) tt _ eq_refl)).
    assert (Ha : asked (j ++ [Printed MsgPrompt]) = asked j)
      by (rewrite asked_app; apply app_nil_r).
    assert (Hf : freed (j ++ [Printed MsgPrompt]) = freed j)
      by (rewrite freed_app; change (freed [Printed MsgPrompt]) with 0%nat; lia).
    destruct (scanf_lu sys) as [digits|];
      [|apply Said; (discriminate || assumption)].
    destruct (_ || _); [apply Said; (discriminate || assumption)|].
    apply Ran; assumption.
  - destruct (Z.of_nat (List.length argv) =? 2); [|apply Ran; reflexivity].
    destruct (_ || _); [apply Said; (discriminate || reflexivity)|].
    destruct (_ || _); [apply Said; (discriminate || reflexivity)|].
    destruct (_ || _); [apply Ran; reflexivity|].
    destruct (strtoull (nth 1 argv EmptyString)) as [digits endptr].
    destruct (_ || _);
      [apply Said; (discriminate || reflexivity)|apply Ran; reflexivity].
Qed.

(** ** What the two programs do as a whole *)

(** Two evaluations on the reference provider that several examples
    share. *)
Lemma ref_iterative_main_20 :
  observe
    (IterativeProgram.main Ref.provider
       (calm (IterativeProgram.msgid_footer "Jan  1 2025")) 100 1
       ["superpi"; "20"]%string start) = Returned 0.
Proof. vm_compute. reflexivity. Qed.

Lemma ref_exits_1000 :
  IterativeSpec.exits_in_round_after Ref.provider (working_precision 1000) 5
  = true.
Proof. vm_compute. reflexivity. Qed.

(** X12. The iterative program never asks [calculate_pi_digits] for an
    inadmissible digit count: whatever its arguments, its input and the
    signals, every computation a run that ends has announced is for a
    count between 1 and [MAX_DIGITS]. *)
Theorem iterative_main_asks_admissible_counts :
  forall (P : Provider) (sys : os) (fuel rounds : nat) (argv : list string)
         (w w' : world P Iterative.var) (code : Z),
    vars (mach w) = [] ->
    IterativeProgram.main P sys fuel rounds argv w = Done code w' ->
    exists l,
      asked (journal (out w')) = asked (journal (out w)) ++ l /\
      Forall (fun d => 1 <= d <= MAX_DIGITS) l.
Proof.
  intros P sys fuel rounds argv [m [j fs]] w' code Hm H.
  apply iterative_main_invariant in H; [|exact Hm].
  destruct H as (_ & H & _). exact H.
Qed.

Lemma iterative_main_asks_admissible_counts_witness :
  exists code w',
    IterativeProgram.main Ref.provider
      (calm (IterativeProgram.msgid_footer "Jan  1 2025")) 100 1
      ["superpi"; "20"]%string start = Done code w' /\
    exists l,
      asked (journal (out w')) = asked [] ++ l /\
      Forall (fun d => 1 <= d <= MAX_DIGITS) l.
Proof.
  pose proof ref_iterative_main_20 as H.
  destruct (IterativeProgram.main Ref.provider
              (calm (IterativeProgram.msgid_footer "Jan  1 2025")) 100 1
              ["superpi"; "20"]%string start) as [code w'| |] eqn:E;
    try discriminate H.
  exists code, w'. split; [reflexivity|].
  apply (iterative_main_asks_admissible_counts _ _ _ _ _ start w' code eq_refl E).
Defined.

(** X13. Both programs free exactly the buffers their calls allocated:
    in a run of [main] that ends, from a process without live variables,
    the number of [free]s equals the number of successful [malloc]s, and
    no [mpf_t] variable is live at the end. *)
Theorem main_frees_what_the_calls_allocated :
  forall (P : Provider) (sys : os),
    (forall (argv : list string) (w w' : world P Series.var) (code : Z),
        vars (mach w) = [] ->
        SeriesProgram.main P sys argv w = Done code w' ->
        vars (mach w') = [] /\
        (freed (journal (out w')) + allocated (trace (mach w))
         = freed (journal (out w)) + allocated (trace (mach w')))%nat) /\
    (forall (fuel rounds : nat) (argv : list string)
            (w w' : world P Iterative.var) (code : Z),
        vars (mach w) = [] ->
        IterativeProgram.main P sys fuel rounds argv w = Done code w' ->
        vars (mach w') = [] /\
        (freed (journal (out w')) + allocated (trace (mach w))
         = freed (journal (out w)) + allocated (trace (mach w')))%nat).
Proof.
  intros P sys. split.
  - intros argv [m [j fs]] w' code Hm H.
    exact (series_main_balance P sys argv m j fs code w' Hm H).
  - intros fuel rounds argv [m [j fs]] w' code Hm H.
    apply iterative_main_invariant in H; [|exact Hm]. tauto.
Qed.

Lemma main_frees_what_the_calls_allocated_witness :
  (exists code w',
      SeriesProgram.main Ref.provider
        (calm (SeriesProgram.msgid_footer "Jan  1 2025"))
        ["superpi"; "20"]%string start = Done code w' /\
      vars (mach w') = [] /\
      (freed (journal (out w')) + 0 = 0 + allocated (trace (mach w')))%nat) /\
  (exists code w',
      IterativeProgram.main Ref.provider
        (calm (IterativeProgram.msgid_footer "Jan  1 2025")) 100 1
        ["superpi"; "20"]%string start = Done code w' /\
      vars (mach w') = [] /\
      (freed (journal (out w')) + 0 = 0 + allocated (trace (mach w')))%nat).
Proof.
  split.
  - destruct (series_main_saved Ref.provider
                (calm (SeriesProgram.msgid_footer "Jan  1 2025"))
                "superpi" 20 "3" "141592653589793238463" boot [] [])
      as (m' & E & _);
      [unfold MAX_DIGITS; lia|reflexivity|reflexivity|reflexivity|simpl; lia
      |reflexivity|reflexivity|exact series_rendering_20|].
    do 2 eexists. split; [exact E|].
    exact (proj1 (main_frees_what_the_calls_allocated Ref.provider _)
             _ start _ _ eq_refl E).
  - pose proof ref_iterative_main_20 as H.
    destruct (IterativeProgram.main Ref.provider
                (calm (IterativeProgram.msgid_footer "Jan  1 2025")) 100 1
                ["superpi"; "20"]%string start) as [code w'| |] eqn:E;
      try discriminate H.
    exists code, w'. split; [reflexivity|].
    exact (proj2 (main_frees_what_the_calls_allocated Ref.provider _)
             _ _ _ start w' code eq_refl E).
Defined.

(** X14. The keep mode asks for 1000 digits first and doubles the count
    from call to call, starting again at 1000 once the double would exceed
    [MAX_DIGITS]: the call number [k] is for [1000 * 2 ^ (k mod 14)]
    digits.  However its loop ends, [main] exits with status 0. *)
Theorem keep_mode_follows_the_schedule :
  forall (P : Provider) (sys : os) (fuel rounds : nat) (prog opt : string)
         (w w' : world P Iterative.var) (code : Z),
    opt = "--keep"%string \/ opt = "-k"%string ->
    vars (mach w) = [] ->
    IterativeProgram.main P sys fuel rounds [prog; opt] w = Done code w' ->
    code = 0 /\
    exists r,
      (r <= rounds)%nat /\
      asked (journal (out w'))
      = asked (journal (out w))
        ++ map (fun k => 1000 * 2 ^ (Z.of_nat k mod 14)) (seq 0 r).
Proof.
  intros P sys fuel rounds prog opt [m [j fs]] w' code Hopt Hm.
  cbn [mach out journal] in *.
  assert (E : IterativeProgram.main P sys fuel rounds [prog; opt]
                (World P Iterative.var m (Outside j fs))
              = IterativeProgram.run P sys fuel rounds true 1000
                  (World P Iterative.var m (Outside j fs))).
  { destruct Hopt as [-> | ->]; reflexivity. }
  rewrite E. unfold IterativeProgram.run. cbn [negb andb].
  rewrite (bind_done _ _ _ _ _
             (on_outside_done (say MsgKeepBanner) m (Outside j fs) tt _
                eq_refl)).
  unfold bind at 1.
  destruct (IterativeProgram.keep_loop P sys fuel rounds 0 1000 _)
    as [[] w1| |] eqn:Hk; try discriminate.
  intros H. injection H as <- <-. split; [reflexivity|].
  change 1000 with (IterativeProgram.keep_digits 0) in Hk.
  apply keep_loop_invariant in Hk; [|exact Hm].
  destruct Hk as (r & Hr & Ha & _).
  exists r. split; [exact Hr|]. rewrite Ha, asked_app.
  change (asked [Printed MsgKeepBanner]) with (@nil Z). rewrite app_nil_r.
  f_equal. apply map_ext. intros k. apply keep_digits_closed_form.
Qed.

Lemma keep_mode_follows_the_schedule_witness :
  exists code w',
    IterativeProgram.main Ref.provider
      (waking 1 (calm (IterativeProgram.msgid_footer "Jan  1 2025"))) 100 3
      ["superpi"; "--keep"]%string start = Done code w' /\
    asked (journal (out w')) = [1000; 2000] /\
    code = 0 /\
    exists r,
      (r <= 3)%nat /\
      asked (journal (out w'))
      = asked [] ++ map (fun k => 1000 * 2 ^ (Z.of_nat k mod 14)) (seq 0 r).
Proof.
  assert (H : match IterativeProgram.main Ref.provider
                      (waking 1 (calm (IterativeProgram.msgid_footer "Jan  1 2025")))
                      100 3 ["superpi"; "--keep"]%string start with
              | Done _ w' => asked (journal (out w')) = [1000; 2000]
              | _ => False
              end)
    by (vm_compute; reflexivity).
  destruct (IterativeProgram.main Ref.provider
              (waking 1 (calm (IterativeProgram.msgid_footer "Jan  1 2025")))
              100 3 ["superpi"; "--keep"]%string start) as [code w'| |] eqn:E;
    try (exfalso; exact H).
  exists code, w'. split; [reflexivity|]. split; [exact H|].
  apply (keep_mode_follows_the_schedule _ _ _ _ _ _ start w' code
           (or_introl eq_refl) eq_refl E).
Defined.

(** A round of the keep mode whose call returns with the flag cleared. *)
Lemma keep_loop_interrupted (P : Provider) sys fuel rounds k c m m' calc s j fs :
  keep_running m = true ->
  Iterative.calculate_pi_digits P (call_env sys k) fuel c true m
  = Done (calc, Buffer s) m' ->
  keep_running m' = false ->
  IterativeProgram.keep_loop P sys fuel (S rounds) k c
    (World P Iterative.var m (Outside j fs))
  = Done tt
      (World P Iterative.var m'
         (Outside
            (j ++ [Printed (MsgComputing c); Printed MsgStartTime;
                   Printed MsgInterrupted; Free s]) fs)).
Proof.
  intros Hkr Hc Hkr'.
  cbn [IterativeProgram.keep_loop].
  unfold bind at 1. cbn [flag]. rewrite Hkr. cbn [negb].
  rewrite (bind_done _ _ _ _ _
             (on_outside_done
                (bind (say (MsgComputing c)) (fun _ => say MsgStartTime))
                m (Outside j fs) tt _ eq_refl)).
  rewrite (bind_done _ _ _ _ _ (on_machine_done _ _ _ _ _ Hc)).
  cbv beta iota. unfold bind at 1. cbn [flag]. rewrite Hkr'.
  unfold Iterative.keep_mode_report. rewrite andb_false_r. cbn [negb].
  cbv iota.
  unfold on_outside, bind, say, free, pointer. unfold act.
  rewrite <- !app_assoc. reflexivity.
Qed.

(** X15. A SIGINT during a call of the keep mode: the call still computes
    and returns all its digits, and [main] then reports the interruption,
    frees the buffer without saving it and exits with status 0.  Said for
    the first call, whose loop leaves within its first ten rounds. *)
Theorem interrupted_keep_mode_discards_the_result :
  forall (P : Provider) (sys : os) (fuel rounds n : nat) (prog : string)
         (w : world P Iterative.var),
    vars (mach w) = [] -> keep_running (mach w) = true ->
    (0 < rounds)%nat -> (n < fuel)%nat -> (n <= 9)%nat ->
    IterativeSpec.exits_in_round_after P (working_precision 1000) n = true ->
    malloc_ok (call_env sys 0) = true ->
    undisturbed (call_env sys 0) 0 (S n) = false ->
    exists m',
      IterativeProgram.main P sys fuel rounds [prog; "--keep"%string] w
      = Done 0
          {| mach := m';
             out := {| journal :=
                         journal (out w)
                         ++ [Printed MsgKeepBanner; Printed (MsgComputing 1000);
                             Printed MsgStartTime; Printed MsgInterrupted;
                             Free (extract_digits 1000
                                     (fprint P 1001
                                        (IterativeSpec.final P
                                           (working_precision 1000)
                                           (IterativeSpec.after P
                                              (working_precision 1000) n))))];
                       files := files (out w) |} |} /\
      keep_running m' = false /\ vars m' = [].
Proof.
  intros P sys fuel rounds n prog [m [j fs]] Hm Hkr Hrounds Hf H9 Hex Hmalloc
         Hsig.
  cbn [mach out journal files] in *.
  destruct rounds as [|rounds]; [lia|].
  pose proof (iterative_call_early P (call_env sys 0) 1000 n fuel m
                ltac:(unfold MAX_DIGITS; lia) Hm Hf H9 Hex) as Hc.
  rewrite Hmalloc, Hkr, Hsig in Hc. cbn [andb] in Hc.
  exists (Machine P Iterative.var (working_precision 1000) []
            (trace m ++ Iterative.call_trace (call_env sys 0) 1000
                          (handler_lines (call_env sys 0) 0 (S n)))
            (last_shown m) false).
  split; [|split; reflexivity].
  change (IterativeProgram.main P sys fuel (S rounds) [prog; "--keep"%string]
            (World P Iterative.var m (Outside j fs)))
    with (IterativeProgram.run P sys fuel (S rounds) true 1000
            (World P Iterative.var m (Outside j fs))).
  unfold IterativeProgram.run. cbn [negb andb].
  rewrite (bind_done _ _ _ _ _
             (on_outside_done (say MsgKeepBanner) m (Outside j fs) tt _
                eq_refl)).
  rewrite (bind_done _ _ _ _ _
             (keep_loop_interrupted P sys fuel rounds 0 1000 m _ _ _ _ _
                Hkr Hc eq_refl)).
  unfold ret. rewrite <- !app_assoc. reflexivity.
Qed.

Lemma interrupted_keep_mode_discards_the_result_witness :
  exists m' s,
    IterativeProgram.main Ref.provider
      (interrupting 0 3 (calm (IterativeProgram.msgid_footer "Jan  1 2025")))
      100 1 ["superpi"; "--keep"]%string start
    = Done 0
        {| mach := m';
           out := {| journal :=
                       [Printed MsgKeepBanner; Printed (MsgComputing 1000);
                        Printed MsgStartTime; Printed MsgInterrupted; Free s];
                     files := [] |} |} /\
    keep_running m' = false /\ vars m' = [].
Proof.
  destruct (interrupted_keep_mode_discards_the_result Ref.provider
              (interrupting 0 3
                 (calm (IterativeProgram.msgid_footer "Jan  1 2025")))
              100 1 5 "superpi" start) as (m' & E & Hk & Hv).
  - reflexivity.
  - reflexivity.
  - lia.
  - lia.
  - lia.
  - exact ref_exits_1000.
  - reflexivity.
  - reflexivity.
  - exists m'. eexists. split; [exact E|]. split; [exact Hk|exact Hv].
Defined.

(** ** A rendering without a point *)

Lemma strchr_take n s c : strchr s c = None -> strchr (str_take n s) c = None.
Proof.
  revert s. induction n as [|n IH]; intros s H; [reflexivity|].
  destruct s as [|d s]; [reflexivity|]. cbn [str_take strchr] in *.
  destruct (Ascii.eqb d c); [discriminate H|]. apply IH, H.
Qed.

Lemma str_take_length_min n s :
  String.length (str_take n s) = Nat.min n (String.length s).
Proof.
  revert s. induction n as [|n IH]; intros s; [reflexivity|].
  destruct s as [|c s]; [reflexivity|]. cbn [str_take String.length].
  rewrite IH. reflexivity.
Qed.

Lemma raw_buffer D text :
  1 <= D <= MAX_DIGITS ->
  strchr text "." = None -> (Z.to_nat D <= String.length text)%nat ->
  extract_digits D text = gmp_snprintf (D + 10) text /\
  (Z.to_nat D <= String.length (gmp_snprintf (D + 10) text))%nat /\
  str_take (Z.to_nat D) (gmp_snprintf (D + 10) text)
  = str_take (Z.to_nat D) text.
Proof.
  unfold MAX_DIGITS. intros HD Hp Hlen.
  assert (Eu : u64 (D + 10) = D + 10) by (apply Z.mod_small; lia).
  split; [|split].
  - rewrite extract_digits_no_point; rewrite Eu; [reflexivity|].
    apply strchr_take, Hp.
  - unfold gmp_snprintf. rewrite str_take_length_min. lia.
  - unfold gmp_snprintf. apply str_take_take. lia.
Qed.

(** X16. When the text rendered for the value holds no point, as in a
    locale whose decimal point is a comma, the call still returns [D] and
    hands out the text as it is, cut to [D + 9] characters; [main] reports
    success, writes ["3."] and the first [D] characters of that text to the
    result file and exits with status 0. *)
Theorem rendering_without_a_point_is_saved_raw :
  forall (P : Provider) (ss si : os) (fuel rounds : nat) (prog : string)
         (D : Z) (text : string),
    1 <= D <= MAX_DIGITS ->
    strchr text "." = None -> (Z.to_nat D <= String.length text)%nat ->
    (forall w : world P Series.var,
        malloc_ok (call_env ss 0) = true ->
        fopen_ok ss (SeriesProgram.file_name D) = true ->
        vars (mach w) = [] ->
        Series.rendered P D (mach w) = Some text ->
        exists m',
          SeriesProgram.main P ss [prog; decimal D] w
          = Done 0
              {| mach := m';
                 out := {| journal :=
                             journal (out w)
                             ++ [Printed (MsgComputing D); Printed (MsgCompleted D);
                                 Printed (MsgSavedTo (SeriesProgram.file_name D));
                                 Free (gmp_snprintf (D + 10) text)];
                           files :=
                             (SeriesProgram.file_name D,
                              ("3." ++ str_take (Z.to_nat D) text ++ nl ++ nl
                                    ++ footer ss D)%string)
                             :: files (out w) |} |}) /\
    (forall w : world P Iterative.var,
        malloc_ok (call_env si 0) = true ->
        fopen_ok si (IterativeProgram.file_name D) = true ->
        vars (mach w) = [] ->
        Iterative.rendered P (call_env si 0) fuel D (mach w) = Some text ->
        exists m',
          IterativeProgram.main P si fuel rounds [prog; decimal D] w
          = Done 0
              {| mach := m';
                 out := {| journal :=
                             journal (out w)
                             ++ [Printed (MsgComputing D); Printed MsgStartTime;
                                 Printed (MsgCompleted D);
                                 Printed (MsgSavedTo (IterativeProgram.file_name D));
                                 Free (gmp_snprintf (D + 10) text)];
                           files :=
                             (IterativeProgram.file_name D,
                              ("3." ++ str_take (Z.to_nat D) text ++ nl ++ nl
                                    ++ footer si D)%string)
                             :: files (out w) |} |}).
Proof.
  intros P ss si fuel rounds prog D text HD Hp Hlen.
  destruct (raw_buffer D text HD Hp Hlen) as (Hraw & Hbuf & Htake).
  split.
  - intros [m [j fs]] Hmalloc Hopen Hm Hr. cbn [mach out journal files] in *.
    destruct (SeriesFacts.series_call_spec P (call_env ss 0) D m HD Hm)
      as (v & m' & Hv & Hc & _).
    unfold Series.rendered in Hr. rewrite Hv in Hr. simpl in Hr.
    injection Hr as Hr. rewrite Hmalloc, Hr, Hraw in Hc.
    exists m'. unfold MAX_DIGITS in HD.
    rewrite series_main_numeral by lia.
    rewrite (series_compute_saved P ss D _ m m' j fs ltac:(lia) Hbuf Hopen Hc).
    rewrite Htake. reflexivity.
  - intros [m [j fs]] Hmalloc Hopen Hm Hr. cbn [mach out journal files] in *.
    unfold Iterative.rendered, Iterative.pi_value in Hr.
    destruct (Iterative.numeric_phase P (call_env si 0) fuel D m)
      as [[] m1| |] eqn:Hrun;
      try (unfold bind in Hr; rewrite Hrun in Hr; discriminate Hr).
    destruct (IterativeFacts.iterative_call_spec P (call_env si 0) fuel D m m1
                HD Hm Hrun) as (v & m' & chat & Hv & Hc & _).
    unfold Iterative.pi_value in Hv.
    destruct (bind (Iterative.numeric_phase P (call_env si 0) fuel D)
                (fun _ => load P Iterative.var Iterative.var_eqb Iterative.pi) m)
      as [v' ?| |]; try discriminate Hv.
    injection Hv as ->. simpl in Hr. injection Hr as Hr.
    rewrite Hmalloc, Hr, Hraw in Hc.
    exists m'.
    assert (Hrange : (negb false && ((D <=? 0) || (MAX_DIGITS <? D))) = false).
    { cbn [negb andb]. apply orb_false_iff. unfold MAX_DIGITS in *.
      split; [apply Z.leb_gt|apply Z.ltb_ge]; lia. }
    unfold MAX_DIGITS in HD.
    rewrite iterative_main_numeral by lia.
    unfold IterativeProgram.run. rewrite Hrange. cbv iota.
    rewrite (iterative_compute_saved P si fuel D _ m m' j fs ltac:(lia) Hbuf
               Hopen Hc).
    rewrite Htake. reflexivity.
Qed.

(** The series program computes the same value in every locale; the
    text differs by the point. *)
Lemma series_rendered_in_locale point D (m : machine Ref.provider Series.var)
      text :
  Series.rendered Ref.provider D m = Some text ->
  Series.rendered (Locale.provider point) D m
  = Some (Locale.with_point point text).
Proof.
  unfold Series.rendered.
  change (Series.pi_value (Locale.provider point) D m)
    with (Series.pi_value Ref.provider D m).
  destruct (Series.pi_value Ref.provider D m); [|discriminate].
  cbn [option_map]. intros H. injection H as <-. reflexivity.
Qed.

Lemma series_rendering_20_with_comma :
  Series.rendered (Locale.provider ",") 20
    (boot : machine Ref.provider Series.var)
  = Some "3,141592653589793238463"%string.
Proof.
  exact (series_rendered_in_locale "," 20 boot _ series_rendering_20).
Qed.

Lemma rendering_without_a_point_is_saved_raw_witness :
  (exists m',
      SeriesProgram.main (Locale.provider ",")
        (calm (SeriesProgram.msgid_footer "Jan  1 2025"))
        ["superpi"; "20"]%string start
      = Done 0
          {| mach := m';
             out := {| journal :=
                         [Printed (MsgComputing 20); Printed (MsgCompleted 20);
                          Printed (MsgSavedTo "圆周率_20.txt");
                          Free "3,141592653589793238463"];
                       files :=
                         [("圆周率_20.txt"%string,
                           ("3." ++ "3,141592653589793238" ++ nl ++ nl
                                 ++ "由SuperPi计算" ++ nl ++ "位数: 20" ++ nl
                                 ++ "算法: 实际计算" ++ nl
                                 ++ "日期: Jan  1 2025")%string)] |} |}) /\
  (exists m',
      IterativeProgram.main (Locale.provider ",")
        (calm (IterativeProgram.msgid_footer "Jan  1 2025")) 100 1
        ["superpi"; "20"]%string start
      = Done 0
          {| mach := m';
             out := {| journal :=
                         [Printed (MsgComputing 20); Printed MsgStartTime;
                          Printed (MsgCompleted 20);
                          Printed (MsgSavedTo "圆周率_20位.text");
                          Free "3,141592653589793238463"];
                       files :=
                         [("圆周率_20位.text"%string,
                           ("3." ++ "3,141592653589793238" ++ nl ++ nl
                                 ++ "由SuperPi计算" ++ nl ++ "位数: 20" ++ nl
                                 ++ "算法: Gauss-Legendre" ++ nl
                                 ++ "日期: Jan  1 2025" ++ nl)%string)] |} |}).
Proof.
  destruct (rendering_without_a_point_is_saved_raw (Locale.provider ",")
              (calm (SeriesProgram.msgid_footer "Jan  1 2025"))
              (calm (IterativeProgram.msgid_footer "Jan  1 2025"))
              100 1 "superpi" 20 "3,141592653589793238463")
    as [Hs Hi]; [unfold MAX_DIGITS; lia|reflexivity|simpl; lia|].
  split.
  - apply (Hs start); [reflexivity|reflexivity|reflexivity|].
    exact series_rendering_20_with_comma.
  - apply (Hi start); [reflexivity|reflexivity|reflexivity|].
    vm_compute. reflexivity.
Defined.

(** ** Arguments that are not a digit count *)

Lemma digit_first_is_no_option c rest t :
  is_digit c = true -> (String c rest =? String "-" t)%string = false.
Proof.
  intros Hc. cbn [String.eqb].
  destruct (digit_is_plain c Hc) as (_ & -> & _). reflexivity.
Qed.

Lemma strtoull_numeral_then n c rest :
  0 <= n < 2 ^ 64 -> is_digit c = false ->
  strtoull (decimal n ++ String c rest) = (n, String c rest).
Proof.
  intros Hn Hc.
  destruct (decimal_from_head 19 n EmptyString) as (c0 & r0 & Ed & Hc0).
  pose proof (digits_prefix_decimal_then n c rest Hn Hc) as Hv.
  unfold decimal in *. rewrite Ed in *. cbn [append] in *.
  rewrite (strtoull_digit_first c0 _ Hc0), Hv.
  replace (ULLONG_MAX <? n) with false; [reflexivity|].
  symmetry. apply Z.ltb_ge. unfold ULLONG_MAX. lia.
Qed.

(** X17. An argument made of a numeral and something that is not a
    digit behind it, and the numeral 0, are refused by both programs: they
    print the complaint about the digit count and exit with status 1,
    without any call of [calculate_pi_digits]. *)
Theorem malformed_count_is_refused :
  forall (P : Provider) (ss si : os) (fuel rounds : nat) (prog arg : string)
         (ws : world P Series.var) (wi : world P Iterative.var),
    (exists n c rest,
        0 <= n < 2 ^ 64 /\ is_digit c = false /\
        arg = (decimal n ++ String c rest)%string) \/
    arg = decimal 0 ->
    SeriesProgram.main P ss [prog; arg] ws
    = Done 1
        {| mach := mach ws;
           out := {| journal := journal (out ws) ++ [Printed MsgInvalidDigits];
                     files := files (out ws) |} |} /\
    IterativeProgram.main P si fuel rounds [prog; arg] wi
    = Done 1
        {| mach := mach wi;
           out := {| journal := journal (out wi) ++ [Printed MsgInvalidDigits];
                     files := files (out wi) |} |}.
Proof.
  intros P ss si fuel rounds prog arg [ms [js fs]] [mi [ji fi]] Harg.
  assert (Hopt : forall t, (arg =? String "-" t)%string = false).
  { intros t. destruct Harg as [(n & c & rest & _ & _ & ->)| ->].
    - destruct (decimal_from_head 19 n EmptyString) as (c0 & r0 & Ed & Hc0).
      unfold decimal. rewrite Ed. cbn [append].
      apply digit_first_is_no_option, Hc0.
    - reflexivity. }
  assert (Hbad : exists digits endptr,
            strtoull arg = (digits, endptr) /\
            (negb (endptr =? EmptyString)%string || (digits =? 0)) = true).
  { destruct Harg as [(n & c & rest & Hn & Hc & ->)| ->].
    - exists n, (String c rest). split; [|reflexivity].
      apply strtoull_numeral_then; assumption.
    - exists 0, EmptyString. split; reflexivity. }
  destruct Hbad as (digits & endptr & Hs & Hbad).
  unfold SeriesProgram.main, IterativeProgram.main.
  cbn [List.length nth].
  change (2 <? Z.of_nat 2) with false. change (Z.of_nat 2 =? 1) with false.
  change (Z.of_nat 2 =? 2) with true. cbv iota.
  rewrite !Hopt. cbn [orb]. rewrite Hs, Hbad. split; reflexivity.
Qed.

Lemma malformed_count_is_refused_witness :
  SeriesProgram.main Ref.provider
    (calm (SeriesProgram.msgid_footer "Jan  1 2025"))
    ["superpi"; "20 digits"]%string start
  = Done 1
      {| mach := boot;
         out := {| journal := [Printed MsgInvalidDigits]; files := [] |} |} /\
  IterativeProgram.main Ref.provider
    (calm (IterativeProgram.msgid_footer "Jan  1 2025")) 100 1
    ["superpi"; "20 digits"]%string start
  = Done 1
      {| mach := boot;
         out := {| journal := [Printed MsgInvalidDigits]; files := [] |} |}.
Proof.
  apply (malformed_count_is_refused Ref.provider _ _ 100 1 "superpi"
           "20 digits" start start).
  left. exists 20, " "%char, "digits"%string.
  split; [lia|]. split; reflexivity.
Defined.

(** ** When the file or the buffer cannot be had *)

Lemma series_report_unsaved sys D s j fs :
  1 <= D ->
  fopen_ok sys (SeriesProgram.file_name D) = false ->
  bind (say (MsgCompleted D))
    (fun _ => bind (SeriesProgram.save_pi_to_file sys (Some s) D)
                (fun _ => free (Some s)))
    (Outside j fs)
  = Done tt
      (Outside
         (j ++ [Printed (MsgCompleted D);
                Printed (MsgCannotCreate (SeriesProgram.file_name D)); Free s])
         fs).
Proof.
  intros HD Hopen.
  unfold SeriesProgram.save_pi_to_file.
  replace (D <=? 0) with false by (symmetry; apply Z.leb_gt; lia).
  rewrite Hopen. cbn [negb].
  generalize (SeriesProgram.file_name D) as name. intros name.
  unfold bind, say, free. unfold act.
  rewrite <- !app_assoc. reflexivity.
Qed.

Lemma iterative_report_unsaved sys D s j fs :
  1 <= D ->
  fopen_ok sys (IterativeProgram.file_name D) = false ->
  bind (say (MsgCompleted D))
    (fun _ => bind (IterativeProgram.save_pi_to_file sys (Some s) D)
                (fun _ => free (Some s)))
    (Outside j fs)
  = Done tt
      (Outside
         (j ++ [Printed (MsgCompleted D);
                Printed (MsgCannotCreate (IterativeProgram.file_name D)); Free s])
         fs).
Proof.
  intros HD Hopen.
  unfold IterativeProgram.save_pi_to_file.
  replace (D <=? 0) with false by (symmetry; apply Z.leb_gt; lia).
  rewrite Hopen. cbn [negb].
  generalize (IterativeProgram.file_name D) as name. intros name.
  unfold bind, say, free. unfold act.
  rewrite <- !app_assoc. reflexivity.
Qed.

(** X18. When the result file cannot be created, [main] says so, frees
    the buffer and still exits with status 0: the digits are lost and no
    file is touched.  For the iterative program this is said of a run
    outside the keep mode whose numeric phase ends. *)
Theorem unwritable_result_file :
  forall (P : Provider) (ss si : os) (fuel rounds : nat) (prog : string)
         (D : Z),
    1 <= D <= MAX_DIGITS ->
    (forall ws : world P Series.var,
        malloc_ok (call_env ss 0) = true ->
        fopen_ok ss (SeriesProgram.file_name D) = false ->
        vars (mach ws) = [] ->
        exists m' s,
          SeriesProgram.main P ss [prog; decimal D] ws
          = Done 0
              {| mach := m';
                 out := {| journal :=
                             journal (out ws)
                             ++ [Printed (MsgComputing D); Printed (MsgCompleted D);
                                 Printed (MsgCannotCreate
                                          (SeriesProgram.file_name D));
                                 Free s];
                           files := files (out ws) |} |}) /\
    (forall wi : world P Iterative.var,
        malloc_ok (call_env si 0) = true ->
        fopen_ok si (IterativeProgram.file_name D) = false ->
        vars (mach wi) = [] ->
        observe (Iterative.numeric_phase P (call_env si 0) fuel D (mach wi))
        = Returned tt ->
        exists m' s,
          IterativeProgram.main P si fuel rounds [prog; decimal D] wi
          = Done 0
              {| mach := m';
                 out := {| journal :=
                             journal (out wi)
                             ++ [Printed (MsgComputing D); Printed MsgStartTime;
                                 Printed (MsgCompleted D);
                                 Printed (MsgCannotCreate
                                          (IterativeProgram.file_name D));
                                 Free s];
                           files := files (out wi) |} |}).
Proof.
  intros P ss si fuel rounds prog D HD. split.
  - intros [m [j fs]] Hmalloc Hopen Hm. cbn [mach out journal files] in *.
    destruct (SeriesFacts.series_call_spec P (call_env ss 0) D m HD Hm)
      as (v & m' & _ & Hc & _).
    rewrite Hmalloc in Hc. unfold MAX_DIGITS in HD.
    exists m'. eexists.
    rewrite series_main_numeral by lia.
    unfold SeriesProgram.compute.
    rewrite (bind_done _ _ _ _ _
               (on_outside_done (say (MsgComputing D)) m (Outside j fs) tt _
                  eq_refl)).
    rewrite (bind_done _ _ _ _ _ (on_machine_done _ _ _ _ _ Hc)).
    cbv beta iota. cbn [pointer non_null].
    replace (0 <? D) with true by (symmetry; apply Z.ltb_lt; lia).
    cbn [andb].
    rewrite (bind_done _ _ _ _ _
               (on_outside_done _ _ _ _ _
                  (series_report_unsaved ss D _ _ _ ltac:(lia) Hopen))).
    unfold ret. rewrite <- !app_assoc. reflexivity.
  - intros [m [j fs]] Hmalloc Hopen Hm Hnum. cbn [mach out journal files] in *.
    destruct (Iterative.numeric_phase P (call_env si 0) fuel D m)
      as [[] m1| |] eqn:Hrun; try discriminate Hnum.
    destruct (IterativeFacts.iterative_call_spec P (call_env si 0) fuel D m m1
                HD Hm Hrun) as (v & m' & chat & _ & Hc & _).
    rewrite Hmalloc in Hc.
    assert (Hrange : (negb false && ((D <=? 0) || (MAX_DIGITS <? D))) = false).
    { cbn [negb andb]. apply orb_false_iff. unfold MAX_DIGITS in *.
      split; [apply Z.leb_gt|apply Z.ltb_ge]; lia. }
    unfold MAX_DIGITS in HD.
    exists m'. eexists.
    rewrite iterative_main_numeral by lia.
    unfold IterativeProgram.run. rewrite Hrange. cbv iota.
    unfold IterativeProgram.compute.
    rewrite (bind_done _ _ _ _ _
               (on_outside_done
                  (bind (say (MsgComputing D)) (fun _ => say MsgStartTime))
                  m (Outside j fs) tt _ eq_refl)).
    rewrite (bind_done _ _ _ _ _ (on_machine_done _ _ _ _ _ Hc)).
    cbv beta iota. cbn [pointer non_null].
    replace (0 <? D) with true by (symmetry; apply Z.ltb_lt; lia).
    cbn [andb].
    rewrite (bind_done _ _ _ _ _
               (on_outside_done _ _ _ _ _
                  (iterative_report_unsaved si D _ _ _ ltac:(lia) Hopen))).
    unfold ret. rewrite <- !app_assoc. reflexivity.
Qed.

Lemma unwritable_result_file_witness :
  (exists m' s,
      SeriesProgram.main Ref.provider
        (read_only (calm (SeriesProgram.msgid_footer "Jan  1 2025")))
        ["superpi"; "20"]%string start
      = Done 0
          {| mach := m';
             out := {| journal :=
                         [Printed (MsgComputing 20); Printed (MsgCompleted 20);
                          Printed (MsgCannotCreate "圆周率_20.txt"); Free s];
                       files := [] |} |}) /\
  (exists m' s,
      IterativeProgram.main Ref.provider
        (read_only (calm (IterativeProgram.msgid_footer "Jan  1 2025"))) 100 1
        ["superpi"; "20"]%string start
      = Done 0
          {| mach := m';
             out := {| journal :=
                         [Printed (MsgComputing 20); Printed MsgStartTime;
                          Printed (MsgCompleted 20);
                          Printed (MsgCannotCreate "圆周率_20位.text"); Free s];
                       files := [] |} |}).
Proof.
  destruct (unwritable_result_file Ref.provider
              (read_only (calm (SeriesProgram.msgid_footer "Jan  1 2025")))
              (read_only (calm (IterativeProgram.msgid_footer "Jan  1 2025")))
              100 1 "superpi" 20) as [Hs Hi]; [unfold MAX_DIGITS; lia|].
  split.
  - destruct (Hs start) as (m' & s & E); [reflexivity|reflexivity|reflexivity|].
    exists m', s. exact E.
  - destruct (Hi start) as (m' & s & E);
      [reflexivity|reflexivity|reflexivity|vm_compute; reflexivity|].
    exists m', s. exact E.
Defined.

(** A round of the keep mode whose call finds no memory. *)
Lemma keep_loop_failed (P : Provider) sys fuel rounds k c m m' j fs :
  keep_running m = true ->
  Iterative.calculate_pi_digits P (call_env sys k) fuel c true m
  = Done (0, Null) m' ->
  keep_running m' = true ->
  IterativeProgram.keep_loop P sys fuel (S rounds) k c
    (World P Iterative.var m (Outside j fs))
  = Done tt
      (World P Iterative.var m'
         (Outside
            (j ++ [Printed (MsgComputing c); Printed MsgStartTime; Printed MsgFailed])
            fs)).
Proof.
  intros Hkr Hc Hkr'.
  cbn [IterativeProgram.keep_loop].
  unfold bind at 1. cbn [flag]. rewrite Hkr. cbn [negb].
  rewrite (bind_done _ _ _ _ _
             (on_outside_done
                (bind (say (MsgComputing c)) (fun _ => say MsgStartTime))
                m (Outside j fs) tt _ eq_refl)).
  rewrite (bind_done _ _ _ _ _ (on_machine_done _ _ _ _ _ Hc)).
  cbv beta iota. unfold bind at 1. cbn [flag]. rewrite Hkr'.
  unfold Iterative.keep_mode_report. change (0 <? 0) with false.
  cbn [andb negb]. cbv iota.
  unfold on_outside, bind, say, free, pointer, ret. unfold act.
  rewrite <- !app_assoc. reflexivity.
Qed.

(** X19. When the buffer cannot be allocated, the three ways of running
    the programs end differently: the series program reports the failure
    and exits with status 0, the iterative program exits with status 1,
    and its keep mode leaves its loop and exits with status 0.  No file is
    written and nothing is left to free. *)
Theorem failed_allocation_exit_status :
  forall (P : Provider) (ss si : os) (fuel rounds : nat) (prog : string)
         (D : Z),
    1 <= D <= MAX_DIGITS ->
    (forall ws : world P Series.var,
        malloc_ok (call_env ss 0) = false ->
        vars (mach ws) = [] ->
        exists m',
          SeriesProgram.main P ss [prog; decimal D] ws
          = Done 0
              {| mach := m';
                 out := {| journal :=
                             journal (out ws)
                             ++ [Printed (MsgComputing D); Printed MsgFailed];
                           files := files (out ws) |} |}) /\
    (forall wi : world P Iterative.var,
        malloc_ok (call_env si 0) = false ->
        vars (mach wi) = [] ->
        observe (Iterative.numeric_phase P (call_env si 0) fuel D (mach wi))
        = Returned tt ->
        exists m',
          IterativeProgram.main P si fuel rounds [prog; decimal D] wi
          = Done 1
              {| mach := m';
                 out := {| journal :=
                             journal (out wi)
                             ++ [Printed (MsgComputing D); Printed MsgStartTime;
                                 Printed MsgFailed];
                           files := files (out wi) |} |}) /\
    (forall (wi : world P Iterative.var) (n : nat),
        malloc_ok (call_env si 0) = false ->
        vars (mach wi) = [] -> keep_running (mach wi) = true ->
        (0 < rounds)%nat -> (n < fuel)%nat -> (n <= 9)%nat ->
        IterativeSpec.exits_in_round_after P (working_precision 1000) n = true ->
        undisturbed (call_env si 0) 0 (S n) = true ->
        exists m',
          IterativeProgram.main P si fuel rounds [prog; "--keep"%string] wi
          = Done 0
              {| mach := m';
                 out := {| journal :=
                             journal (out wi)
                             ++ [Printed MsgKeepBanner; Printed (MsgComputing 1000);
                                 Printed MsgStartTime; Printed MsgFailed];
                           files := files (out wi) |} |}).
Proof.
  intros P ss si fuel rounds prog D HD. split; [|split].
  - intros [m [j fs]] Hmalloc Hm. cbn [mach out journal files] in *.
    destruct (SeriesFacts.series_call_spec P (call_env ss 0) D m HD Hm)
      as (v & m' & _ & Hc & _).
    rewrite Hmalloc in Hc. unfold MAX_DIGITS in HD.
    exists m'.
    rewrite series_main_numeral by lia.
    unfold SeriesProgram.compute.
    rewrite (bind_done _ _ _ _ _
               (on_outside_done (say (MsgComputing D)) m (Outside j fs) tt _
                  eq_refl)).
    rewrite (bind_done _ _ _ _ _ (on_machine_done _ _ _ _ _ Hc)).
    cbv beta iota. cbn [pointer non_null]. change (0 <? 0) with false.
    cbn [andb]. unfold bind, on_outside, say, ret. unfold act.
    rewrite <- !app_assoc. reflexivity.
  - intros [m [j fs]] Hmalloc Hm Hnum. cbn [mach out journal files] in *.
    destruct (Iterative.numeric_phase P (call_env si 0) fuel D m)
      as [[] m1| |] eqn:Hrun; try discriminate Hnum.
    destruct (IterativeFacts.iterative_call_spec P (call_env si 0) fuel D m m1
                HD Hm Hrun) as (v & m' & chat & _ & Hc & _).
    rewrite Hmalloc in Hc.
    assert (Hrange : (negb false && ((D <=? 0) || (MAX_DIGITS <? D))) = false).
    { cbn [negb andb]. apply orb_false_iff. unfold MAX_DIGITS in *.
      split; [apply Z.leb_gt|apply Z.ltb_ge]; lia. }
    unfold MAX_DIGITS in HD.
    exists m'.
    rewrite iterative_main_numeral by lia.
    unfold IterativeProgram.run. rewrite Hrange. cbv iota.
    unfold IterativeProgram.compute.
    rewrite (bind_done _ _ _ _ _
               (on_outside_done
                  (bind (say (MsgComputing D)) (fun _ => say MsgStartTime))
                  m (Outside j fs) tt _ eq_refl)).
    rewrite (bind_done _ _ _ _ _ (on_machine_done _ _ _ _ _ Hc)).
    cbv beta iota. cbn [pointer non_null]. change (0 <? 0) with false.
    cbn [andb]. unfold bind, on_outside, say, free, ret. unfold act.
    rewrite <- !app_assoc. reflexivity.
  - intros [m [j fs]] n Hmalloc Hm Hkr Hrounds Hf H9 Hex Hsig.
    cbn [mach out journal files] in *.
    destruct rounds as [|rounds]; [lia|].
    pose proof (iterative_call_early P (call_env si 0) 1000 n fuel m
                  ltac:(unfold MAX_DIGITS; lia) Hm Hf H9 Hex) as Hc.
    rewrite Hmalloc, Hkr, Hsig in Hc. cbn [andb] in Hc.
    eexists.
    change (IterativeProgram.main P si fuel (S rounds) [prog; "--keep"%string]
              (World P Iterative.var m (Outside j fs)))
      with (IterativeProgram.run P si fuel (S rounds) true 1000
              (World P Iterative.var m (Outside j fs))).
    unfold IterativeProgram.run. cbn [negb andb].
    rewrite (bind_done _ _ _ _ _
               (on_outside_done (say MsgKeepBanner) m (Outside j fs) tt _
                  eq_refl)).
    rewrite (bind_done _ _ _ _ _
               (keep_loop_failed P si fuel rounds 0 1000 m _ _ _
                  Hkr Hc eq_refl)).
    unfold ret. rewrite <- !app_assoc. reflexivity.
Qed.

Lemma failed_allocation_exit_status_witness :
  (exists m',
      SeriesProgram.main Ref.provider
        (starved (calm (SeriesProgram.msgid_footer "Jan  1 2025")))
        ["superpi"; "20"]%string start
      = Done 0
          {| mach := m';
             out := {| journal := [Printed (MsgComputing 20); Printed MsgFailed];
                       files := [] |} |}) /\
  (exists m',
      IterativeProgram.main Ref.provider
        (starved (calm (IterativeProgram.msgid_footer "Jan  1 2025"))) 100 1
        ["superpi"; "20"]%string start
      = Done 1
          {| mach := m';
             out := {| journal := [Printed (MsgComputing 20); Printed MsgStartTime;
                                   Printed MsgFailed];
                       files := [] |} |}) /\
  (exists m',
      IterativeProgram.main Ref.provider
        (starved (calm (IterativeProgram.msgid_footer "Jan  1 2025"))) 100 1
        ["superpi"; "--keep"]%string start
      = Done 0
          {| mach := m';
             out := {| journal := [Printed MsgKeepBanner; Printed (MsgComputing 1000);
                                   Printed MsgStartTime; Printed MsgFailed];
                       files := [] |} |}).
Proof.
  destruct (failed_allocation_exit_status Ref.provider
              (starved (calm (SeriesProgram.msgid_footer "Jan  1 2025")))
              (starved (calm (IterativeProgram.msgid_footer "Jan  1 2025")))
              100 1 "superpi" 20) as (Hs & Hi & Hk); [unfold MAX_DIGITS; lia|].
  split; [|split].
  - apply (Hs start); reflexivity.
  - apply (Hi start); [reflexivity|reflexivity|vm_compute; reflexivity].
  - apply (Hk start 5%nat);
      [reflexivity|reflexivity|reflexivity|lia|lia|lia
      |exact ref_exits_1000|reflexivity].
Defined.

(** ** The value of the iterative program does not depend on the count *)

Lemma exact_after_any_precision b1 b2 n :
  IterativeSpec.after Exact.ops b1 n = IterativeSpec.after Exact.ops b2 n.
Proof.
  induction n as [|n IH]; [reflexivity|].
  cbn [IterativeSpec.after]. rewrite IH. reflexivity.
Qed.

(** X20. In exact arithmetic the iterative program computes the same
    number for every digit count: its loop leaves in round six whatever
    [D] is, so that asking for more digits does not bring a better value. *)
Theorem exact_iterative_value_ignores_the_count :
  forall (E1 E2 : env) (D1 D2 : Z) (fuel1 fuel2 : nat)
         (m1 m2 : machine Exact.ops Iterative.var),
    1 <= D1 <= MAX_DIGITS -> 1 <= D2 <= MAX_DIGITS ->
    vars m1 = [] -> vars m2 = [] -> (5 < fuel1)%nat -> (5 < fuel2)%nat ->
    exists v : R,
      Iterative.pi_value Exact.ops E1 fuel1 D1 m1 = Some v /\
      Iterative.pi_value Exact.ops E2 fuel2 D2 m2 = Some v.
Proof.
  intros E1 E2 D1 D2 fuel1 fuel2 m1 m2 H1 H2 Hm1 Hm2 Hf1 Hf2.
  destruct (IterativeFacts.numeric_phase_exit Exact.ops E1 D1 5 fuel1 m1 H1 Hm1
              Hf1 (exact_exit_round _)) as (m1' & Ea & Eb).
  destruct (IterativeFacts.numeric_phase_exit Exact.ops E2 D2 5 fuel2 m2 H2 Hm2
              Hf2 (exact_exit_round _)) as (m2' & Ec & Ed).
  eexists. split.
  - unfold Iterative.pi_value. rewrite (bind_done _ _ _ _ _ Ea), Eb.
    reflexivity.
  - unfold Iterative.pi_value. rewrite (bind_done _ _ _ _ _ Ec), Ed.
    rewrite (exact_after_any_precision (working_precision D2)
               (working_precision D1)).
    reflexivity.
Qed.

Lemma exact_iterative_value_ignores_the_count_witness :
  exists v : R,
    Iterative.pi_value Exact.ops quiet 6 20 boot = Some v /\
    Iterative.pi_value Exact.ops quiet 6 10000000 boot = Some v.
Proof.
  apply (exact_iterative_value_ignores_the_count quiet quiet 20 10000000 6 6
           boot boot);
    [unfold MAX_DIGITS; lia|unfold MAX_DIGITS; lia|reflexivity|reflexivity
    |lia|lia].
Defined.

(** ** How far the iterative program stays from pi *)

Module EnclosureFacts.
Import Enclosure.

Section Sound.

Local Open Scope R_scope.

Lemma scale_pos : 0 < IZR scale.
Proof. apply IZR_lt. reflexivity. Qed.

Lemma div_bounds (x y : Z) :
  (0 < y)%Z ->
  IZR (x / y) * IZR y <= IZR x /\ IZR x <= IZR (up_div x y) * IZR y.
Proof.
  intros Hy. rewrite <- !mult_IZR. split; apply IZR_le.
  - rewrite Z.mul_comm. apply Z.mul_div_le. exact Hy.
  - unfold up_div.
    pose proof (Z.mul_div_le (- x) y Hy). lia.
Qed.

Lemma sqrt_bounds (n : Z) :
  (0 <= n)%Z ->
  IZR (Z.sqrt n) <= sqrt (IZR n) /\ sqrt (IZR n) <= IZR (Z.sqrt n + 1).
Proof.
  intros Hn.
  destruct (Z.sqrt_spec n Hn) as [Hlo Hhi].
  pose proof (Z.sqrt_nonneg n) as H0.
  assert (R0 : 0 <= IZR (Z.sqrt n)) by (apply IZR_le; exact H0).
  assert (R1 : 0 <= IZR (Z.sqrt n + 1)) by (apply IZR_le; lia).
  split.
  - rewrite <- (sqrt_square (IZR (Z.sqrt n))) at 1 by exact R0.
    apply sqrt_le_1_alt. rewrite <- mult_IZR. apply IZR_le. exact Hlo.
  - rewrite <- (sqrt_square (IZR (Z.sqrt n + 1))) by exact R1.
    apply sqrt_le_1_alt. rewrite <- mult_IZR. apply IZR_le.
    unfold Z.succ in Hhi. lia.
Qed.

(** The square root of a product between the roots of the bounds. *)
Lemma sqrt_product_bounds (xl xu yl yu : Z) (x y : R) :
  (0 <= xl)%Z -> (0 <= yl)%Z ->
  IZR xl <= x <= IZR xu -> IZR yl <= y <= IZR yu ->
  IZR (Z.sqrt (xl * yl)) <= sqrt (x * y) <= IZR (Z.sqrt (xu * yu) + 1).
Proof.
  intros Hxl Hyl [Hx1 Hx2] [Hy1 Hy2].
  assert (Rxl : 0 <= IZR xl) by (apply IZR_le; exact Hxl).
  assert (Ryl : 0 <= IZR yl) by (apply IZR_le; exact Hyl).
  assert (Hxu : (0 <= xu)%Z) by (apply le_IZR; lra).
  assert (Hyu : (0 <= yu)%Z) by (apply le_IZR; lra).
  split.
  - apply Rle_trans with (sqrt (IZR (xl * yl))).
    + apply sqrt_bounds. apply Z.mul_nonneg_nonneg; assumption.
    + apply sqrt_le_1_alt. rewrite mult_IZR.
      apply Rmult_le_compat; assumption.
  - apply Rle_trans with (sqrt (IZR (xu * yu))).
    + apply sqrt_le_1_alt. rewrite mult_IZR.
      apply Rmult_le_compat; lra.
    + apply sqrt_bounds. apply Z.mul_nonneg_nonneg; assumption.
Qed.

Lemma sqrt_scaled (x s : R) :
  0 <= x -> 0 <= s -> sqrt x * s = sqrt (x * (s * s)).
Proof.
  intros Hx Hs. rewrite sqrt_mult_alt by exact Hx.
  rewrite sqrt_square by exact Hs. reflexivity.
Qed.

Lemma square_bounds (dl dh : Z) (d : R) :
  (0 <= dl)%Z -> IZR dl <= d <= IZR dh ->
  IZR (dl * dl) <= d * d <= IZR (dh * dh).
Proof.
  intros H0 [H1 H2].
  assert (R0 : 0 <= IZR dl) by (apply IZR_le; exact H0).
  rewrite !mult_IZR. split; apply Rmult_le_compat; lra.
Qed.

Variable bits : Z.

(** One round of the recurrence stays within one [step] of the bounds. *)
Lemma step_sound x s :
  ordered x = true -> encloses x s ->
  encloses (step x) (IterativeSpec.next Exact.ops bits s).
Proof.
  destruct x as [xal xau xbl xbu xtl xtu xp]. destruct s as [a b t p].
  unfold ordered, encloses, within, step.
  cbn [al au bl bu tl tu pw].
  rewrite exact_next.
  cbn [IterativeSpec.sa IterativeSpec.sb IterativeSpec.st IterativeSpec.sp].
  intros Ho (Ha & Hb & Ht & Hp).
  apply andb_prop in Ho. destruct Ho as [Ho Hp0].
  apply andb_prop in Ho. destruct Ho as [Hb0 Hba].
  apply Z.leb_le in Hb0, Hba, Hp0.
  pose proof scale_pos as HS.
  assert (Rb0 : 0 <= IZR xbl) by (apply IZR_le; exact Hb0).
  assert (Rba : IZR xbu <= IZR xal) by (apply IZR_le; exact Hba).
  assert (Rp0 : 0 <= IZR xp) by (apply IZR_le; exact Hp0).
  assert (Ha0 : (0 <= xal)%Z) by (apply le_IZR; lra).
  assert (A0 : 0 <= a).
  { apply (Rmult_le_reg_r (IZR scale)); [exact HS|]. lra. }
  assert (B0 : 0 <= b).
  { apply (Rmult_le_reg_r (IZR scale)); [exact HS|]. lra. }
  subst p.
  repeat apply conj.
  - pose proof (proj1 (div_bounds (xal + xbl) 2 ltac:(lia))) as D.
    rewrite plus_IZR in D. lra.
  - pose proof (proj2 (div_bounds (xau + xbu) 2 ltac:(lia))) as D.
    rewrite plus_IZR in D. lra.
  - rewrite sqrt_scaled;
      [|apply Rmult_le_pos; assumption|apply Rlt_le; exact HS].
    replace (a * b * (IZR scale * IZR scale))
      with ((a * IZR scale) * (b * IZR scale)) by ring.
    apply (sqrt_product_bounds xal xau xbl xbu); assumption.
  - rewrite sqrt_scaled;
      [|apply Rmult_le_pos; assumption|apply Rlt_le; exact HS].
    replace (a * b * (IZR scale * IZR scale))
      with ((a * IZR scale) * (b * IZR scale)) by ring.
    apply (sqrt_product_bounds xal xau xbl xbu); assumption.
  - set (X := IZR xp * ((a + b) / 2 - a) ^ 2 * IZR scale).
    replace ((t - IZR xp * ((a + b) / 2 - a) ^ 2) * IZR scale)
      with (t * IZR scale - X) by (unfold X; ring).
    rewrite minus_IZR.
    pose proof (proj2 (div_bounds (xp * ((xau - xbl) * (xau - xbl)))
                         (4 * scale) ltac:(reflexivity))) as D.
    pose proof (proj2 (square_bounds (xal - xbu) (xau - xbl)
                  (a * IZR scale - b * IZR scale) ltac:(lia)
                  ltac:(rewrite !minus_IZR; lra))) as Q.
    rewrite !mult_IZR in D. rewrite mult_IZR in Q.
    assert (EX : X * (4 * IZR scale)
                 = IZR xp * ((a * IZR scale - b * IZR scale)
                             * (a * IZR scale - b * IZR scale)))
      by (unfold X; field).
    assert (LX : X * (4 * IZR scale)
                 <= IZR (up_div (xp * ((xau - xbl) * (xau - xbl)))
                           (4 * scale)) * (4 * IZR scale)).
    { rewrite EX. eapply Rle_trans; [|exact D].
      apply Rmult_le_compat_l; [exact Rp0|exact Q]. }
    apply Rmult_le_reg_r in LX; [|lra].
    clearbody X. lra.
  - set (X := IZR xp * ((a + b) / 2 - a) ^ 2 * IZR scale).
    replace ((t - IZR xp * ((a + b) / 2 - a) ^ 2) * IZR scale)
      with (t * IZR scale - X) by (unfold X; ring).
    rewrite minus_IZR.
    pose proof (proj1 (div_bounds (xp * ((xal - xbu) * (xal - xbu)))
                         (4 * scale) ltac:(reflexivity))) as D.
    pose proof (proj1 (square_bounds (xal - xbu) (xau - xbl)
                  (a * IZR scale - b * IZR scale) ltac:(lia)
                  ltac:(rewrite !minus_IZR; lra))) as Q.
    rewrite !mult_IZR in D. rewrite mult_IZR in Q.
    assert (EX : X * (4 * IZR scale)
                 = IZR xp * ((a * IZR scale - b * IZR scale)
                             * (a * IZR scale - b * IZR scale)))
      by (unfold X; field).
    assert (LX : IZR (xp * ((xal - xbu) * (xal - xbu)) / (4 * scale))
                 * (4 * IZR scale) <= X * (4 * IZR scale)).
    { rewrite EX. eapply Rle_trans; [exact D|].
      apply Rmult_le_compat_l; [exact Rp0|exact Q]. }
    apply Rmult_le_reg_r in LX; [|lra].
    clearbody X. lra.
  - rewrite mult_IZR. reflexivity.
Qed.

Lemma first_sound : encloses first (IterativeSpec.initial Exact.ops bits).
Proof.
  rewrite exact_initial. unfold encloses, within, first.
  cbn [al au bl bu tl tu pw
       IterativeSpec.sa IterativeSpec.sb IterativeSpec.st IterativeSpec.sp].
  pose proof scale_pos as HS.
  assert (E4 : IZR (scale / 4) * 4 = IZR scale).
  { rewrite <- mult_IZR. apply f_equal. vm_compute. reflexivity. }
  assert (E2 : IZR (scale * scale / 2) * 2 = IZR scale * IZR scale).
  { rewrite <- !mult_IZR. apply f_equal. vm_compute. reflexivity. }
  assert (Eb : 1 / sqrt 2 * IZR scale = sqrt (IZR (scale * scale / 2))).
  { replace (IZR (scale * scale / 2)) with (/ 2 * (IZR scale * IZR scale))
      by lra.
    rewrite sqrt_mult_alt by lra.
    rewrite sqrt_square by lra. rewrite sqrt_inv.
    unfold Rdiv. ring. }
  rewrite Eb.
  pose proof (sqrt_bounds (scale * scale / 2) ltac:(vm_compute; discriminate))
    as [B1 B2].
  repeat apply conj; lra.
Qed.

Lemma after_sound n :
  forallb (fun k => ordered (after k)) (seq 0 n) = true ->
  encloses (after n) (IterativeSpec.after Exact.ops bits n).
Proof.
  induction n as [|n IH]; intros Ho.
  - apply first_sound.
  - rewrite seq_S, forallb_app in Ho. apply andb_prop in Ho.
    destruct Ho as [Ho1 Ho2]. cbn [forallb Nat.add] in Ho2.
    rewrite andb_true_r in Ho2.
    cbn [after IterativeSpec.after]. rewrite exact_carry.
    apply step_sound; [exact Ho2|apply IH; exact Ho1].
Qed.

(** The value made of the end state, between the two quotients. *)
Lemma final_sound x s :
  ordered x = true -> (0 <? tl x)%Z = true -> encloses x s ->
  within (fst (final x)) (snd (final x)) (IterativeSpec.final Exact.ops bits s).
Proof.
  destruct x as [xal xau xbl xbu xtl xtu xp]. destruct s as [a b t p].
  unfold ordered, encloses, within, final.
  cbn [al au bl bu tl tu pw fst snd].
  rewrite exact_final.
  cbn [IterativeSpec.sa IterativeSpec.sb IterativeSpec.st IterativeSpec.sp].
  intros Ho Ht0 (Ha & Hb & Ht & _).
  apply andb_prop in Ho. destruct Ho as [Ho _].
  apply andb_prop in Ho. destruct Ho as [Hb0 Hba].
  apply Z.leb_le in Hb0, Hba. apply Z.ltb_lt in Ht0.
  pose proof scale_pos as HS.
  assert (Rb0 : 0 <= IZR xbl) by (apply IZR_le; exact Hb0).
  assert (Rba : IZR xbu <= IZR xal) by (apply IZR_le; exact Hba).
  assert (Rt0 : 0 < IZR xtl) by (apply IZR_lt; exact Ht0).
  assert (Htu : (0 < xtu)%Z) by (apply lt_IZR; lra).
  assert (Ha0 : (0 <= xal)%Z) by (apply le_IZR; lra).
  assert (T0 : 0 < t).
  { apply (Rmult_lt_reg_r (IZR scale)); [exact HS|]. lra. }
  set (V := (a + b) ^ 2 / (4 * t) * IZR scale).
  assert (EV : V * (4 * (t * IZR scale))
               = (a * IZR scale + b * IZR scale)
                 * (a * IZR scale + b * IZR scale))
    by (unfold V; field; lra).
  pose proof (square_bounds (xal + xbl) (xau + xbu)
                (a * IZR scale + b * IZR scale) ltac:(lia)
                ltac:(rewrite !plus_IZR; lra)) as [Q1 Q2].
  rewrite <- EV in Q1, Q2.
  pose proof (div_bounds ((xal + xbl) * (xal + xbl)) (4 * xtu) ltac:(lia))
    as [D1 _].
  pose proof (div_bounds ((xau + xbu) * (xau + xbu)) (4 * xtl) ltac:(lia))
    as [_ D2].
  rewrite (mult_IZR 4 xtu) in D1. rewrite (mult_IZR 4 xtl) in D2.
  assert (L0 : (0 <= (xal + xbl) * (xal + xbl) / (4 * xtu))%Z).
  { apply Z.div_pos; [|lia]. apply Z.square_nonneg. }
  apply IZR_le in L0.
  clearbody V.
  set (lo := IZR ((xal + xbl) * (xal + xbl) / (4 * xtu))) in *.
  set (hi := IZR (up_div ((xau + xbu) * (xau + xbu)) (4 * xtl))) in *.
  set (T := t * IZR scale) in *.
  assert (V0 : 0 <= V).
  { apply (Rmult_le_reg_r (4 * T)); [lra|].
    eapply Rle_trans; [|exact Q1]. rewrite Rmult_0_l.
    apply IZR_le, Z.square_nonneg. }
  split.
  - apply (Rmult_le_reg_r (4 * T)); [lra|].
    apply Rle_trans with (lo * IZR 4 * IZR xtu); [|lra].
    rewrite !Rmult_assoc. apply Rmult_le_compat_l; [exact L0|]. lra.
  - apply (Rmult_le_reg_r (4 * IZR xtl)); [lra|].
    apply Rle_trans with (V * (4 * T)); [|lra].
    apply Rmult_le_compat_l; [exact V0|]. lra.
Qed.

(** One term of the arctangent series at [1 / q], between a quotient and
    the next integer. *)
Lemma term_bounds (q : Z) (k : nat) :
  (1 < q)%Z ->
  let f := (scale / (q ^ (2 * Z.of_nat k + 1) * (2 * Z.of_nat k + 1)))%Z in
  IZR f <= (1 / IZR q) ^ (2 * k + 1) / INR (2 * k + 1) * IZR scale
        <= IZR (f + 1).
Proof.
  intros Hq f.
  set (m := (q ^ (2 * Z.of_nat k + 1) * (2 * Z.of_nat k + 1))%Z) in *.
  assert (Hm : (0 < m)%Z).
  { unfold m. apply Z.mul_pos_pos; [|lia]. apply Z.pow_pos_nonneg; lia. }
  assert (Rq : 0 < IZR q) by (apply IZR_lt; lia).
  assert (Rm : 0 < IZR m) by (apply IZR_lt; exact Hm).
  assert (Em : IZR m = IZR q ^ (2 * k + 1) * INR (2 * k + 1)).
  { unfold m. rewrite mult_IZR.
    replace (2 * Z.of_nat k + 1)%Z with (Z.of_nat (2 * k + 1)) by lia.
    rewrite <- pow_IZR, <- INR_IZR_INZ. reflexivity. }
  assert (Et : (1 / IZR q) ^ (2 * k + 1) / INR (2 * k + 1) * IZR scale
               = IZR scale / IZR m).
  { rewrite Em.
    assert (Hp : 0 < IZR q ^ (2 * k + 1)) by (apply pow_lt; exact Rq).
    assert (Hn : 0 < INR (2 * k + 1)) by (apply lt_0_INR; lia).
    replace (1 / IZR q) with (/ IZR q) by lra.
    rewrite pow_inv. field. split; lra. }
  rewrite Et.
  pose proof (Z.mul_div_le scale m Hm) as F1.
  pose proof (Z.mul_succ_div_gt scale m Hm) as F2.
  fold f in F1, F2. unfold Z.succ in F2.
  apply IZR_le in F1. apply IZR_lt in F2. rewrite mult_IZR in F1, F2.
  generalize dependent (IZR f). intros F1' ?. 
  generalize dependent (IZR (f + 1)). intros F2' ?.
  split.
  - apply (Rmult_le_reg_r (IZR m)); [exact Rm|].
    replace (IZR scale / IZR m * IZR m) with (IZR scale) by (field; lra).
    lra.
  - apply (Rmult_le_reg_r (IZR m)); [exact Rm|].
    replace (IZR scale / IZR m * IZR m) with (IZR scale) by (field; lra).
    lra.
Qed.

Lemma arctan_sound (q : Z) (n : nat) :
  (1 < q)%Z ->
  within (fst (arctan q n)) (snd (arctan q n))
    (SeriesSpec.arctan_sum (1 / IZR q) n).
Proof.
  intros Hq. unfold within. induction n as [|n IH].
  - cbn [arctan SeriesSpec.arctan_sum fst snd]. lra.
  - cbn [arctan SeriesSpec.arctan_sum].
    destruct (arctan q n) as [lo hi]. cbn [fst snd] in IH.
    pose proof (term_bounds q n Hq) as T. cbv zeta in T.
    unfold SeriesSpec.taylor_term.
    set (f := (scale / (q ^ (2 * Z.of_nat n + 1) * (2 * Z.of_nat n + 1)))%Z)
      in *.
    set (u := (1 / IZR q) ^ (2 * n + 1) / INR (2 * n + 1)) in *.
    rewrite plus_IZR in T.
    destruct (Nat.even n); cbn [fst snd];
      rewrite ?plus_IZR, ?minus_IZR, ?plus_IZR; lra.
Qed.

Lemma machin_sound (n : nat) :
  within (fst (machin n)) (snd (machin n)) (SeriesSpec.machin n).
Proof.
  pose proof (arctan_sound 5 n ltac:(lia)) as H5.
  pose proof (arctan_sound 239 n ltac:(lia)) as H239.
  unfold machin, SeriesSpec.machin, within in *.
  destruct (arctan 5 n) as [l5 h5]. destruct (arctan 239 n) as [l239 h239].
  cbn [fst snd] in *.
  rewrite !mult_IZR, !minus_IZR, !mult_IZR. lra.
Qed.

(** The number pi, within one unit of the sums of 81 terms. *)
Lemma pi_sound :
  IZR (fst (machin 81) - 1) <= PI * IZR scale <= IZR (snd (machin 81) + 1).
Proof.
  pose proof (machin_sound 81) as [M1 M2].
  pose proof (machin_error 80) as ME.
  pose proof scale_pos as HS.
  assert (Hs : 20 * (1 / 5) ^ (2 * 80 + 1) * IZR scale <= 1).
  { replace (1 / 5) with (/ 5) by lra. rewrite pow_inv.
    assert (H5 : 0 < 5 ^ (2 * 80 + 1)) by (apply pow_lt; lra).
    apply (Rmult_le_reg_r (5 ^ (2 * 80 + 1))); [exact H5|].
    replace (20 * / 5 ^ (2 * 80 + 1) * IZR scale * 5 ^ (2 * 80 + 1))
      with (IZR 20 * IZR scale) by (field; lra).
    rewrite Rmult_1_l, pow_IZR, <- mult_IZR. apply IZR_le.
    vm_compute. discriminate. }
  rewrite plus_IZR, minus_IZR.
  set (e := 20 * (1 / 5) ^ (2 * 80 + 1)) in *.
  assert (He : 0 <= e).
  { unfold e. apply Rmult_le_pos; [lra|]. apply pow_le. lra. }
  set (s := SeriesSpec.machin 81) in *.
  assert (Hd : Rabs ((s - PI) * IZR scale) <= 1).
  { rewrite Rabs_mult, (Rabs_pos_eq (IZR scale)) by lra.
    apply Rle_trans with (e * IZR scale); [|exact Hs].
    apply Rmult_le_compat_r; [lra|exact ME]. }
  unfold Rabs in Hd. destruct (Rcase_abs _) in Hd; lra.
Qed.

End Sound.

End EnclosureFacts.

Section Gap.

Local Open Scope R_scope.

Lemma units_of_scale (c : Z) :
  IZR c / 10 ^ 85 * IZR Enclosure.scale = IZR (c * 10 ^ 15).
Proof.
  assert (E : IZR Enclosure.scale = 10 ^ 85 * IZR (10 ^ 15)).
  { rewrite pow_IZR, <- mult_IZR. apply f_equal. vm_compute. reflexivity. }
  rewrite E, mult_IZR. field.
Qed.

Lemma gap_from_bounds (vl vu pl pu : Z) (v : R) :
  (24 * 10 ^ 15 < pl - 1 - vu)%Z -> (pu + 1 - vl < 25 * 10 ^ 15)%Z ->
  Enclosure.within vl vu v ->
  IZR (pl - 1) <= PI * IZR Enclosure.scale <= IZR (pu + 1) ->
  24 / 10 ^ 85 < PI - v < 25 / 10 ^ 85.
Proof.
  unfold Enclosure.within. intros Z1 Z2 [V1 V2] [P1 P2].
  pose proof EnclosureFacts.scale_pos as HS.
  apply IZR_lt in Z1, Z2. rewrite minus_IZR in Z1, Z2.
  split; apply (Rmult_lt_reg_r (IZR Enclosure.scale)); try exact HS.
  - rewrite (units_of_scale 24). lra.
  - rewrite (units_of_scale 25). lra.
Qed.

End Gap.

Lemma five_rounds_checked :
  forallb (fun k => Enclosure.ordered (Enclosure.after k)) (seq 0 5) = true /\
  Enclosure.ordered (Enclosure.after 5) = true /\
  (0 <? Enclosure.tl (Enclosure.after 5)) = true.
Proof. vm_compute. repeat split. Qed.

Lemma five_rounds_gap :
  24 * 10 ^ 15
    < fst (Enclosure.machin 81) - 1
      - snd (Enclosure.final (Enclosure.after 5)) /\
  snd (Enclosure.machin 81) + 1 - fst (Enclosure.final (Enclosure.after 5))
    < 25 * 10 ^ 15.
Proof. vm_compute. split; reflexivity. Qed.

(** X21. In exact arithmetic the value of the iterative program is not pi:
    for every digit count it stays below pi by more than [24 * 10 ^ -85]
    and less than [25 * 10 ^ -85], since the loop leaves in round six with
    the means of round five.  Digits beyond the 84th decimal cannot come
    out right, whatever the precision of the variables. *)
Theorem exact_iterative_value_misses_pi :
  forall (E : env) (D : Z) (fuel : nat) (m : machine Exact.ops Iterative.var),
    1 <= D <= MAX_DIGITS -> vars m = [] -> (5 < fuel)%nat ->
    exists v : R,
      Iterative.pi_value Exact.ops E fuel D m = Some v /\
      (24 / 10 ^ 85 < PI - v < 25 / 10 ^ 85)%R.
Proof.
  intros E D fuel m HD Hm Hf.
  destruct (IterativeFacts.numeric_phase_exit Exact.ops E D 5 fuel m HD Hm
              Hf (exact_exit_round _)) as (m' & Ea & Eb).
  destruct five_rounds_checked as (C1 & C2 & C3).
  destruct five_rounds_gap as (G1 & G2).
  eexists. split.
  - unfold Iterative.pi_value. rewrite (bind_done _ _ _ _ _ Ea), Eb.
    reflexivity.
  - exact (gap_from_bounds _ _ _ _ _ G1 G2
             (EnclosureFacts.final_sound (working_precision D) _ _ C2 C3
                (EnclosureFacts.after_sound (working_precision D) 5 C1))
             EnclosureFacts.pi_sound).
Qed.

Lemma exact_iterative_value_misses_pi_witness :
  exists v : R,
    Iterative.pi_value Exact.ops quiet 6 20 boot = Some v /\
    (24 / 10 ^ 85 < PI - v < 25 / 10 ^ 85)%R.
Proof.
  apply (exact_iterative_value_misses_pi quiet 20 6 boot);
    [unfold MAX_DIGITS; lia|reflexivity|lia].
Defined.

(** ** What a failing run leaves behind *)

Lemma bind_done_inv {S T U} (c : M S T) (k : T -> M S U) s y s' :
  bind c k s = Done y s' ->
  exists x s1, c s = Done x s1 /\ k x s1 = Done y s'.
Proof.
  unfold bind. destruct (c s) as [x s1| |]; try discriminate.
  intros H. exists x, s1. split; [reflexivity|exact H].
Qed.

Lemma on_outside_inv {A V T} (c : M outside T) (w w' : world A V) x :
  on_outside c w = Done x w' ->
  mach w' = mach w /\ c (out w) = Done x (out w').
Proof.
  destruct w as [m o]. unfold on_outside.
  destruct (c o) as [y o'| |] eqn:E; try discriminate.
  intros H. injection H as <- <-. split; [reflexivity|exact E].
Qed.

Lemma on_machine_inv {A V T} (c : M (machine A V) T) (w w' : world A V) x :
  on_machine c w = Done x w' -> out w' = out w.
Proof.
  destruct w as [m o]. unfold on_machine.
  destruct (c m) as [y m'| |]; try discriminate.
  intros H. injection H as <- <-. reflexivity.
Qed.

Lemma act_files a o o' x : act a o = Done x o' -> files o' = files o.
Proof. destruct o as [j fs]. intros H. injection H as _ <-. reflexivity. Qed.

Lemma free_files p o o' x : free p o = Done x o' -> files o' = files o.
Proof.
  destruct p as [s|]; [apply act_files|].
  intros H. injection H as _ <-. reflexivity.
Qed.

(** A line on the terminal and an exit status: nothing else changes. *)
Lemma refusal_effect {A V} (msg : message) (c : Z) (w w' : world A V) code :
  bind (on_outside (say msg)) (fun _ => ret c) w = Done code w' ->
  code = c /\ mach w' = mach w /\ files (out w') = files (out w).
Proof.
  destruct w as [m [j fs]]. intros H. injection H as <- <-.
  repeat split.
Qed.

Lemma series_compute_status (P : Provider) sys digits w code w' :
  SeriesProgram.compute P sys digits w = Done code w' -> code = 0.
Proof.
  unfold SeriesProgram.compute. intros H.
  apply bind_done_inv in H. destruct H as (x & w1 & _ & H).
  apply bind_done_inv in H. destruct H as ([calculated p] & w2 & _ & H).
  destruct ((0 <? calculated) && non_null (pointer p));
    apply bind_done_inv in H; destruct H as (y & w3 & _ & H);
    injection H as <- _; reflexivity.
Qed.

Lemma series_main_failing (P : Provider) sys argv w code w' :
  SeriesProgram.main P sys argv w = Done code w' -> code <> 0 ->
  mach w' = mach w /\ files (out w') = files (out w).
Proof.
  unfold SeriesProgram.main. intros H Hc.
  assert (Said : forall msg c,
            bind (on_outside (say msg)) (fun _ => ret c) w = Done code w' ->
            mach w' = mach w /\ files (out w') = files (out w)).
  { intros msg c Hs. apply refusal_effect in Hs. tauto. }
  assert (Computed : forall d,
            SeriesProgram.compute P sys d w = Done code w' ->
            mach w' = mach w /\ files (out w') = files (out w)).
  { intros d Hd. apply series_compute_status in Hd. contradiction. }
  destruct (2 <? Z.of_nat (List.length argv)); [exact (Said _ _ H)|].
  destruct (Z.of_nat (List.length argv) =? 2); [|exact (Computed _ H)].
  destruct (_ || _)%bool; [exact (Said _ _ H)|].
  destruct (_ || _)%bool; [exact (Said _ _ H)|].
  destruct (strtoull (nth 1 argv EmptyString)) as [digits endptr].
  destruct (_ || _)%bool; [exact (Said _ _ H)|exact (Computed _ H)].
Qed.

Lemma iterative_compute_failing (P : Provider) sys fuel digits w code w' :
  IterativeProgram.compute P sys fuel digits w = Done code w' -> code <> 0 ->
  files (out w') = files (out w).
Proof.
  unfold IterativeProgram.compute. intros H Hc.
  apply bind_done_inv in H. destruct H as ([] & w1 & H1 & H).
  apply bind_done_inv in H. destruct H as ([calculated p] & w2 & H2 & H).
  apply on_outside_inv in H1. destruct H1 as [_ H1].
  apply on_machine_inv in H2.
  assert (F1 : files (out w1) = files (out w)).
  { apply bind_done_inv in H1. destruct H1 as ([] & o1 & Ha & Hb).
    apply act_files in Ha, Hb. rewrite Hb. exact Ha. }
  destruct ((0 <? calculated) && non_null (pointer p));
    apply bind_done_inv in H; destruct H as (y & w3 & H3 & H).
  - injection H as <- _. contradiction Hc. reflexivity.
  - injection H as _ <-.
    apply on_outside_inv in H3. destruct H3 as [_ H3].
    apply bind_done_inv in H3. destruct H3 as ([] & o1 & Hs & Hf).
    apply act_files in Hs. apply free_files in Hf.
    rewrite Hf, Hs, H2. exact F1.
Qed.

Lemma iterative_run_failing (P : Provider) sys fuel rounds keep digits
      w code w' :
  IterativeProgram.run P sys fuel rounds keep digits w = Done code w' ->
  code <> 0 -> files (out w') = files (out w).
Proof.
  unfold IterativeProgram.run. intros H Hc.
  destruct (negb keep && _)%bool.
  - apply refusal_effect in H. tauto.
  - destruct keep.
    + apply bind_done_inv in H. destruct H as (x & w1 & _ & H).
      apply bind_done_inv in H. destruct H as (y & w2 & _ & H).
      injection H as <- _. contradiction Hc. reflexivity.
    + exact (iterative_compute_failing P sys fuel digits w code w' H Hc).
Qed.

(** X22. A run of [main] that ends with a status other than 0 has written
    no result file, in both programs.  In the series program such a run
    has not called [calculate_pi_digits] either: a failed call there still
    ends with status 0. *)
Theorem failing_run_saves_nothing :
  forall (P : Provider) (sys : os),
    (forall (argv : list string) (w w' : world P Series.var) (code : Z),
        SeriesProgram.main P sys argv w = Done code w' -> code <> 0 ->
        mach w' = mach w /\ files (out w') = files (out w)) /\
    (forall (fuel rounds : nat) (argv : list string)
            (w w' : world P Iterative.var) (code : Z),
        IterativeProgram.main P sys fuel rounds argv w = Done code w' ->
        code <> 0 ->
        files (out w') = files (out w)).
Proof.
  intros P sys. split.
  - intros argv w w' code. apply series_main_failing.
  - intros fuel rounds argv w w' code H Hc.
    unfold IterativeProgram.main in H.
    assert (Said : forall msg c w0,
              files (out w0) = files (out w) ->
              bind (on_outside (say msg)) (fun _ => ret c) w0 = Done code w' ->
              files (out w') = files (out w)).
    { intros msg c w0 E0 Hs. apply refusal_effect in Hs.
      destruct Hs as (_ & _ & Hs). rewrite Hs. exact E0. }
    assert (Ran : forall keep d,
              IterativeProgram.run P sys fuel rounds keep d w = Done code w' ->
              files (out w') = files (out w)).
    { intros keep d Hr.
      exact (iterative_run_failing P sys fuel rounds keep d w code w' Hr Hc). }
    destruct (2 <? Z.of_nat (List.length argv)); [exact (Said _ _ w eq_refl H)|].
    destruct (Z.of_nat (List.length argv) =? 1).
    { apply bind_done_inv in H. destruct H as (x & w1 & H1 & H).
      apply on_outside_inv in H1. destruct H1 as [_ H1].
      apply act_files in H1.
      destruct (scanf_lu sys) as [digits|]; [|exact (Said _ _ w1 H1 H)].
      destruct (_ || _)%bool; [exact (Said _ _ w1 H1 H)|].
      rewrite <- H1.
      exact (iterative_run_failing P sys fuel rounds false digits w1 code w'
               H Hc). }
    destruct (Z.of_nat (List.length argv) =? 2); [|exact (Ran _ _ H)].
    destruct (_ || _)%bool; [exact (Said _ _ w eq_refl H)|].
    destruct (_ || _)%bool; [exact (Said _ _ w eq_refl H)|].
    destruct (_ || _)%bool; [exact (Ran _ _ H)|].
    destruct (strtoull (nth 1 argv EmptyString)) as [digits endptr].
    destruct (_ || _)%bool; [exact (Said _ _ w eq_refl H)|exact (Ran _ _ H)].
Qed.

Lemma failing_run_saves_nothing_witness :
  (exists code w',
      SeriesProgram.main Ref.provider
        (calm (SeriesProgram.msgid_footer "Jan  1 2025"))
        ["superpi"; "1"; "2"]%string start = Done code w' /\
      code <> 0 /\ mach w' = boot /\ files (out w') = []) /\
  (exists code w',
      IterativeProgram.main Ref.provider
        (calm (IterativeProgram.msgid_footer "Jan  1 2025")) 100 1
        ["superpi"; "pi"]%string start = Done code w' /\
      code <> 0 /\ files (out w') = []).
Proof.
  split.
  - exists 1, (World _ _ boot (Outside [Printed MsgTooManyArguments] [])).
    split; [reflexivity|]. split; [discriminate|].
    apply (proj1 (failing_run_saves_nothing Ref.provider
                    (calm (SeriesProgram.msgid_footer "Jan  1 2025")))
             ["superpi"; "1"; "2"]%string start _ 1);
      [reflexivity|discriminate].
  - exists 1, (World _ _ boot (Outside [Printed MsgInvalidDigits] [])).
    split; [reflexivity|]. split; [discriminate|].
    apply (proj2 (failing_run_saves_nothing Ref.provider
                    (calm (IterativeProgram.msgid_footer "Jan  1 2025")))
             100%nat 1%nat ["superpi"; "pi"]%string start _ 1);
      [reflexivity|discriminate].
Defined.
